(** * enoki/array_base.h: the generic fallback layer of Enoki arrays

    A shallow embedding of [ArrayBase] and [StaticArrayBase] (file
    [include/enoki/array_base.h]).  An [Array<Value, Size>] is a [vec Value Size]:
    the lane count is part of the type, as it is a template argument in the
    source, and [coeff(i)] is the total lookup [v !!! i].

    The base class is written against primitives that the concrete array type
    supplies ([+], [*], comparisons, [select], [sqrt], ...) and that live in
    other headers.  Where a definition below stands for such a primitive its
    doc comment says so. *)

From Stdlib Require Import ZArith Lia Bool Ascii String.
From Stdlib Require Import Floats.SpecFloat.
From stdpp Require Import base decidable fin vector finite pretty.

(** ** Run-time failures

    The two exceptions the header throws, and the outcome of a call that may
    throw.  [Undefined] stands for undefined behaviour (an unchecked access
    outside the array in a release build). *)

Inductive exception : Type :=
  | out_of_range (what : string)
  | length_error (what : string).

Inductive result (A : Type) : Type :=
  | Return (a : A)
  | Throw (e : exception)
  | Undefined.
Arguments Return {A} a.
Arguments Throw {A} e.
Arguments Undefined {A}.

(** ** [ArrayBase]: element access *)

Module ArrayBase.
Section ElementAccess.
Context {Value : Type} {Size : nat}.

(** [!defined(NDEBUG) && !defined(ENOKI_DISABLE_RANGE_CHECK)] *)
Variable range_check : bool.

(** A [Value &] into the array designates one of its lanes. *)
Definition reference : Type := fin Size.
Definition load (d : vec Value Size) (r : reference) : Value := d !!! r.
Definition store (d : vec Value Size) (r : reference) (x : Value) : vec Value Size :=
  vinsert r x d.

(** [derived().size()] *)
Definition size (d : vec Value Size) : nat := Size.

Definition out_of_range_what (i n : nat) : string :=
  ("ArrayBase: out of range access (tried to access index " +:+ pretty i
     +:+ " in an array of size " +:+ pretty n +:+ ")")%string.

(** [Value &operator[](size_t i)] *)
Definition operator_index (d : vec Value Size) (i : nat) : result reference :=
  match le_lt_dec (size d) i with
  | left _ =>
      if range_check then Throw (out_of_range (out_of_range_what i (size d)))
      else Undefined
  | right H => Return (nat_to_fin H)
  end.
End ElementAccess.
End ArrayBase.

(** ** Lane-wise primitives of any array

    Modelled from the spec: [select(mask, a, b)] of [array_router.h], the
    per-lane blend that takes [a]'s lane where the mask is true and [b]'s
    lane where it is false. *)

Definition select {A : Type} {Size : nat}
    (m : vec bool Size) (a b : vec A Size) : vec A Size :=
  fun_to_vec (λ i : fin Size, if (m !!! i : bool) then a !!! i else b !!! i).

(** ** [detail::lpow2]

    Modelled from the spec: [detail::lpow2] is declared outside
    [array_base.h].  The spec gives [Size1] as the largest power of two not
    exceeding the lane count; for a count of zero, where no such power
    exists, the model returns zero. *)

Module detail.
Definition lpow2 (n : nat) : nat :=
  match n with
  | O => O
  | S _ => 2 ^ Nat.log2 n
  end.
End detail.

(** ** [size_t] arithmetic (64 bits) *)

Module SizeT.
Local Open Scope Z_scope.
Definition wrap (x : Z) : Z := x mod 2 ^ 64.
Definition not (k : Z) : Z := wrap (Z.lnot k).
Definition add (a b : Z) : Z := wrap (a + b).
End SizeT.

(** ** Integer scalar types *)

Inductive int_width : Type := W8 | W16 | W32 | W64.

Record IntScalar : Type := { is_signed : bool; int_size : int_width }.

Module IntLane.
Local Open Scope Z_scope.

Definition sizeof (ty : IntScalar) : Z :=
  match int_size ty with W8 => 1 | W16 => 2 | W32 => 4 | W64 => 8 end.
Definition bits (ty : IntScalar) : Z := 8 * sizeof ty.

(** The values a lane of the type can hold. *)
Definition in_range (ty : IntScalar) (x : Z) : Prop :=
  if is_signed ty then - 2 ^ (bits ty - 1) <= x < 2 ^ (bits ty - 1)
  else 0 <= x < 2 ^ bits ty.

Definition unsigned_of (ty : IntScalar) : IntScalar :=
  {| is_signed := false; int_size := int_size ty |}.

(** Conversion between a type and the unsigned type of equal width. *)
Definition to_unsigned (ty : IntScalar) (x : Z) : Z := x mod 2 ^ bits ty.
Definition of_unsigned (ty : IntScalar) (u : Z) : Z :=
  if is_signed ty && (2 ^ (bits ty - 1) <=? u) then u - 2 ^ bits ty else u.

(** Modelled from the spec: the shift and OR primitives of an unsigned
    integer array.  A left shift drops the bits that leave the lane. *)
Definition shl (ty : IntScalar) (x s : Z) : Z := Z.shiftl x s mod 2 ^ bits ty.
Definition shr (ty : IntScalar) (x s : Z) : Z := Z.shiftr x s.

(** One lane of width [W] under two complementary shifts OR'd together:
    left by [a], right by [b]. *)
Definition rot (W x a b : Z) : Z := Z.lor (Z.shiftl x a mod 2 ^ W) (Z.shiftr x b).
End IntLane.

(** ** [StaticArrayBase]: the generic fallback operations *)

Module StaticArrayBase.

(** *** Size decomposition *)

Definition Size1 (Size_ : nat) : nat := detail.lpow2 Size_.
Definition Size2 (Size_ : nat) : nat := Size_ - Size1 Size_.

(** *** Rotation *)

Section Rotate.
Context {Size : nat}.
Local Open Scope Z_scope.

(** The branch [!std::is_signed<Scalar>::value] of [rol_]. *)
Definition rol_unsigned (ty : IntScalar) (d : vec Z Size) (k : Z) : vec Z Size :=
  let mask := 8 * IntLane.sizeof ty - 1 in
  vzip_with Z.lor
    (vmap (λ x, IntLane.shl ty x (Z.land k mask)) d)
    (vmap (λ x, IntLane.shr ty x (Z.land (SizeT.add (SizeT.not k) 1) mask)) d).

Definition rol_ (ty : IntScalar) (d : vec Z Size) (k : Z) : vec Z Size :=
  if negb (is_signed ty) then rol_unsigned ty d k
  else
    vmap (IntLane.of_unsigned ty)
         (rol_unsigned (IntLane.unsigned_of ty) (vmap (IntLane.to_unsigned ty) d) k).

(** The branch [!std::is_signed<Scalar>::value] of [ror_]. *)
Definition ror_unsigned (ty : IntScalar) (d : vec Z Size) (k : Z) : vec Z Size :=
  let mask := 8 * IntLane.sizeof ty - 1 in
  vzip_with Z.lor
    (vmap (λ x, IntLane.shr ty x (Z.land k mask)) d)
    (vmap (λ x, IntLane.shl ty x (Z.land (SizeT.add (SizeT.not k) 1) mask)) d).

Definition ror_ (ty : IntScalar) (d : vec Z Size) (k : Z) : vec Z Size :=
  if negb (is_signed ty) then ror_unsigned ty d k
  else
    vmap (IntLane.of_unsigned ty)
         (ror_unsigned (IntLane.unsigned_of ty) (vmap (IntLane.to_unsigned ty) d) k).
End Rotate.

(** *** Fused multiply-add/subtract, [resize_] and the masked operators *)

Section Generic.
Context {Value : Type} {Size : nat}.

(** The operators of the scalar type.  The division has no value where
    C++ leaves it undefined: on integer lanes a divisor of zero, or a
    quotient outside the type; the division instruction traps there. *)
Variables (add sub mul : Value → Value → Value).
Variable div : Value → Value → option Value.
Variables (and or xor : Value → Value → Value).

(** Modelled from the spec: scalar [fmadd] and [fmsub] of
    [array_router.h], as the products followed by the sum or difference
    that [fmadd_] and [fmsub_] spell out for whole arrays. *)
Definition fmadd (a b c : Value) : Value := add (mul a b) c.
Definition fmsub (a b c : Value) : Value := sub (mul a b) c.

Definition fmaddsub_ (d b c : vec Value Size) : vec Value Size :=
  fun_to_vec (λ i : fin Size,
    if (fin_to_nat i mod 2 =? 0)%nat
    then fmsub (d !!! i) (b !!! i) (c !!! i)
    else fmadd (d !!! i) (b !!! i) (c !!! i)).

Definition fmsubadd_ (d b c : vec Value Size) : vec Value Size :=
  fun_to_vec (λ i : fin Size,
    if (fin_to_nat i mod 2 =? 0)%nat
    then fmadd (d !!! i) (b !!! i) (c !!! i)
    else fmsub (d !!! i) (b !!! i) (c !!! i)).

(** [resize_]: the outcome of the call and the array after it. *)
Definition resize_ (d : vec Value Size) (size : nat) : result unit * vec Value Size :=
  if negb (size =? Size)%nat
  then (Throw (length_error "Incompatible size for static array"), d)
  else (Return tt, d).

(** The lanes of an array expression, once every one of them has a
    value. *)
Fixpoint all_defined {n : nat} (v : vec (option Value) n) : option (vec Value n) :=
  match v with
  | vnil => Some vnil
  | vcons o v' =>
      match o, all_defined v' with
      | Some a, Some w => Some (vcons a w)
      | _, _ => None
      end
  end.

(** Modelled from the spec: [operator/] of two arrays (declared outside
    [array_base.h]), the quotient of every pair of lanes.  All lanes are
    computed; the behaviour is undefined as soon as one quotient is. *)
Definition quotient (a b : vec Value Size) : result (vec Value Size) :=
  match all_defined (vzip_with div a b) with
  | Some q => Return q
  | None => Undefined
  end.

(** [ENOKI_MASKED_OPERATOR_FALLBACK(name, expr)]:
    [derived() = select(m, expr, derived())].  The macro argument [expr]
    mentions [derived()] and [e]; it is an argument of [select], so it is
    evaluated on every lane before the mask is looked at, and the call has
    no result when [expr] has none. *)
Definition ENOKI_MASKED_OPERATOR_FALLBACK
    (expr : vec Value Size → vec Value Size → result (vec Value Size))
    (d e : vec Value Size) (m : vec bool Size) : result (vec Value Size) :=
  match expr d e with
  | Return x => Return (select m x d)
  | Throw ex => Throw ex
  | Undefined => Undefined
  end.

Definition massign_ := ENOKI_MASKED_OPERATOR_FALLBACK (λ d e, Return e).
Definition madd_ :=
  ENOKI_MASKED_OPERATOR_FALLBACK (λ d e, Return (vzip_with add d e)).
Definition msub_ :=
  ENOKI_MASKED_OPERATOR_FALLBACK (λ d e, Return (vzip_with sub d e)).
Definition mmul_ :=
  ENOKI_MASKED_OPERATOR_FALLBACK (λ d e, Return (vzip_with mul d e)).
Definition mdiv_ := ENOKI_MASKED_OPERATOR_FALLBACK quotient.
Definition mor_ :=
  ENOKI_MASKED_OPERATOR_FALLBACK (λ d e, Return (vzip_with or d e)).
Definition mand_ :=
  ENOKI_MASKED_OPERATOR_FALLBACK (λ d e, Return (vzip_with and d e)).
Definition mxor_ :=
  ENOKI_MASKED_OPERATOR_FALLBACK (λ d e, Return (vzip_with xor d e)).

(** [detail::MaskWrapper]: the target array and the mask.  Each operator
    returns the target after the call. *)
Record MaskWrapper : Type := { d : vec Value Size; m : vec bool Size }.

Inductive compound_operator : Type :=
  | op_assign | op_add | op_sub | op_mul | op_div | op_or | op_and | op_xor.

Definition MaskWrapper_apply (op : compound_operator) (w : MaskWrapper)
    (value : vec Value Size) : result (vec Value Size) :=
  match op with
  | op_assign => massign_ (d w) value (m w)
  | op_add => madd_ (d w) value (m w)
  | op_sub => msub_ (d w) value (m w)
  | op_mul => mmul_ (d w) value (m w)
  | op_div => mdiv_ (d w) value (m w)
  | op_or => mor_ (d w) value (m w)
  | op_and => mand_ (d w) value (m w)
  | op_xor => mxor_ (d w) value (m w)
  end.

(** The unmasked counterparts [v = e], [v += e], ..., [v ^= e]: the target
    after the statement. *)
Definition unmasked (op : compound_operator) (v e : vec Value Size)
  : result (vec Value Size) :=
  match op with
  | op_assign => Return e
  | op_add => Return (vzip_with add v e)
  | op_sub => Return (vzip_with sub v e)
  | op_mul => Return (vzip_with mul v e)
  | op_div => quotient v e
  | op_or => Return (vzip_with or v e)
  | op_and => Return (vzip_with and v e)
  | op_xor => Return (vzip_with xor v e)
  end.
End Generic.

End StaticArrayBase.

(** ** 32-bit lanes *)

Module Lane32.
Local Open Scope Z_scope.

Definition width : Z := 32.
Definition modulus : Z := 2 ^ 32.
Definition all_ones : Z := 0xFFFFFFFF.

(** A lane is well formed when it is a 32-bit pattern. *)
Definition wf (x : Z) : Prop := 0 <= x < modulus.

Definition wrap (x : Z) : Z := x mod modulus.

(** Two's complement reading of a pattern ([int32_t]). *)
Definition signed (x : Z) : Z :=
  if Z.testbit x 31 then wrap x - modulus else wrap x.

End Lane32.

(** ** IEEE-754 binary32 primitives

    Modelled from the spec: the primitive operations on [float] lanes that the
    concrete array type supplies and [array_router.h] forwards (arithmetic,
    comparisons, conversions).  None of them is defined in [array_base.h].
    A lane holds the 32-bit pattern of the value; arithmetic decodes it to
    Rocq's [spec_float] with [prec = 24], [emax = 128], applies the correctly
    rounded operation (round to nearest even) and packs the result.  A NaN
    produced by arithmetic is packed as the quiet NaN [0x7FC00000]. *)

Module Float32.
Local Open Scope Z_scope.

Definition prec : Z := 24.
Definition emax : Z := 128.

Definition sign_bit : Z := 0x80000000.
Definition infinity : Z := 0x7F800000.
Definition exponent_field (x : Z) : Z := Z.land (Z.shiftr x 23) 0xFF.
Definition mantissa_field (x : Z) : Z := Z.land x 0x7FFFFF.

Definition to_spec (x : Z) : spec_float :=
  let s := Z.testbit x 31 in
  let e := exponent_field x in
  let m := mantissa_field x in
  if e =? 0 then
    match m with Zpos p => S754_finite s p (-149) | _ => S754_zero s end
  else if e =? 255 then
    match m with Z0 => S754_infinity s | _ => S754_nan end
  else
    match m + 2 ^ 23 with Zpos p => S754_finite s p (e - 150) | _ => S754_nan end.

(** Packing masks every field to its width, so the result is always a 32-bit
    pattern. *)
Definition pack (s : bool) (e m : Z) : Z :=
  Z.lor (if s then sign_bit else 0)
        (Z.lor (Z.shiftl (Z.land e 0xFF) 23) (Z.land m 0x7FFFFF)).

Definition of_spec (f : spec_float) : Z :=
  match f with
  | S754_zero s => pack s 0 0
  | S754_infinity s => pack s 255 0
  | S754_nan => pack false 255 0x400000
  | S754_finite s m e =>
      if Zpos m <? 2 ^ 23 then pack s 0 (Zpos m)
      else pack s (e + 150) (Zpos m - 2 ^ 23)
  end.

Definition add (x y : Z) : Z := of_spec (SFadd prec emax (to_spec x) (to_spec y)).
Definition sub (x y : Z) : Z := of_spec (SFsub prec emax (to_spec x) (to_spec y)).
Definition mul (x y : Z) : Z := of_spec (SFmul prec emax (to_spec x) (to_spec y)).
Definition div (x y : Z) : Z := of_spec (SFdiv prec emax (to_spec x) (to_spec y)).
Definition sqrt (x : Z) : Z := of_spec (SFsqrt prec emax (to_spec x)).

(** [floor]: the largest integral value not above the argument. *)
Definition SFfloor (f : spec_float) : spec_float :=
  match f with
  | S754_finite s m e =>
      if 0 <=? e then f
      else
        let q := Z.shiftr (Zpos m) (- e) in
        let exact := Z.shiftl q (- e) =? Zpos m in
        let n := if s then - (if exact then q else q + 1) else q in
        binary_normalize prec emax n 0 s
  | _ => f
  end.

Definition floor (x : Z) : Z := of_spec (SFfloor (to_spec x)).

(** [abs] clears the sign bit. *)
Definition abs (x : Z) : Z := Z.land x 0x7FFFFFFF.

(** Ordered comparisons, as [SFcompare] decides them on the decoded values:
    false as soon as one side is a NaN, and the two zeros are equal. *)
Definition compare (x y : Z) : option comparison :=
  SFcompare (to_spec x) (to_spec y).
Definition lt (x y : Z) : bool := SFltb (to_spec x) (to_spec y).
Definition le (x y : Z) : bool := SFleb (to_spec x) (to_spec y).
Definition eq (x y : Z) : bool := SFeqb (to_spec x) (to_spec y).
Definition gt (x y : Z) : bool := lt y x.
Definition ge (x y : Z) : bool := le y x.
Definition neq (x y : Z) : bool := negb (eq x y).

(** The sign-magnitude reading of a pattern.  On patterns that are not NaNs
    its order is the order of the values. *)
Definition is_nan (x : Z) : bool := infinity <? abs x.
Definition ord_key (x : Z) : Z := if Z.testbit x 31 then - abs x else abs x.

(** Scalar [max]/[min] as [std::max]/[std::min]: [(a < b) ? b : a] and
    [(b < a) ? b : a]. *)
Definition max (a b : Z) : Z := if lt a b then b else a.
Definition min (a b : Z) : Z := if lt b a then b else a.

(** Conversion to [int32_t] truncates toward zero; a NaN or a value out of
    range converts to the pattern [0x80000000]. *)
Definition to_int32 (x : Z) : Z :=
  match to_spec x with
  | S754_zero _ => 0
  | S754_finite s m e =>
      let mag := if 0 <=? e then Z.shiftl (Zpos m) e else Z.shiftr (Zpos m) (- e) in
      let n := if s then - mag else mag in
      if (- 2 ^ 31 <=? n) && (n <? 2 ^ 31) then Lane32.wrap n else 0x80000000
  | _ => 0x80000000
  end.

(** Conversion from [int32_t] rounds to nearest even. *)
Definition of_int32 (p : Z) : Z :=
  of_spec (binary_normalize prec emax (Lane32.signed p) 0 false).

(** *** Literals

    [Float(c)] for a decimal literal [c = m * 10^-k]: the literal is a
    [double], correctly rounded from the decimal, then narrowed to [float]. *)
Module Double.
Definition prec : Z := 53.
Definition emax : Z := 1024.

Definition of_Z (m : Z) : spec_float :=
  match m with
  | Z0 => S754_zero false
  | Zpos p => S754_finite false p 0
  | Zneg p => S754_finite true p 0
  end.

Definition lit (m k : Z) : spec_float :=
  SFdiv prec emax (of_Z m) (of_Z (10 ^ k)).
Definition div (x y : spec_float) : spec_float := SFdiv prec emax x y.
Definition neg (x : spec_float) : spec_float := SFopp x.

Definition M_PI : spec_float := lit 314159265358979323846 20.
Definition M_PI_2 : spec_float := lit 157079632679489661923 20.
Definition M_2_SQRTPI : spec_float := lit 112837916709551257390 20.
End Double.

Definition of_double (d : spec_float) : Z :=
  of_spec match d with
          | S754_finite s m e => binary_round prec emax s m e
          | _ => d
          end.

Definition lit (m k : Z) : Z := of_double (Double.lit m k).

End Float32.

(** ** Lane-wise primitives of a [float] array

    Modelled from the spec: the whole-array operators of the concrete array
    type ([+ - * / & | ^], comparisons, [select], [sqrt], [abs], [floor],
    conversions and [reinterpret_array]), which [array_base.h] uses but does
    not define.  Each acts on every lane independently.  A mask is an array of
    [bool]; it enters a bitwise operation as the all-ones or all-zeros pattern
    of its lane, as in the reinterpreting constructor of [ENOKI_NATIVE_ARRAY]
    ([coeff(i) = a.coeff(i) ? on : off] with [on = memcpy_cast<Value>(Int(-1))]). *)

Module FloatArray.
Local Open Scope Z_scope.

Abbreviation Expr Size := (vec Z Size) (only parsing).
Abbreviation IntArray Size := (vec Z Size) (only parsing).
Abbreviation Mask Size := (vec bool Size) (only parsing).

Definition mask_bits (b : bool) : Z := if b then Lane32.all_ones else 0.

Section Primitives.
Context {Size : nat}.

(** [Expr(c)]: every lane holds [c]. *)
Definition bc (c : Z) : Expr Size := vreplicate Size c.
Definition zero : Expr Size := bc 0.

Definition reinterpret_array (m : Mask Size) : Expr Size := vmap mask_bits m.

Definition mnot (m : Mask Size) : Mask Size := vmap negb m.
Definition mand (a b : Mask Size) : Mask Size := vzip_with andb a b.

Definition fadd (a b : Expr Size) : Expr Size := vzip_with Float32.add a b.
Definition fsub (a b : Expr Size) : Expr Size := vzip_with Float32.sub a b.
Definition fmul (a b : Expr Size) : Expr Size := vzip_with Float32.mul a b.
Definition fdiv (a b : Expr Size) : Expr Size := vzip_with Float32.div a b.
Definition band (a b : vec Z Size) : vec Z Size := vzip_with Z.land a b.
Definition bor (a b : vec Z Size) : vec Z Size := vzip_with Z.lor a b.
Definition bxor (a b : vec Z Size) : vec Z Size := vzip_with Z.lxor a b.

Definition flt (a b : Expr Size) : Mask Size := vzip_with Float32.lt a b.
Definition fgt (a b : Expr Size) : Mask Size := vzip_with Float32.gt a b.
Definition fge (a b : Expr Size) : Mask Size := vzip_with Float32.ge a b.
Definition feq (a b : Expr Size) : Mask Size := vzip_with Float32.eq a b.
Definition fneq (a b : Expr Size) : Mask Size := vzip_with Float32.neq a b.

Definition abs (a : Expr Size) : Expr Size := vmap Float32.abs a.
Definition sqrt (a : Expr Size) : Expr Size := vmap Float32.sqrt a.
Definition floor (a : Expr Size) : Expr Size := vmap Float32.floor a.
Definition max (a b : Expr Size) : Expr Size := vzip_with Float32.max a b.
Definition min (a b : Expr Size) : Expr Size := vzip_with Float32.min a b.

(** [detail::sign_mask]: keeps the sign bit of every lane. *)
Definition sign_mask (a : Expr Size) : Expr Size :=
  band a (bc Float32.sign_bit).

(** Integer arrays ([int_array_t<Expr>], lanes of [int32_t]). *)
Definition to_int (a : Expr Size) : IntArray Size := vmap Float32.to_int32 a.
Definition of_int (a : IntArray Size) : Expr Size := vmap Float32.of_int32 a.
Definition iadd (a b : IntArray Size) : IntArray Size :=
  vzip_with (λ x y, Lane32.wrap (x + y)) a b.
Definition isub (a b : IntArray Size) : IntArray Size :=
  vzip_with (λ x y, Lane32.wrap (x - y)) a b.
Definition inot (a : IntArray Size) : IntArray Size :=
  vmap (λ x, Z.lxor x Lane32.all_ones) a.
Definition sli (k : Z) (a : IntArray Size) : IntArray Size :=
  vmap (λ x, Lane32.wrap (Z.shiftl x k)) a.
Definition sri (k : Z) (a : IntArray Size) : IntArray Size :=
  vmap (λ x, Lane32.wrap (Z.shiftr (Lane32.signed x) k)) a.
Definition ieq (a b : IntArray Size) : Mask Size := vzip_with Z.eqb a b.
Definition ineq (a b : IntArray Size) : Mask Size :=
  vzip_with (λ x y, negb (x =? y)) a b.
End Primitives.

End FloatArray.

(** ** Decimal literals as they are written in the source

    [Float32.of_literal "2.4187564849853515625e-4"] is the [float] that the
    C++ expression [Float(2.4187564849853515625e-4)] denotes.  The scanner
    reads an optional sign, digits with an optional point, and an optional
    exponent; a trailing [f] suffix is skipped. *)

Module Literal.
Local Open Scope Z_scope.

Record state := {
  negative : bool; mantissa : Z; frac_digits : Z; in_frac : bool;
  in_exp : bool; exp_negative : bool; exp_value : Z }.

Definition init : state :=
  {| negative := false; mantissa := 0; frac_digits := 0; in_frac := false;
     in_exp := false; exp_negative := false; exp_value := 0 |}.

Definition digit_of (c : Ascii.ascii) : option Z :=
  let n := Z.of_nat (Ascii.nat_of_ascii c) in
  if (48 <=? n) && (n <=? 57) then Some (n - 48) else None.

Definition step (c : Ascii.ascii) (st : state) : state :=
  match digit_of c with
  | Some d =>
      if in_exp st then
        {| negative := negative st; mantissa := mantissa st;
           frac_digits := frac_digits st; in_frac := in_frac st;
           in_exp := true; exp_negative := exp_negative st;
           exp_value := 10 * exp_value st + d |}
      else
        {| negative := negative st; mantissa := 10 * mantissa st + d;
           frac_digits := if in_frac st then frac_digits st + 1 else frac_digits st;
           in_frac := in_frac st; in_exp := false;
           exp_negative := exp_negative st; exp_value := exp_value st |}
  | None =>
      if Ascii.eqb c "."%char then
        {| negative := negative st; mantissa := mantissa st;
           frac_digits := frac_digits st; in_frac := true;
           in_exp := in_exp st; exp_negative := exp_negative st;
           exp_value := exp_value st |}
      else if Ascii.eqb c "e"%char then
        {| negative := negative st; mantissa := mantissa st;
           frac_digits := frac_digits st; in_frac := in_frac st;
           in_exp := true; exp_negative := exp_negative st;
           exp_value := exp_value st |}
      else if Ascii.eqb c "-"%char then
        if in_exp st then
          {| negative := negative st; mantissa := mantissa st;
             frac_digits := frac_digits st; in_frac := in_frac st;
             in_exp := true; exp_negative := true; exp_value := exp_value st |}
        else
          {| negative := true; mantissa := mantissa st;
             frac_digits := frac_digits st; in_frac := in_frac st;
             in_exp := false; exp_negative := exp_negative st;
             exp_value := exp_value st |}
      else st
  end.

Fixpoint scan (s : string) (st : state) : state :=
  match s with
  | EmptyString => st
  | String c s' => scan s' (step c st)
  end.

(** The pair [(m, k)] with value [m * 10^-k] and [0 <= k]. *)
Definition parse (s : string) : Z * Z :=
  let st := scan s init in
  let m := if negative st then - mantissa st else mantissa st in
  let k := frac_digits st - (if exp_negative st then - exp_value st else exp_value st) in
  if k <? 0 then (m * 10 ^ (- k), 0) else (m, k).

Definition to_double (s : string) : spec_float :=
  let '(m, k) := parse s in Float32.Double.lit m k.

Definition to_float (s : string) : Z := Float32.of_double (to_double s).

End Literal.

(** ** The scalar math library

    The functions that the fallback loops call on one lane
    ([r.coeff(i) = sin(derived().coeff(i))]).  They are defined outside
    [array_base.h]; the development is parametric in them. *)

Record ScalarMath := {
  s_sin : Z → Z;   s_cos : Z → Z;   s_tan : Z → Z;
  s_asin : Z → Z;  s_acos : Z → Z;  s_atan : Z → Z;  s_atan2 : Z → Z → Z;
  s_exp : Z → Z;   s_log : Z → Z;   s_pow : Z → Z → Z;
  s_ldexp : Z → Z → Z;              s_frexp : Z → Z * Z;
  s_sinh : Z → Z;  s_cosh : Z → Z;  s_tanh : Z → Z;
  s_csch : Z → Z;  s_sech : Z → Z;  s_coth : Z → Z;
  s_asinh : Z → Z; s_acosh : Z → Z; s_atanh : Z → Z;
  s_erf : Z → Z;   s_erfi : Z → Z }.

Declare Scope expr_scope.
Delimit Scope expr_scope with E.
Infix "+" := FloatArray.fadd : expr_scope.
Infix "-" := FloatArray.fsub : expr_scope.
Infix "*" := FloatArray.fmul : expr_scope.
Infix "/" := FloatArray.fdiv : expr_scope.
Infix "<" := FloatArray.flt : expr_scope.
Infix ">" := FloatArray.fgt : expr_scope.
Infix ">=" := FloatArray.fge : expr_scope.
Infix "&&&" := FloatArray.band (at level 40, left associativity) : expr_scope.
Infix "|||" := FloatArray.bor (at level 50, left associativity) : expr_scope.
Infix "^^^" := FloatArray.bxor (at level 50, left associativity) : expr_scope.

(** ** [StaticArrayBase] over [float] lanes: the mathematical support library *)

Module StaticArrayBaseFloat.
Import FloatArray.

Section Math.
(** The template arguments [Size_] and [Approx_], and the scalar library. *)
Context {Size : nat}.
Variable Approx : bool.
Variable L : ScalarMath.

Local Open Scope expr_scope.

(** [Expr(Float(c))] for the literal [c] as spelled in the source. *)
Definition F (c : string) : Expr Size := bc (Literal.to_float c).

(** The fallback loop [for (i < Size) r.coeff(i) = f(derived().coeff(i))]. *)
Definition scalar_loop (f : Z → Z) (d : Expr Size) : Expr Size :=
  fun_to_vec (λ i : fin Size, f (d !!! i)).
Definition scalar_loop2 (f : Z → Z → Z) (d e : Expr Size) : Expr Size :=
  fun_to_vec (λ i : fin Size, f (d !!! i) (e !!! i)).

(** [neg_], floating-point branch: [derived() ^ Expr(Scalar(-0.f))]. *)
Definition neg_ (d : Expr Size) : Expr Size := d ^^^ bc Float32.sign_bit.

(** [not_]: [derived() ^ mask] with [mask] all ones. *)
Definition not_ (d : Expr Size) : Expr Size := d ^^^ bc Lane32.all_ones.

Definition rcp_ (d : Expr Size) : Expr Size := F "1" / d.
Definition rsqrt_ (d : Expr Size) : Expr Size := F "1" / sqrt d.
Definition fmadd_ (d b c : Expr Size) : Expr Size := d * b + c.
Definition fmsub_ (d b c : Expr Size) : Expr Size := d * b - c.

(** *** Trigonometric functions *)

(** The polynomial part shared verbatim by [sin_], [cos_] and [sincos_]:
    from [x = abs(derived())] to the pair [(s, c)], with [j]. *)
Definition sincos_core (d : Expr Size) : IntArray Size * Expr Size * Expr Size :=
  let x := abs d in
  let j := to_int (x * F "1.27323954473516") in
  let j := iadd j (bc 1) &&& bc 0xFFFFFFFE in
  let y := of_int j in
  let x := x - y * F "0.78515625"
             - y * F "2.4187564849853515625e-4"
             - y * F "3.77489497744594108e-8" in
  let z := x * x in
  let s := F "-1.9515295891e-4" in
  let s := fmadd_ s z (F "8.3321608736e-3") in
  let s := fmadd_ s z (F "-1.6666654611e-1") in
  let s := s * (z * x) in
  let s := s + x in
  let c := F "2.443315711809948e-5" in
  let c := fmadd_ c z (F "-1.388731625493765e-3") in
  let c := fmadd_ c z (F "4.166664568298827e-2") in
  let c := c * (z * z) in
  let c := c - F "0.5" * z in
  let c := c + F "1" in
  (j, s, c).

Definition sign_sin (j : IntArray Size) (d : Expr Size) : Expr Size :=
  sign_mask (sli 29 j ^^^ d).
Definition sign_cos (j : IntArray Size) : Expr Size :=
  sign_mask (sli 29 (inot (isub j (bc 2)))).
Definition polymask (j : IntArray Size) : Mask Size :=
  ieq (j &&& bc 2) zero.

Definition sin_ (d : Expr Size) : Expr Size :=
  if Approx then
    let '(j, s, c) := sincos_core d in
    select (polymask j) s c ^^^ sign_sin j d
  else scalar_loop (s_sin L) d.

Definition cos_ (d : Expr Size) : Expr Size :=
  if Approx then
    let '(j, s, c) := sincos_core d in
    select (polymask j) c s ^^^ sign_cos j
  else scalar_loop (s_cos L) d.

Definition sincos_ (d : Expr Size) : Expr Size * Expr Size :=
  if Approx then
    let '(j, s, c) := sincos_core d in
    (select (polymask j) s c ^^^ sign_sin j d,
     select (polymask j) c s ^^^ sign_cos j)
  else (scalar_loop (s_sin L) d, scalar_loop (s_cos L) d).

Definition tan_ (d : Expr Size) : Expr Size :=
  if Approx then
    let sc := sincos_ d in
    fst sc / snd sc
  else scalar_loop (s_tan L) d.

Definition csc_ (d : Expr Size) : Expr Size := rcp_ (sin_ d).
Definition sec_ (d : Expr Size) : Expr Size := rcp_ (cos_ d).
Definition cot_ (d : Expr Size) : Expr Size :=
  let sc := sincos_ d in
  snd sc / fst sc.

(** The minimax polynomial of [acos(x)/sqrt(1-x)], shared verbatim by
    [asin_] and [acos_]. *)
Definition acos_poly (x : Expr Size) : Expr Size :=
  let t := F "+0.00227944990024845419940890" in
  let t := fmadd_ t x (F "-0.01109688980710918972127294") in
  let t := fmadd_ t x (F "+0.02684475831352801832421248") in
  let t := fmadd_ t x (F "-0.04877412052802108370460564") in
  let t := fmadd_ t x (F "+0.08874905480758988950198278") in
  let t := fmadd_ t x (F "-0.21458470981542561024897117") in
  let t := fmadd_ t x (F "1.57079616508886408344826942") in
  t * sqrt (F "1" - x).

Definition asin_ (d : Expr Size) : Expr Size :=
  if Approx then
    let x_ := d in
    let x := abs x_ in
    let invalidMask := x > F "1" in
    let negate := x_ < zero in
    let t := acos_poly x in
    let t := bc (Float32.of_double Float32.Double.M_PI_2) - t in
    select (x > F ".5e-1")
           (t - (F "2" &&& reinterpret_array negate) * t)
           (x_ + x_ * x_ * x_
                 * bc (Float32.of_double
                         (Float32.Double.div (Literal.to_double "1.0")
                                             (Literal.to_double "6.0"))))
      ||| reinterpret_array invalidMask
  else scalar_loop (s_asin L) d.

Definition acos_ (d : Expr Size) : Expr Size :=
  if Approx then
    let x := abs d in
    let invalidMask := x > F "1" in
    let negate := d < zero in
    let t := acos_poly x in
    let t := t - (F "2" &&& reinterpret_array negate) * t in
    (t + (bc (Float32.of_double Float32.Double.M_PI) &&& reinterpret_array negate))
      ||| reinterpret_array invalidMask
  else scalar_loop (s_acos L) d.

Definition atan2_ (d x : Expr Size) : Expr Size :=
  if Approx then
    let y := d in
    let absX := abs x in
    let absY := abs y in
    let minVal := min absY absX in
    let maxVal := max absX absY in
    let scale := F "1" / maxVal in
    let scaledMin := minVal * scale in
    let z := scaledMin * scaledMin in
    let t := F "0.0078613793713198150252" in
    let t := fmadd_ t z (F "-0.037006525670417265220") in
    let t := fmadd_ t z (F "+0.083863120428809689910") in
    let t := fmadd_ t z (F "-0.13486708938456973185") in
    let t := fmadd_ t z (F "+0.19881342388439013552") in
    let t := fmadd_ t z (F "-0.33326497518773606976") in
    let t := fmadd_ t z (F "+0.99999934166683966009") in
    let t := t * scaledMin in
    let t := select (absY > absX)
               (bc (Float32.of_double Float32.Double.M_PI_2) - t) t in
    let t := select (x < zero)
               (bc (Float32.of_double Float32.Double.M_PI) - t) t in
    select (y < zero) (neg_ t) t
  else scalar_loop2 (s_atan2 L) d x.

Definition atan_ (d : Expr Size) : Expr Size :=
  if Approx then atan2_ d (F "1")
  else scalar_loop (s_atan L) d.

(** *** Exponential function, logarithm, power *)

(** [ldexp_]: multiply by an integer power of two. *)
Definition ldexp_ (d n : Expr Size) : Expr Size :=
  if Approx then d * sli 23 (iadd (to_int n) (bc 0x7f))
  else scalar_loop2 (s_ldexp L) d n.

(** [frexp_]: normalized fraction and power of two. *)
Definition frexp_ (d : Expr Size) : Expr Size * Expr Size :=
  if Approx then
    let exponentMask : IntArray Size := bc 0x7f800000 in
    let mantissaSignMask : IntArray Size := bc 0x807fffff in
    let biasMinus1 : IntArray Size := bc 0x7e in
    let x : IntArray Size := d in
    let exponent_bits := x &&& exponentMask in
    let is_normal := mand (fneq d zero) (ineq exponent_bits exponentMask) in
    let exponent_i := isub (sri 23 exponent_bits) biasMinus1 in
    let mantissa := (x &&& mantissaSignMask) ||| bc (Literal.to_float ".5f") in
    let result_e := of_int (exponent_i &&& reinterpret_array is_normal) in
    let result_m := select is_normal mantissa x in
    (result_m, result_e)
  else
    (fun_to_vec (λ i : fin Size, fst (s_frexp L (d !!! i))),
     fun_to_vec (λ i : fin Size, snd (s_frexp L (d !!! i)))).

(** The range reduction and the polynomial of [exp_]: from [x] to the pair
    [(z, n)] with [e^x = z * 2^n]. *)
Definition exp_poly (x : Expr Size) : Expr Size * Expr Size :=
  let n := floor (F "1.44269504088896341" * x + F "0.5") in
  let x := x - n * F "0.693359375" in
  let x := x - n * F "-2.12194440e-4" in
  let z := F "1.9875691500e-4" in
  let z := fmadd_ z x (F "1.3981999507e-3") in
  let z := fmadd_ z x (F "8.3334519073e-3") in
  let z := fmadd_ z x (F "4.1665795894e-2") in
  let z := fmadd_ z x (F "1.6666665459e-1") in
  let z := fmadd_ z x (F "5.0000001201e-1") in
  let z := z * x * x in
  let z := z + (x + F "1") in
  (z, n).

Definition exp_ (d : Expr Size) : Expr Size :=
  if Approx then
    let inf := bc Float32.infinity in
    let maxRange := F "+88.3762626647949" in
    let minRange := F "-88.3762626647949" in
    let x := d in
    let mask1 := x > maxRange in
    let mask2 := x < minRange in
    let '(z, n) := exp_poly x in
    select mask1 inf (select mask2 zero (ldexp_ z n))
  else scalar_loop (s_exp L) d.

Definition log_ (d : Expr Size) : Expr Size :=
  if Approx then
    let inf := bc Float32.infinity in
    let x := d in
    let validMask := x >= F "0" in
    let x := max x (bc 0x00800000) in
    let '(x, e) := frexp_ x in
    let ltInvSqrt2 := x < F "0.707106781186547524" in
    let e := e - (F "1.f" &&& reinterpret_array ltInvSqrt2) in
    let x := x + ((x &&& reinterpret_array ltInvSqrt2) - F "1") in
    let z := x * x in
    let y := F "7.0376836292e-2" in
    let y := fmadd_ y x (F "-1.1514610310e-1") in
    let y := fmadd_ y x (F "+1.1676998740e-1") in
    let y := fmadd_ y x (F "-1.2420140846e-1") in
    let y := fmadd_ y x (F "+1.4249322787e-1") in
    let y := fmadd_ y x (F "-1.6668057665e-1") in
    let y := fmadd_ y x (F "+2.0000714765e-1") in
    let y := fmadd_ y x (F "-2.4999993993e-1") in
    let y := fmadd_ y x (F "+3.3333331174e-1") in
    let y := y * (x * z) in
    let y := y + F "-2.12194440e-4" * e in
    let y := y + F "-0.5" * z in
    let z := x + y in
    let z := z + F "0.693359375" * e in
    select (feq d inf) inf (z ||| reinterpret_array (mnot validMask))
  else scalar_loop (s_log L) d.

Definition pow_ (d y : Expr Size) : Expr Size :=
  if Approx then exp_ (log_ d * y)
  else scalar_loop2 (s_pow L) d y.

(** *** Hyperbolic and inverse hyperbolic functions *)

Definition sinh_ (d : Expr Size) : Expr Size :=
  if Approx then
    let exp0 := exp_ d in
    let exp1 := F "1" / exp0 in
    select (abs d < F "1e-2") d ((exp0 - exp1) * F "0.5")
  else scalar_loop (s_sinh L) d.

Definition cosh_ (d : Expr Size) : Expr Size :=
  if Approx then
    let exp0 := exp_ d in
    let exp1 := F "1" / exp0 in
    (exp0 + exp1) * F ".5f"
  else scalar_loop (s_cosh L) d.

Definition sincosh_ (d : Expr Size) : Expr Size * Expr Size :=
  if Approx then
    let exp0 := exp_ d in
    let exp1 := rcp_ exp0 in
    let half := F ".5" in
    let s_out := select (abs d < F "1e-2") d (half * (exp0 - exp1)) in
    let c_out := half * (exp0 + exp1) in
    (s_out, c_out)
  else (scalar_loop (s_sinh L) d, scalar_loop (s_cosh L) d).

Definition tanh_ (d : Expr Size) : Expr Size :=
  if Approx then
    let exp0 := exp_ d in
    let exp1 := rcp_ exp0 in
    select (abs d < F "1e-2") d ((exp0 - exp1) / (exp0 + exp1))
  else scalar_loop (s_tanh L) d.

Definition csch_ (d : Expr Size) : Expr Size :=
  if Approx then
    let exp0 := exp_ d in
    let exp1 := rcp_ exp0 in
    rcp_ (exp0 - exp1) * F "2"
  else scalar_loop (s_csch L) d.

Definition sech_ (d : Expr Size) : Expr Size :=
  if Approx then
    let exp0 := exp_ d in
    let exp1 := rcp_ exp0 in
    rcp_ (exp0 + exp1) * F "2"
  else scalar_loop (s_sech L) d.

Definition coth_ (d : Expr Size) : Expr Size :=
  if Approx then
    let exp0 := exp_ d in
    let exp1 := rcp_ exp0 in
    (exp0 + exp1) / (exp0 - exp1)
  else scalar_loop (s_coth L) d.

Definition asinh_ (d : Expr Size) : Expr Size :=
  if Approx then
    let x := d in
    select (abs x < F "1e-2") x (log_ (x + sqrt (F "1" + x * x)))
  else scalar_loop (s_asinh L) d.

Definition acosh_ (d : Expr Size) : Expr Size :=
  if Approx then
    let one := F "1" in
    let x := d in
    log_ (x + sqrt (x - one) * sqrt (x + one))
  else scalar_loop (s_acosh L) d.

Definition atanh_ (d : Expr Size) : Expr Size :=
  if Approx then
    let one := F "1" in
    let x := d in
    select (abs x < F "1e-2") x (F ".5f" * log_ ((one + x) / (one - x)))
  else scalar_loop (s_atanh L) d.

(** *** Error function and its inverse *)

Definition erf_ (d : Expr Size) : Expr Size :=
  if Approx then
    let x_ := d in
    let x := abs x_ in
    let x2 := x_ * x_ in
    let t := F "1" / fmadd_ (F "0.3275911") x (F "1") in
    let y := F "1.061405429" in
    let y := fmadd_ y t (F "-1.453152027") in
    let y := fmadd_ y t (F "1.421413741") in
    let y := fmadd_ y t (F "-0.284496736") in
    let y := fmadd_ y t (F "0.254829592") in
    let ev := exp_ (neg_ x2) in
    let y := y * (t * ev) in
    select (x > F "0.08")
           ((F "1" - y) ||| sign_mask x_)
           (x_ * fmadd_ x2
                   (bc (Float32.of_double
                          (Float32.Double.div
                             (Float32.Double.neg Float32.Double.M_2_SQRTPI)
                             (Literal.to_double "3"))))
                   (bc (Float32.of_double Float32.Double.M_2_SQRTPI)))
  else scalar_loop (s_erf L) d.

(** [erfi_] has no [if (Approx)]: one body for both values of the flag. *)
Definition erfi_ (d : Expr Size) : Expr Size :=
  let x := d in
  let w := neg_ (log_ ((F "1" - x) * (F "1" + x))) in
  let w1 := w - F "2.5" in
  let w2 := sqrt w - F "3" in
  let p1 := F "2.81022636e-08" in
  let p2 := F "-0.000200214257" in
  let p1 := fmadd_ p1 w1 (F "3.43273939e-07") in
  let p2 := fmadd_ p2 w2 (F "0.000100950558") in
  let p1 := fmadd_ p1 w1 (F "-3.5233877e-06") in
  let p2 := fmadd_ p2 w2 (F "0.00134934322") in
  let p1 := fmadd_ p1 w1 (F "-4.39150654e-06") in
  let p2 := fmadd_ p2 w2 (F "-0.00367342844") in
  let p1 := fmadd_ p1 w1 (F "0.00021858087") in
  let p2 := fmadd_ p2 w2 (F "0.00573950773") in
  let p1 := fmadd_ p1 w1 (F "-0.00125372503") in
  let p2 := fmadd_ p2 w2 (F "-0.0076224613") in
  let p1 := fmadd_ p1 w1 (F "-0.00417768164") in
  let p2 := fmadd_ p2 w2 (F "0.00943887047") in
  let p1 := fmadd_ p1 w1 (F "0.246640727") in
  let p2 := fmadd_ p2 w2 (F "1.00167406") in
  let p1 := fmadd_ p1 w1 (F "1.50140941") in
  let p2 := fmadd_ p2 w2 (F "2.83297682") in
  select (w < F "5") p1 p2 * x.
End Math.

End StaticArrayBaseFloat.

(** ** Scalar libraries for concrete evaluation

    [unavailable] answers every call with the quiet NaN.  [one_lane] runs the
    approximate path of the header on a one-lane array, which makes
    [Array<float, 1, true>] itself a scalar library. *)

Module ScalarLib.
Import StaticArrayBaseFloat.

Definition quiet_nan : Z := 0x7FC00000.

Definition unavailable : ScalarMath :=
  {| s_sin := λ _, quiet_nan; s_cos := λ _, quiet_nan; s_tan := λ _, quiet_nan;
     s_asin := λ _, quiet_nan; s_acos := λ _, quiet_nan; s_atan := λ _, quiet_nan;
     s_atan2 := λ _ _, quiet_nan;
     s_exp := λ _, quiet_nan; s_log := λ _, quiet_nan; s_pow := λ _ _, quiet_nan;
     s_ldexp := λ _ _, quiet_nan; s_frexp := λ _, (quiet_nan, quiet_nan);
     s_sinh := λ _, quiet_nan; s_cosh := λ _, quiet_nan; s_tanh := λ _, quiet_nan;
     s_csch := λ _, quiet_nan; s_sech := λ _, quiet_nan; s_coth := λ _, quiet_nan;
     s_asinh := λ _, quiet_nan; s_acosh := λ _, quiet_nan; s_atanh := λ _, quiet_nan;
     s_erf := λ _, quiet_nan; s_erfi := λ _, quiet_nan |}.

Definition lane1 (f : vec Z 1 → vec Z 1) (x : Z) : Z := f [# x] !!! 0%fin.
Definition lane2 (f : vec Z 1 → vec Z 1 → vec Z 1) (x y : Z) : Z :=
  f [# x] [# y] !!! 0%fin.

Definition one_lane : ScalarMath :=
  let U := unavailable in
  {| s_sin := lane1 (sin_ true U); s_cos := lane1 (cos_ true U);
     s_tan := lane1 (tan_ true U);
     s_asin := lane1 (asin_ true U); s_acos := lane1 (acos_ true U);
     s_atan := lane1 (atan_ true U); s_atan2 := lane2 (atan2_ true U);
     s_exp := lane1 (exp_ true U); s_log := lane1 (log_ true U);
     s_pow := lane2 (pow_ true U);
     s_ldexp := lane2 (ldexp_ true U);
     s_frexp := λ x, ((frexp_ true U [# x]).1 !!! 0%fin, (frexp_ true U [# x]).2 !!! 0%fin);
     s_sinh := lane1 (sinh_ true U); s_cosh := lane1 (cosh_ true U);
     s_tanh := lane1 (tanh_ true U);
     s_csch := lane1 (csch_ true U); s_sech := lane1 (sech_ true U);
     s_coth := lane1 (coth_ true U);
     s_asinh := lane1 (asinh_ true U); s_acosh := lane1 (acosh_ true U);
     s_atanh := lane1 (atanh_ true U);
     s_erf := lane1 (erf_ true U); s_erfi := lane1 (erfi_ true U) |}.

(** [L] with its [erfi] replaced. *)
Definition with_erfi (f : Z → Z) (L : ScalarMath) : ScalarMath :=
  {| s_sin := s_sin L; s_cos := s_cos L; s_tan := s_tan L;
     s_asin := s_asin L; s_acos := s_acos L; s_atan := s_atan L;
     s_atan2 := s_atan2 L;
     s_exp := s_exp L; s_log := s_log L; s_pow := s_pow L;
     s_ldexp := s_ldexp L; s_frexp := s_frexp L;
     s_sinh := s_sinh L; s_cosh := s_cosh L; s_tanh := s_tanh L;
     s_csch := s_csch L; s_sech := s_sech L; s_coth := s_coth L;
     s_asinh := s_asinh L; s_acosh := s_acosh L; s_atanh := s_atanh L;
     s_erf := s_erf L; s_erfi := f |}.

End ScalarLib.

(** ** More of [StaticArrayBase] over integer lanes

    The by-vector and immediate rotations, [not_] and the integer branch of
    [neg_]. *)

Module IntegerOps.
Local Open Scope Z_scope.

(** The all-ones value of the type: [Scalar(-1)] reinterpreted. *)
Definition all_ones (ty : IntScalar) : Z :=
  if is_signed ty then -1 else 2 ^ IntLane.bits ty - 1.

(** A result brought back into the type (wrap-around on [bits ty] bits). *)
Definition wrap (ty : IntScalar) (z : Z) : Z :=
  IntLane.of_unsigned ty (z mod 2 ^ IntLane.bits ty).

Definition int32_t : IntScalar := {| is_signed := true; int_size := W32 |}.

(** Modelled from the spec: [+], [-], [*] and [/] of an integer lane, with
    wrap-around; the quotient is truncated toward zero and has no value for
    a divisor of zero or, in a signed type, for the most negative value
    divided by [-1]. *)
Definition add (ty : IntScalar) (x y : Z) : Z := wrap ty (x + y).
Definition sub (ty : IntScalar) (x y : Z) : Z := wrap ty (x - y).
Definition mul (ty : IntScalar) (x y : Z) : Z := wrap ty (x * y).
Definition div (ty : IntScalar) (x y : Z) : option Z :=
  if y =? 0 then None
  else if is_signed ty && (x =? - 2 ^ (IntLane.bits ty - 1)) && (y =? -1)
       then None
       else Some (Z.quot x y).

Section Ops.
Context {Size : nat}.

(** [not_]: [derived() ^ mask], every bit of [mask] set. *)
Definition not_ (ty : IntScalar) (d : vec Z Size) : vec Z Size :=
  vzip_with Z.lxor d (vreplicate Size (all_ones ty)).

(** [neg_], integer branch: [~derived() + Expr(Scalar(1))]. *)
Definition neg_ (ty : IntScalar) (d : vec Z Size) : vec Z Size :=
  vzip_with (λ x y, wrap ty (x + y)) (not_ ty d) (vreplicate Size 1).

(** The unsigned branch of [rolv_]: the count of every lane comes from the
    lane of [c]; [~d + Scalar(1)] is computed in the lane type. *)
Definition rolv_unsigned (ty : IntScalar) (d c : vec Z Size) : vec Z Size :=
  let mask := vreplicate Size (8 * IntLane.sizeof ty - 1) in
  vzip_with Z.lor
    (vzip_with (IntLane.shl ty) d (vzip_with Z.land c mask))
    (vzip_with (IntLane.shr ty) d
       (vzip_with Z.land
          (vzip_with (λ x y, wrap ty (x + y)) (not_ ty c) (vreplicate Size 1))
          mask)).

Definition rolv_ (ty : IntScalar) (d c : vec Z Size) : vec Z Size :=
  if negb (is_signed ty) then rolv_unsigned ty d c
  else
    vmap (IntLane.of_unsigned ty)
         (rolv_unsigned (IntLane.unsigned_of ty)
            (vmap (IntLane.to_unsigned ty) d) (vmap (IntLane.to_unsigned ty) c)).

(** The unsigned branch of [rorv_]. *)
Definition rorv_unsigned (ty : IntScalar) (d c : vec Z Size) : vec Z Size :=
  let mask := vreplicate Size (8 * IntLane.sizeof ty - 1) in
  vzip_with Z.lor
    (vzip_with (IntLane.shr ty) d (vzip_with Z.land c mask))
    (vzip_with (IntLane.shl ty) d
       (vzip_with Z.land
          (vzip_with (λ x y, wrap ty (x + y)) (not_ ty c) (vreplicate Size 1))
          mask)).

Definition rorv_ (ty : IntScalar) (d c : vec Z Size) : vec Z Size :=
  if negb (is_signed ty) then rorv_unsigned ty d c
  else
    vmap (IntLane.of_unsigned ty)
         (rorv_unsigned (IntLane.unsigned_of ty)
            (vmap (IntLane.to_unsigned ty) d) (vmap (IntLane.to_unsigned ty) c)).

(** [roli_<Imm>] and [rori_<Imm>]: the count is the template argument;
    [sli<n>] and [sri<n>] shift every lane by the constant [n]. *)
Definition roli_ (Imm : Z) (ty : IntScalar) (d : vec Z Size) : vec Z Size :=
  if negb (is_signed ty) then
    let mask := 8 * IntLane.sizeof ty - 1 in
    vzip_with Z.lor
      (vmap (λ x, IntLane.shl ty x (Z.land Imm mask)) d)
      (vmap (λ x, IntLane.shr ty x (Z.land (SizeT.add (SizeT.not Imm) 1) mask)) d)
  else
    let uty := IntLane.unsigned_of ty in
    let mask := 8 * IntLane.sizeof uty - 1 in
    let u := vmap (IntLane.to_unsigned ty) d in
    vmap (IntLane.of_unsigned ty)
      (vzip_with Z.lor
         (vmap (λ x, IntLane.shl uty x (Z.land Imm mask)) u)
         (vmap (λ x, IntLane.shr uty x (Z.land (SizeT.add (SizeT.not Imm) 1) mask)) u)).

Definition rori_ (Imm : Z) (ty : IntScalar) (d : vec Z Size) : vec Z Size :=
  if negb (is_signed ty) then
    let mask := 8 * IntLane.sizeof ty - 1 in
    vzip_with Z.lor
      (vmap (λ x, IntLane.shr ty x (Z.land Imm mask)) d)
      (vmap (λ x, IntLane.shl ty x (Z.land (SizeT.add (SizeT.not Imm) 1) mask)) d)
  else
    let uty := IntLane.unsigned_of ty in
    let mask := 8 * IntLane.sizeof uty - 1 in
    let u := vmap (IntLane.to_unsigned ty) d in
    vmap (IntLane.of_unsigned ty)
      (vzip_with Z.lor
         (vmap (λ x, IntLane.shr uty x (Z.land Imm mask)) u)
         (vmap (λ x, IntLane.shl uty x (Z.land (SizeT.add (SizeT.not Imm) 1) mask)) u)).
End Ops.

End IntegerOps.

(** ** [StaticArrayBase] over [float] lanes: element-wise tests *)

Module FloatTests.
Import FloatArray.

Section Tests.
Context {Size : nat}.

(** [std::numeric_limits<float>::max()] *)
Definition float_max : Z := 0x7F7FFFFF.

(** [isnan_]: [!eq(derived(), derived())] *)
Definition isnan_ (d : Expr Size) : Mask Size := mnot (feq d d).

(** [isinf_]: [eq(abs(derived()), infinity)] *)
Definition isinf_ (d : Expr Size) : Mask Size := feq (abs d) (bc Float32.infinity).

(** [isfinite_]: [abs(derived()) < max()] *)
Definition isfinite_ (d : Expr Size) : Mask Size := flt (abs d) (bc float_max).
End Tests.

End FloatTests.

(** ** [shuffle_]

    [shuffle_<Indices...>()] of [StaticArrayBase], with as many indices as
    the array has lanes.  An index is a [size_t] and [coeff] does not check
    it: outside the array the access is undefined behaviour. *)

Module Shuffle.
Section Shuffle.
Context {Value : Type} {Size : nat}.

(** [derived().coeff(k)] for a [size_t] that need not name a lane. *)
Definition coeff (d : vec Value Size) (k : nat) : option Value :=
  vec_to_list d !! k.

(** The lanes read so far, as long as every read was inside the array. *)
Fixpoint collect {n : nat} (v : vec (option Value) n) : option (vec Value n) :=
  match v with
  | vnil => Some vnil
  | vcons o v' =>
      match o, collect v' with
      | Some a, Some w => Some (vcons a w)
      | _, _ => None
      end
  end.

(** [out.coeff(idx++) = derived().coeff(Indices)] for every index in turn. *)
Definition shuffle_ (Indices : vec nat Size) (d : vec Value Size)
  : result (vec Value Size) :=
  match collect (vmap (coeff d) Indices) with
  | Some out => Return out
  | None => Undefined
  end.
End Shuffle.
End Shuffle.

(** ** Gather, scatter and transform

    Modelled from the spec: the single-element primitives [gather],
    [scatter] and [transform] are declared outside [array_base.h]; the spec
    places their access at [base + stride * index] and gates it by the mask
    lane.  The memory they work on is read and written one [Value] at a
    time by [load] and [store], at a byte address; [transform] stores what
    the update function makes of the value it loads.  The loops over the
    lanes are the ones of [array_base.h]. *)

Module MemoryOps.
Section Fallbacks.
Context {Mem Value : Type} {Size : nat}.
Variable load : Mem → Z → Value.
Variable store : Mem → Z → Value → Mem.
Variable Stride : Z.
Local Open Scope Z_scope.

Definition address (mem index : Z) : Z := mem + Stride * index.

Definition gather (M : Mem) (mem index : Z) : Value :=
  load M (address mem index).
Definition scatter (M : Mem) (mem : Z) (value : Value) (index : Z) : Mem :=
  store M (address mem index) value.
Definition scatter_masked (M : Mem) (mem : Z) (value : Value) (index : Z)
    (mask : bool) : Mem :=
  if mask then scatter M mem value index else M.
Definition transform (M : Mem) (mem index : Z) (func : Value → Value) : Mem :=
  store M (address mem index) (func (load M (address mem index))).
Definition transform_masked (M : Mem) (mem index : Z) (func : Value → Value)
    (mask : bool) : Mem :=
  if mask then transform M mem index func else M.

(** [for (i < Size) result.coeff(i) = gather<Value, Stride>(mem, index.coeff(i))] *)
Definition gather_ (M : Mem) (mem : Z) (index : vec Z Size) : vec Value Size :=
  vmap (gather M mem) index.

(** [for (i < Size) scatter<Stride>(mem, derived().coeff(i), index.coeff(i))]:
    the lanes are written in ascending order. *)
Definition scatter_ (d : vec Value Size) (M : Mem) (mem : Z)
    (index : vec Z Size) : Mem :=
  foldl (λ M i, scatter M mem (d !!! i) (index !!! i)) M (enum (fin Size)).

(** The masked [scatter_]. *)
Definition scatter_masked_ (d : vec Value Size) (M : Mem) (mem : Z)
    (index : vec Z Size) (mask : vec bool Size) : Mem :=
  foldl (λ M i, scatter_masked M mem (d !!! i) (index !!! i) (mask !!! i))
        M (enum (fin Size)).

(** [for (i < Size) transform<Value, Stride>(mem, index.coeff(i), func)] *)
Definition transform_ (M : Mem) (mem : Z) (index : vec Z Size)
    (func : Value → Value) : Mem :=
  foldl (λ M i, transform M mem (index !!! i) func) M (enum (fin Size)).

(** The masked [transform_]. *)
Definition transform_masked_ (M : Mem) (mem : Z) (index : vec Z Size)
    (func : Value → Value) (mask : vec bool Size) : Mem :=
  foldl (λ M i, transform_masked M mem (index !!! i) func (mask !!! i))
        M (enum (fin Size)).

(** What the operations need of the memory: a load returns the value last
    stored at its address, and a store leaves alone every value that lies
    [width] bytes or more away ([width] is [sizeof(Value)]). *)
Definition memory_laws (width : Z) : Prop :=
  (∀ M a v, load (store M a v) a = v)
  ∧ (∀ M a b v, width <= Z.abs (a - b) → load (store M a v) b = load M b).

(** No two lanes touch the same bytes. *)
Definition lanes_apart (width mem : Z) (index : vec Z Size) : Prop :=
  ∀ i j : fin Size,
    i ≠ j → width <= Z.abs (address mem (index !!! i) - address mem (index !!! j)).
End Fallbacks.
End MemoryOps.

(** A memory of bytes, the one [Array<uint8_t, Size>] gathers from and
    scatters to: every address holds one value. *)

Module ByteMemory.
Local Open Scope Z_scope.
Definition Mem : Type := Z → Z.
Definition load (M : Mem) (a : Z) : Z := M a.
Definition store (M : Mem) (a v : Z) : Mem := λ b, if b =? a then v else M b.
Definition zeros : Mem := λ _, 0.
End ByteMemory.

(** ** [detail::print]

    The stream is the text written so far.  [show] is [os << x] for a
    scalar, [coeff] is [a.derived().coeff(indices...)] and [size] the shape.
    The two overloads are told apart by the count of indices: [r] is
    [N - sizeof...(Indices)], the dimensions still to be opened. *)

Module Printing.
Section Print.
Context {Value : Type}.
Variable show : Value → string.
Variable coeff : list nat → Value.
Variable size : list nat.

Definition newline : string := String "010"%char EmptyString.

(** [for (i <= sizeof...(Indices)) os << " "] writes [n] spaces. *)
Fixpoint spaces (n : nat) : string :=
  match n with
  | O => EmptyString
  | S n' => String " "%char (spaces n')
  end.

Fixpoint print (r : nat) (os : string) (indices : list nat) : string :=
  match r with
  | O => (os +:+ show (coeff indices))%string
  | S k =>
      let os := (os +:+ "[")%string in
      let os :=
        foldl (λ os i,
                 let os := print k os (i :: indices) in
                 if i + 1 <? nth k size 0 then
                   if k =? 0 then (os +:+ ", ")%string
                   else (os +:+ "," +:+ newline
                            +:+ spaces (length indices + 1))%string
                 else os)
              os (seq 0 (nth k size 0)) in
      (os +:+ "]")%string
  end.

(** The text of a value, element by element: what stands between the
    brackets of dimension [k], joined by the separator of that dimension. *)
Definition separator (k depth : nat) : string :=
  if k =? 0 then ", "%string
  else ("," +:+ newline +:+ spaces (depth + 1))%string.

Fixpoint text (r : nat) (indices : list nat) : string :=
  match r with
  | O => show (coeff indices)
  | S k =>
      ("[" +:+ String.concat (separator k (length indices))
                 (map (λ i, text k (i :: indices)) (seq 0 (nth k size 0)))
           +:+ "]")%string
  end.
End Print.
End Printing.

(** * Properties *)

(** ** The embedding on concrete inputs *)

Example literal_patterns :
  Literal.to_float "1" = 0x3F800000%Z
  ∧ Literal.to_float "-2.0" = 0xC0000000%Z
  ∧ Literal.to_float "0.1" = 0x3DCCCCCD%Z
  ∧ Float32.of_double Float32.Double.M_PI = 0x40490FDB%Z.
Proof. vm_compute. done. Qed.

Example float_arithmetic :
  Float32.add (Literal.to_float "1") (Literal.to_float "2") = Literal.to_float "3"
  ∧ Float32.div (Literal.to_float "1") (Literal.to_float "3") = 0x3EAAAAAB%Z
  ∧ Float32.sqrt (Literal.to_float "2") = 0x3FB504F3%Z
  ∧ Float32.floor (Literal.to_float "-2.5") = Literal.to_float "-3"
  ∧ Float32.to_int32 (Literal.to_float "-2.5") = 0xFFFFFFFE%Z
  ∧ Float32.of_int32 0xFFFFFFFE = Literal.to_float "-2".
Proof. vm_compute. done. Qed.

Example sin_exp_log_on_lanes :
  StaticArrayBaseFloat.sin_ true ScalarLib.unavailable
      [# Literal.to_float "0"; Literal.to_float "1"] = [# 0; 0x3F576AA4]%Z
  ∧ StaticArrayBaseFloat.exp_ true ScalarLib.unavailable
      [# Literal.to_float "0"; Literal.to_float "1"] = [# 0x3F800000; 0x402DF854]%Z
  ∧ StaticArrayBaseFloat.log_ true ScalarLib.unavailable
      [# Literal.to_float "1"; Literal.to_float "2"] = [# 0; 0x3F317218]%Z.
Proof. vm_compute. done. Qed.

Example frexp_ldexp_on_lanes :
  StaticArrayBaseFloat.frexp_ true ScalarLib.unavailable [# Literal.to_float "8"]
    = ([# Literal.to_float "0.5"], [# Literal.to_float "4"])
  ∧ StaticArrayBaseFloat.ldexp_ true ScalarLib.unavailable
      [# Literal.to_float "1"] [# Literal.to_float "3"] = [# Literal.to_float "8"].
Proof. vm_compute. done. Qed.

Example rol_on_lanes :
  StaticArrayBase.rol_ {| is_signed := false; int_size := W8 |} [# 0x81; 0x40]%Z 1
    = [# 0x03; 0x80]%Z
  ∧ StaticArrayBase.rol_ {| is_signed := true; int_size := W8 |} [# -127; 64]%Z 1
    = [# 3; -128]%Z.
Proof. vm_compute. done. Qed.

Example size_decomposition_of_11 :
  StaticArrayBase.Size1 11 = 8 ∧ StaticArrayBase.Size2 11 = 3.
Proof. vm_compute. done. Qed.

Example masked_add_on_lanes :
  StaticArrayBase.MaskWrapper_apply
      (IntegerOps.add IntegerOps.int32_t) (IntegerOps.sub IntegerOps.int32_t)
      (IntegerOps.mul IntegerOps.int32_t) (IntegerOps.div IntegerOps.int32_t)
      Z.land Z.lor Z.lxor
      StaticArrayBase.op_add
      {| StaticArrayBase.d := [# 1; 2; 3]%Z;
         StaticArrayBase.m := [# true; false; true] |}
      [# 10; 10; 10]%Z
    = Return [# 11; 2; 13]%Z.
Proof. vm_compute. done. Qed.

Example masked_div_on_lanes :
  StaticArrayBase.MaskWrapper_apply
      (IntegerOps.add IntegerOps.int32_t) (IntegerOps.sub IntegerOps.int32_t)
      (IntegerOps.mul IntegerOps.int32_t) (IntegerOps.div IntegerOps.int32_t)
      Z.land Z.lor Z.lxor
      StaticArrayBase.op_div
      {| StaticArrayBase.d := [# 7; -7; 9]%Z;
         StaticArrayBase.m := [# true; true; false] |}
      [# 2; 2; 3]%Z
    = Return [# 3; -3; 9]%Z.
Proof. vm_compute. done. Qed.

(** ** Element access *)

Section ElementAccessFacts.
Context {Value : Type} {Size : nat}.
Implicit Types d : vec Value Size.

Lemma operator_index_in_range range_check d i (H : i < Size) :
  ArrayBase.operator_index range_check d i = Return (nat_to_fin H).
Proof.
  unfold ArrayBase.operator_index, ArrayBase.size.
  destruct (le_lt_dec Size i) as [Hle|Hlt]; [lia|].
  f_equal. apply (inj fin_to_nat). by rewrite !fin_to_nat_to_fin.
Qed.

Lemma operator_index_out_of_range d i :
  Size ≤ i →
  ArrayBase.operator_index true d i =
    Throw (out_of_range (ArrayBase.out_of_range_what i Size)).
Proof.
  intros Hle. unfold ArrayBase.operator_index, ArrayBase.size.
  destruct (le_lt_dec Size i); [done | lia].
Qed.

Lemma load_lookup d (r : ArrayBase.reference (Size:=Size)) :
  vec_to_list d !! fin_to_nat r = Some (ArrayBase.load d r).
Proof. by apply vlookup_lookup. Qed.
End ElementAccessFacts.

(** C3. With range checking enabled, [operator[](i)] on an array of [Size]
    lanes throws [std::out_of_range] for every [i >= Size], and the text of
    the exception spells out both the index [i] and the size; for every
    [i < Size] it returns, without error, a reference to lane [i]. *)
Theorem operator_index_checked {Value : Type} {Size : nat}
    (d : vec Value Size) (i : nat) :
  (Size ≤ i →
   ArrayBase.operator_index true d i =
     Throw (out_of_range
       ("ArrayBase: out of range access (tried to access index " +:+ pretty i
          +:+ " in an array of size " +:+ pretty Size +:+ ")"))) ∧
  (i < Size →
   ∃ r, ArrayBase.operator_index true d i = Return r
        ∧ fin_to_nat r = i
        ∧ vec_to_list d !! i = Some (ArrayBase.load d r)).
Proof.
  split.
  - apply operator_index_out_of_range.
  - intros Hlt. exists (nat_to_fin Hlt). split; [|split].
    + apply operator_index_in_range.
    + apply fin_to_nat_to_fin.
    + rewrite <- (fin_to_nat_to_fin _ _ Hlt) at 1. apply load_lookup.
Qed.

Lemma operator_index_checked_witness :
  ArrayBase.operator_index true [# 10; 20; 30]%Z 5 =
    Throw (out_of_range
      "ArrayBase: out of range access (tried to access index 5 in an array of size 3)")
  ∧ ∃ r, ArrayBase.operator_index true [# 10; 20; 30]%Z 1 = Return r
         ∧ fin_to_nat r = 1
         ∧ vec_to_list [# 10; 20; 30]%Z !! 1 = Some (ArrayBase.load [# 10; 20; 30]%Z r).
Proof.
  split.
  - apply (proj1 (operator_index_checked [# 10; 20; 30]%Z 5)). lia.
  - apply (proj2 (operator_index_checked [# 10; 20; 30]%Z 1)). lia.
Defined.

(** ** Size decomposition *)

Lemma lpow2_pos n : 0 < n → detail.lpow2 n = 2 ^ Nat.log2 n.
Proof. destruct n; [lia | done]. Qed.

(** C7. For every lane count [N > 0]: [Size1 N] is a power of two, it does
    not exceed [N], no power of two that fits in [N] is larger, and
    [Size1 N + Size2 N = N]. *)
Theorem size_decomposition (N : nat) :
  0 < N →
  (∃ k, StaticArrayBase.Size1 N = 2 ^ k)
  ∧ StaticArrayBase.Size1 N ≤ N
  ∧ (∀ k, 2 ^ k ≤ N → 2 ^ k ≤ StaticArrayBase.Size1 N)
  ∧ StaticArrayBase.Size1 N + StaticArrayBase.Size2 N = N.
Proof.
  intros HN. unfold StaticArrayBase.Size2, StaticArrayBase.Size1.
  rewrite lpow2_pos by done.
  destruct (Nat.log2_spec N HN) as [Hlo Hhi].
  repeat split.
  - by exists (Nat.log2 N).
  - done.
  - intros k Hk. apply Nat.pow_le_mono_r; [lia|].
    assert (2 ^ k < 2 ^ S (Nat.log2 N)) as Hlt by lia.
    apply Nat.pow_lt_mono_r_iff in Hlt; lia.
  - lia.
Qed.

Lemma size_decomposition_witness :
  (∃ k, StaticArrayBase.Size1 11 = 2 ^ k)
  ∧ StaticArrayBase.Size1 11 ≤ 11
  ∧ (∀ k, 2 ^ k ≤ 11 → 2 ^ k ≤ StaticArrayBase.Size1 11)
  ∧ StaticArrayBase.Size1 11 + StaticArrayBase.Size2 11 = 11.
Proof. apply (size_decomposition 11). lia. Defined.

(** ** Fused multiply-add/subtract *)

Lemma mod2_even n : (n mod 2 =? 0) = Nat.even n.
Proof.
  destruct (Nat.even n) eqn:He.
  - apply Nat.even_spec in He as [k ->].
    apply Nat.eqb_eq. rewrite Nat.mul_comm. apply Nat.Div0.mod_mul.
  - apply Nat.eqb_neq. intros Hm.
    assert (Nat.even n = true) as Ht; [|congruence].
    apply Nat.even_spec. exists (n / 2).
    rewrite (Nat.div_mod_eq n 2) at 1. lia.
Qed.

(** C8. The combined variants alternate by lane index: [fmaddsub_] yields
    [a[i]*b[i] - c[i]] at even [i] and [a[i]*b[i] + c[i]] at odd [i];
    [fmsubadd_] yields the sum at even [i] and the difference at odd [i]. *)
Theorem fmaddsub_fmsubadd_alternate {Value : Type} {Size : nat}
    (add sub mul : Value → Value → Value)
    (a b c : vec Value Size) (i : fin Size) :
  (Nat.Even (fin_to_nat i) →
     StaticArrayBase.fmaddsub_ add sub mul a b c !!! i
       = sub (mul (a !!! i) (b !!! i)) (c !!! i)
     ∧ StaticArrayBase.fmsubadd_ add sub mul a b c !!! i
       = add (mul (a !!! i) (b !!! i)) (c !!! i))
  ∧ (Nat.Odd (fin_to_nat i) →
     StaticArrayBase.fmaddsub_ add sub mul a b c !!! i
       = add (mul (a !!! i) (b !!! i)) (c !!! i)
     ∧ StaticArrayBase.fmsubadd_ add sub mul a b c !!! i
       = sub (mul (a !!! i) (b !!! i)) (c !!! i)).
Proof.
  unfold StaticArrayBase.fmaddsub_, StaticArrayBase.fmsubadd_.
  rewrite !lookup_fun_to_vec, mod2_even. split.
  - intros He. apply Nat.even_spec in He. by rewrite He.
  - intros Ho. apply Nat.odd_spec in Ho.
    rewrite <- Nat.negb_odd, Ho. done.
Qed.

Lemma fmaddsub_fmsubadd_alternate_witness :
  (StaticArrayBase.fmaddsub_ Z.add Z.sub Z.mul
     [# 2; 3]%Z [# 5; 7]%Z [# 1; 1]%Z !!! 0%fin = 9%Z
   ∧ StaticArrayBase.fmsubadd_ Z.add Z.sub Z.mul
     [# 2; 3]%Z [# 5; 7]%Z [# 1; 1]%Z !!! 0%fin = 11%Z)
  ∧ (StaticArrayBase.fmaddsub_ Z.add Z.sub Z.mul
     [# 2; 3]%Z [# 5; 7]%Z [# 1; 1]%Z !!! 1%fin = 22%Z
   ∧ StaticArrayBase.fmsubadd_ Z.add Z.sub Z.mul
     [# 2; 3]%Z [# 5; 7]%Z [# 1; 1]%Z !!! 1%fin = 20%Z).
Proof.
  split.
  - apply (proj1 (fmaddsub_fmsubadd_alternate Z.add Z.sub Z.mul
                    [# 2; 3]%Z [# 5; 7]%Z [# 1; 1]%Z 0%fin)).
    exists 0. reflexivity.
  - apply (proj2 (fmaddsub_fmsubadd_alternate Z.add Z.sub Z.mul
                    [# 2; 3]%Z [# 5; 7]%Z [# 1; 1]%Z 1%fin)).
    exists 0. reflexivity.
Defined.

(** ** [resize_] *)

(** C9. [resize_(s)] on an array of [Size] lanes throws [std::length_error]
    exactly when [s <> Size], returns normally when [s = Size], and leaves
    the lanes as they were in both cases. *)
Theorem resize_fixed_size {Value : Type} {Size : nat}
    (d : vec Value Size) (s : nat) :
  ((∃ what, (StaticArrayBase.resize_ d s).1 = Throw (length_error what)) ↔ s ≠ Size)
  ∧ (s = Size → (StaticArrayBase.resize_ d s).1 = Return tt)
  ∧ (StaticArrayBase.resize_ d s).2 = d.
Proof.
  unfold StaticArrayBase.resize_.
  destruct (Nat.eqb_spec s Size) as [->|Hne]; simpl.
  - split; [|done]. split; [intros [w Hw]; discriminate | done].
  - split; [|split; [done | done]]. split; [done | eauto].
Qed.

Lemma resize_fixed_size_witness :
  (StaticArrayBase.resize_ [# 1; 2; 3]%Z 3).1 = Return tt
  ∧ (∃ what, (StaticArrayBase.resize_ [# 1; 2; 3]%Z 5).1 = Throw (length_error what))
  ∧ (StaticArrayBase.resize_ [# 1; 2; 3]%Z 5).2 = [# 1; 2; 3]%Z.
Proof.
  split; [|split].
  - apply (resize_fixed_size [# 1; 2; 3]%Z 3). reflexivity.
  - apply (resize_fixed_size [# 1; 2; 3]%Z 5). lia.
  - apply (resize_fixed_size [# 1; 2; 3]%Z 5).
Defined.

(** ** [select] and the masked operators *)

Lemma lookup_select {A : Type} {Size : nat}
    (m : vec bool Size) (a b : vec A Size) (i : fin Size) :
  select m a b !!! i = if (m !!! i : bool) then a !!! i else b !!! i.
Proof. unfold select. by rewrite lookup_fun_to_vec. Qed.

Lemma select_all_false {A : Type} {Size : nat} (a b : vec A Size) :
  select (vreplicate Size false) a b = b.
Proof. apply vec_eq; intros i. by rewrite lookup_select, vlookup_replicate. Qed.

Lemma select_all_true {A : Type} {Size : nat} (a b : vec A Size) :
  select (vreplicate Size true) a b = a.
Proof. apply vec_eq; intros i. by rewrite lookup_select, vlookup_replicate. Qed.

(** *** The quotient of two arrays and the masked operators *)

Section QuotientFacts.
Context {Value : Type}.

Lemma all_defined_Some {n} (v : vec (option Value) n) (w : vec Value n) :
  StaticArrayBase.all_defined v = Some w ↔ ∀ j, v !!! j = Some (w !!! j).
Proof.
  induction v as [|o n v IH]; inv_vec w.
  - split; [intros _ j; inv_fin j | done].
  - intros a w. simpl. split.
    + intros H j. destruct o as [b|]; [|done].
      destruct (StaticArrayBase.all_defined v) as [w'|] eqn:E; [|done].
      injection H as -> Hw. apply Eqdep_dec.inj_pair2_eq_dec in Hw;
        [|apply Nat.eq_dec]. subst w'.
      inv_fin j; [done|]. intros j. simpl. by apply IH.
    + intros H. pose proof (H 0%fin) as H0. simpl in H0. rewrite H0.
      assert (StaticArrayBase.all_defined v = Some w) as ->; [|done].
      apply IH. intros j. apply (H (FS j)).
Qed.

Lemma all_defined_None {n} (v : vec (option Value) n) j :
  v !!! j = None → StaticArrayBase.all_defined v = None.
Proof.
  intros H. destruct (StaticArrayBase.all_defined v) as [w|] eqn:E; [|done].
  rewrite all_defined_Some in E. by rewrite E in H.
Qed.

Lemma all_defined_is_Some {n} (v : vec (option Value) n) :
  (∀ j, is_Some (v !!! j)) → is_Some (StaticArrayBase.all_defined v).
Proof.
  induction v as [|o n v IH]; [by eexists|].
  intros H. destruct (H 0%fin) as [a Ha]. simpl in Ha. subst o.
  destruct IH as [w Hw]; [intros j; apply (H (FS j))|].
  simpl. rewrite Hw. by eexists.
Qed.

Context {Size : nat}.
Variables (add sub mul : Value → Value → Value).
Variable div : Value → Value → option Value.
Variables (and or xor : Value → Value → Value).
Implicit Types (v e r : vec Value Size) (m : vec bool Size) (i : fin Size).

Local Abbreviation apply :=
  (StaticArrayBase.MaskWrapper_apply (Size:=Size) add sub mul div and or xor).
Local Abbreviation unmasked :=
  (StaticArrayBase.unmasked (Size:=Size) add sub mul div and or xor).

Lemma quotient_Return v e r :
  StaticArrayBase.quotient div v e = Return r
  ↔ ∀ i, div (v !!! i) (e !!! i) = Some (r !!! i).
Proof.
  unfold StaticArrayBase.quotient. split.
  - destruct (StaticArrayBase.all_defined _) as [q|] eqn:E; [|done].
    intros [= ->]. rewrite all_defined_Some in E. intros i.
    by rewrite <-E, vlookup_zip_with.
  - intros H.
    assert (StaticArrayBase.all_defined (vzip_with div v e) = Some r) as ->;
      [|done].
    apply all_defined_Some. intros i. by rewrite vlookup_zip_with.
Qed.

Lemma quotient_defined v e :
  (∀ i, is_Some (div (v !!! i) (e !!! i))) →
  ∃ r, StaticArrayBase.quotient div v e = Return r.
Proof.
  intros H. unfold StaticArrayBase.quotient.
  destruct (all_defined_is_Some (vzip_with div v e)) as [q ->]; [|by eexists].
  intros i. by rewrite vlookup_zip_with.
Qed.

Lemma quotient_undefined v e i :
  div (v !!! i) (e !!! i) = None → StaticArrayBase.quotient div v e = Undefined.
Proof.
  intros H. unfold StaticArrayBase.quotient.
  rewrite (all_defined_None _ i); [done|]. by rewrite vlookup_zip_with.
Qed.

(** A masked operator is the unmasked one followed by the blend, when the
    unmasked one has a result, and has none otherwise. *)
Lemma masked_apply_unmasked op v e m :
  apply op {| StaticArrayBase.d := v; StaticArrayBase.m := m |} e
    = match unmasked op v e with
      | Return x => Return (select m x v)
      | Throw ex => Throw ex
      | Undefined => Undefined
      end.
Proof. by destruct op. Qed.

Lemma unmasked_defined op v e :
  (op = StaticArrayBase.op_div → ∀ i, is_Some (div (v !!! i) (e !!! i))) →
  ∃ r, unmasked op v e = Return r.
Proof.
  intros H. destruct op; simpl; try by eexists.
  apply quotient_defined. by apply H.
Qed.

Lemma unmasked_undefined v e i :
  div (v !!! i) (e !!! i) = None →
  unmasked StaticArrayBase.op_div v e = Undefined.
Proof. apply quotient_undefined. Qed.

(** The lane of the result depends on the same lane of the target only. *)
Lemma unmasked_lane op v v' e r r' i :
  unmasked op v e = Return r → unmasked op v' e = Return r' →
  v !!! i = v' !!! i → r !!! i = r' !!! i.
Proof.
  intros Hr Hr' Hv. destruct op; simpl in Hr, Hr';
    try (injection Hr as <-; injection Hr' as <-;
         rewrite ?vlookup_zip_with, ?Hv; done).
  rewrite quotient_Return in Hr, Hr'.
  specialize (Hr i). specialize (Hr' i). rewrite Hv, Hr' in Hr.
  by injection Hr.
Qed.
End QuotientFacts.

(** The claim as it is written fails for the division of integer lanes: the
    quotient is computed on every lane before [select] reads the mask, so a
    zero divisor in a lane that is masked off leaves the call without a
    result, where the claim has the target unchanged. *)
Lemma masked_div_zero_divisor_counterexample :
  StaticArrayBase.MaskWrapper_apply
      (IntegerOps.add IntegerOps.int32_t) (IntegerOps.sub IntegerOps.int32_t)
      (IntegerOps.mul IntegerOps.int32_t) (IntegerOps.div IntegerOps.int32_t)
      Z.land Z.lor Z.lxor
      StaticArrayBase.op_div
      {| StaticArrayBase.d := [# 1; 2; 3]%Z;
         StaticArrayBase.m := vreplicate 3 false |}
      [# 1; 0; 1]%Z
    ≠ Return [# 1; 2; 3]%Z.
Proof. vm_compute. discriminate. Qed.

(** C5, amended.  For each of the eight compound operators of the
    masked-assign proxy, every target [v] and every operand [e]: under an
    all-true mask the call gives what the corresponding unmasked operator
    gives for [v] and [e], result or failure alike; under an all-false mask
    the target is unchanged provided the operator has a value in every lane
    (always, but for [div], which needs every quotient to be defined); and
    a masked [div] with an undefined quotient in some lane has no result,
    whatever the mask says about that lane. *)
Theorem masked_operator_identity {Value : Type} {Size : nat}
    (add sub mul : Value → Value → Value) (div : Value → Value → option Value)
    (and or xor : Value → Value → Value)
    (op : StaticArrayBase.compound_operator) (v e : vec Value Size) :
  let apply := StaticArrayBase.MaskWrapper_apply add sub mul div and or xor in
  ((op = StaticArrayBase.op_div → ∀ i, is_Some (div (v !!! i) (e !!! i))) →
   apply op {| StaticArrayBase.d := v;
               StaticArrayBase.m := vreplicate Size false |} e
     = Return v)
  ∧ (op = StaticArrayBase.op_div → (∃ i, div (v !!! i) (e !!! i) = None) →
     apply op {| StaticArrayBase.d := v;
                 StaticArrayBase.m := vreplicate Size false |} e
       = Undefined)
  ∧ apply op {| StaticArrayBase.d := v;
                StaticArrayBase.m := vreplicate Size true |} e
    = StaticArrayBase.unmasked add sub mul div and or xor op v e.
Proof.
  intros apply. subst apply. rewrite !masked_apply_unmasked. split; [|split].
  - intros H.
    destruct (unmasked_defined add sub mul div and or xor op v e H) as [r ->].
    by rewrite select_all_false.
  - intros -> [i Hi].
    by rewrite (unmasked_undefined add sub mul div and or xor v e i Hi).
  - destruct (StaticArrayBase.unmasked _ _ _ _ _ _ _ op v e); [|done..].
    by rewrite select_all_true.
Qed.

Lemma masked_operator_identity_witness :
  StaticArrayBase.MaskWrapper_apply
      (IntegerOps.add IntegerOps.int32_t) (IntegerOps.sub IntegerOps.int32_t)
      (IntegerOps.mul IntegerOps.int32_t) (IntegerOps.div IntegerOps.int32_t)
      Z.land Z.lor Z.lxor
      StaticArrayBase.op_div
      {| StaticArrayBase.d := [# 7; -7; 9]%Z;
         StaticArrayBase.m := vreplicate 3 false |}
      [# 2; 2; 3]%Z
    = Return [# 7; -7; 9]%Z
  ∧ StaticArrayBase.MaskWrapper_apply
      (IntegerOps.add IntegerOps.int32_t) (IntegerOps.sub IntegerOps.int32_t)
      (IntegerOps.mul IntegerOps.int32_t) (IntegerOps.div IntegerOps.int32_t)
      Z.land Z.lor Z.lxor
      StaticArrayBase.op_div
      {| StaticArrayBase.d := [# 7; -7; 9]%Z;
         StaticArrayBase.m := vreplicate 3 false |}
      [# 2; 0; 3]%Z
    = Undefined.
Proof.
  split.
  - apply (proj1 (masked_operator_identity
                    (IntegerOps.add IntegerOps.int32_t)
                    (IntegerOps.sub IntegerOps.int32_t)
                    (IntegerOps.mul IntegerOps.int32_t)
                    (IntegerOps.div IntegerOps.int32_t)
                    Z.land Z.lor Z.lxor StaticArrayBase.op_div
                    [# 7; -7; 9]%Z [# 2; 2; 3]%Z)).
    intros _ i. inv_fin i; [vm_compute; by eexists|]. intros i.
    inv_fin i; [vm_compute; by eexists|]. intros i.
    inv_fin i; [vm_compute; by eexists|]. intros i. inv_fin i.
  - apply (proj1 (proj2 (masked_operator_identity
                    (IntegerOps.add IntegerOps.int32_t)
                    (IntegerOps.sub IntegerOps.int32_t)
                    (IntegerOps.mul IntegerOps.int32_t)
                    (IntegerOps.div IntegerOps.int32_t)
                    Z.land Z.lor Z.lxor StaticArrayBase.op_div
                    [# 7; -7; 9]%Z [# 2; 0; 3]%Z))).
    + reflexivity.
    + exists 1%fin. reflexivity.
Defined.

(** ** Rotation *)

Section BitFacts.
Local Open Scope Z_scope.

Lemma testbit_above (W x n : Z) :
  0 <= x < 2 ^ W → 0 <= W <= n → Z.testbit x n = false.
Proof.
  intros Hx Hn. rewrite <- (Z.mod_small x (2 ^ W)) by done.
  apply Z.mod_pow2_bits_high. lia.
Qed.

Lemma lor_range (W a b : Z) :
  0 <= W → 0 <= a < 2 ^ W → 0 <= b < 2 ^ W → 0 <= Z.lor a b < 2 ^ W.
Proof.
  intros HW Ha Hb.
  assert (0 <= Z.lor a b) as Hnn by (apply Z.lor_nonneg; lia).
  split; [done|].
  destruct (Z.eq_dec (Z.lor a b) 0) as [Hz|Hne]; [lia|].
  assert (0 < W) as HW'.
  { destruct (Z.eq_dec W 0) as [->|]; [|lia].
    change (2 ^ 0) with 1 in *.
    assert (a = 0) as -> by lia. assert (b = 0) as -> by lia. done. }
  apply Z.log2_lt_pow2; [lia|].
  rewrite Z.log2_lor by lia.
  apply Z.max_lub_lt.
  - destruct (Z.eq_dec a 0) as [->|]; [simpl; lia|].
    apply Z.log2_lt_pow2; lia.
  - destruct (Z.eq_dec b 0) as [->|]; [simpl; lia|].
    apply Z.log2_lt_pow2; lia.
Qed.

Lemma shiftr_range (W x s : Z) :
  0 <= s → 0 <= x < 2 ^ W → 0 <= Z.shiftr x s < 2 ^ W.
Proof.
  intros Hs Hx. rewrite Z.shiftr_div_pow2 by done.
  assert (0 < 2 ^ s) by (apply Z.pow_pos_nonneg; lia).
  split; [apply Z.div_pos; lia|].
  apply Z.le_lt_trans with x; [|lia].
  apply Z.div_le_upper_bound; nia.
Qed.

Lemma rot_range W x a b :
  0 < W → 0 <= b → 0 <= x < 2 ^ W → 0 <= IntLane.rot W x a b < 2 ^ W.
Proof.
  intros HW Hb Hx. apply lor_range; [lia | | by apply shiftr_range].
  apply Z.mod_pos_bound, Z.pow_pos_nonneg; lia.
Qed.

Lemma rot_bit W x a b n :
  0 < W → 0 <= a → 0 <= b → 0 <= n →
  Z.testbit (IntLane.rot W x a b) n =
    (if n <? W then Z.testbit x (n - a) else false) || Z.testbit x (n + b).
Proof.
  intros HW Ha Hb Hn. unfold IntLane.rot.
  rewrite Z.lor_spec, Z.shiftr_spec by done. f_equal.
  destruct (Z.ltb_spec n W).
  - rewrite Z.mod_pow2_bits_low by lia. by rewrite Z.shiftl_spec.
  - apply Z.mod_pow2_bits_high. lia.
Qed.

Lemma rot_zero W x : 0 <= x < 2 ^ W → IntLane.rot W x 0 0 = x.
Proof.
  intros Hx. unfold IntLane.rot.
  rewrite Z.shiftl_0_r, Z.shiftr_0_r, Z.mod_small by done.
  apply Z.lor_diag.
Qed.

Lemma rot_rot W x a b :
  0 < a → 0 < b → a + b = W → 0 <= x < 2 ^ W →
  IntLane.rot W (IntLane.rot W x a b) b a = x.
Proof.
  intros Ha Hb HW Hx. apply Z.bits_inj'. intros n Hn.
  rewrite rot_bit by lia.
  destruct (Z.ltb_spec n W) as [HnW|HnW].
  - destruct (Z.lt_ge_cases n b) as [Hnb|Hnb].
    + rewrite (Z.testbit_neg_r _ (n - b)) by lia. simpl.
      rewrite rot_bit by lia.
      destruct (Z.ltb_spec (n + a) W); [|lia].
      replace (n + a - a) with n by lia.
      rewrite (testbit_above W x (n + a + b)) by lia.
      apply orb_false_r.
    + rewrite !rot_bit by lia.
      destruct (Z.ltb_spec (n - b) W); [|lia].
      destruct (Z.ltb_spec (n + a) W); [lia|].
      rewrite (Z.testbit_neg_r _ (n - b - a)) by lia.
      rewrite (testbit_above W x (n + a + b)) by lia.
      replace (n - b + b) with n by lia.
      simpl. apply orb_false_r.
  - rewrite rot_bit by lia.
    destruct (Z.ltb_spec (n + a) W); [lia|].
    rewrite (testbit_above W x (n + a + b)), (testbit_above W x n) by lia.
    done.
Qed.

(** The two shift amounts of [rol_(k)]. *)
Lemma rol_amounts ty k :
  0 <= k <= IntLane.bits ty →
  Z.land k (8 * IntLane.sizeof ty - 1) = k mod IntLane.bits ty
  ∧ Z.land (SizeT.add (SizeT.not k) 1) (8 * IntLane.sizeof ty - 1)
    = (- k) mod IntLane.bits ty.
Proof.
  intros Hk. unfold SizeT.add, SizeT.not, SizeT.wrap, Z.lnot, Z.pred.
  rewrite Zplus_mod_idemp_l.
  replace (- k + -1 + 1) with (- k) by lia.
  unfold IntLane.bits, IntLane.sizeof in *.
  destruct ty as [sg []]; simpl in *.
  - change (8 * 1 - 1) with (Z.ones 3). rewrite !Z.land_ones by lia.
    change (2 ^ 3) with 8. change (8 * 1) with 8 in *.
    change (2 ^ 64) with 18446744073709551616.
    split; [done|]. Z.div_mod_to_equations. lia.
  - change (8 * 2 - 1) with (Z.ones 4). rewrite !Z.land_ones by lia.
    change (2 ^ 4) with 16. change (8 * 2) with 16 in *.
    change (2 ^ 64) with 18446744073709551616.
    split; [done|]. Z.div_mod_to_equations. lia.
  - change (8 * 4 - 1) with (Z.ones 5). rewrite !Z.land_ones by lia.
    change (2 ^ 5) with 32. change (8 * 4) with 32 in *.
    change (2 ^ 64) with 18446744073709551616.
    split; [done|]. Z.div_mod_to_equations. lia.
  - change (8 * 8 - 1) with (Z.ones 6). rewrite !Z.land_ones by lia.
    change (2 ^ 6) with 64. change (8 * 8) with 64 in *.
    change (2 ^ 64) with 18446744073709551616.
    split; [done|]. Z.div_mod_to_equations. lia.
Qed.

Lemma bits_pos ty : 0 < IntLane.bits ty.
Proof. unfold IntLane.bits, IntLane.sizeof. destruct (int_size ty); lia. Qed.
End BitFacts.

Lemma lookup_rol_unsigned {Size : nat} ty (d : vec Z Size) (k : Z) (i : fin Size) :
  StaticArrayBase.rol_unsigned ty d k !!! i =
    IntLane.rot (IntLane.bits ty) (d !!! i)
        (Z.land k (8 * IntLane.sizeof ty - 1))
        (Z.land (SizeT.add (SizeT.not k) 1) (8 * IntLane.sizeof ty - 1)).
Proof.
  unfold StaticArrayBase.rol_unsigned.
  by rewrite vlookup_zip_with, !vlookup_map.
Qed.

(** C6. For unsigned lanes of bit width [N] and every count [k] in
    [[0, N)], rotating left by [k] and then by [N - k] gives the array back. *)
Theorem rol_round_trip {Size : nat} (w : int_width) (v : vec Z Size) (k : Z) :
  let ty := {| is_signed := false; int_size := w |} in
  (∀ i, IntLane.in_range ty (v !!! i)) →
  (0 ≤ k < IntLane.bits ty)%Z →
  StaticArrayBase.rol_ ty (StaticArrayBase.rol_ ty v k) (IntLane.bits ty - k) = v.
Proof.
  intros ty Hv Hk. unfold StaticArrayBase.rol_. simpl.
  apply vec_eq; intros i. rewrite !lookup_rol_unsigned.
  specialize (Hv i). unfold IntLane.in_range in Hv. simpl in Hv.
  pose proof (bits_pos ty) as HW.
  destruct (rol_amounts ty k) as [-> ->]; [lia|].
  destruct (rol_amounts ty (IntLane.bits ty - k)) as [-> ->]; [lia|].
  destruct (Z.eq_dec k 0%Z) as [->|Hk0].
  - rewrite Z.sub_0_r. change (- 0)%Z with 0%Z.
    rewrite Z.mod_0_l, Z.mod_same by lia.
    replace (- IntLane.bits ty)%Z with (-1 * IntLane.bits ty)%Z by lia.
    rewrite Z.mod_mul by lia.
    rewrite (rot_zero _ (v !!! i)) by done. by apply rot_zero.
  - rewrite (Z.mod_small k) by lia.
    rewrite (Z.mod_small (IntLane.bits ty - k)) by lia.
    replace ((- k) mod IntLane.bits ty)%Z with (IntLane.bits ty - k)%Z.
    2:{ apply Z.mod_unique with (-1)%Z; lia. }
    replace ((- (IntLane.bits ty - k)) mod IntLane.bits ty)%Z with k.
    2:{ apply Z.mod_unique with (-1)%Z; lia. }
    apply rot_rot; lia.
Qed.

Lemma rol_round_trip_witness :
  StaticArrayBase.rol_ {| is_signed := false; int_size := W8 |}
    (StaticArrayBase.rol_ {| is_signed := false; int_size := W8 |}
       [# 0x81; 0xFF; 0x12]%Z 3) (8 - 3)
  = [# 0x81; 0xFF; 0x12]%Z.
Proof.
  apply (rol_round_trip W8 [# 0x81; 0xFF; 0x12]%Z 3).
  - intros i.
    inv_fin i; [vm_compute; split; [discriminate | reflexivity]|]. intros i.
    inv_fin i; [vm_compute; split; [discriminate | reflexivity]|]. intros i.
    inv_fin i; [vm_compute; split; [discriminate | reflexivity]|]. intros i.
    inv_fin i.
  - vm_compute. split; [discriminate | reflexivity].
Defined.

(** ** Lanes of the [float] primitives *)

Section LaneFacts.
Import FloatArray.
Context {Size : nat}.
Implicit Types (a b : vec Z Size) (m : vec bool Size) (i : fin Size).

Lemma lookup_bc c i : bc (Size:=Size) c !!! i = c.
Proof. apply vlookup_replicate. Qed.

Lemma lookup_F c i : StaticArrayBaseFloat.F (Size:=Size) c !!! i = Literal.to_float c.
Proof. apply lookup_bc. Qed.

Lemma lookup_reinterpret m i : reinterpret_array m !!! i = mask_bits (m !!! i).
Proof. apply vlookup_map. Qed.

Lemma lookup_mnot m i : mnot m !!! i = negb (m !!! i).
Proof. apply vlookup_map. Qed.

Lemma lookup_bor a b i : bor a b !!! i = Z.lor (a !!! i) (b !!! i).
Proof. apply vlookup_zip_with. Qed.

Lemma lookup_fadd a b i : fadd a b !!! i = Float32.add (a !!! i) (b !!! i).
Proof. apply vlookup_zip_with. Qed.

Lemma lookup_fsub a b i : fsub a b !!! i = Float32.sub (a !!! i) (b !!! i).
Proof. apply vlookup_zip_with. Qed.

Lemma lookup_fmul a b i : fmul a b !!! i = Float32.mul (a !!! i) (b !!! i).
Proof. apply vlookup_zip_with. Qed.

Lemma lookup_flt a b i : flt a b !!! i = Float32.lt (a !!! i) (b !!! i).
Proof. apply vlookup_zip_with. Qed.

Lemma lookup_fgt a b i : fgt a b !!! i = Float32.gt (a !!! i) (b !!! i).
Proof. apply vlookup_zip_with. Qed.

Lemma lookup_fge a b i : fge a b !!! i = Float32.ge (a !!! i) (b !!! i).
Proof. apply vlookup_zip_with. Qed.

Lemma lookup_feq a b i : feq a b !!! i = Float32.eq (a !!! i) (b !!! i).
Proof. apply vlookup_zip_with. Qed.

Lemma lookup_abs a i : abs a !!! i = Float32.abs (a !!! i).
Proof. apply vlookup_map. Qed.
End LaneFacts.

(** ** Bit patterns of the [float] primitives *)

Section PatternFacts.
Local Open Scope Z_scope.

Lemma pack_wf s e m : Lane32.wf (Float32.pack s e m).
Proof.
  unfold Lane32.wf, Lane32.modulus, Float32.pack.
  assert (0 <= Z.land e 255 < 2 ^ 8) as He.
  { change 255 with (Z.ones 8). rewrite Z.land_ones by lia.
    apply Z.mod_pos_bound. lia. }
  assert (0 <= Z.land m 8388607 < 2 ^ 23) as Hm.
  { change 8388607 with (Z.ones 23). rewrite Z.land_ones by lia.
    apply Z.mod_pos_bound. lia. }
  apply lor_range; [lia | |].
  - unfold Float32.sign_bit. destruct s; lia.
  - apply lor_range; [lia | |].
    + rewrite Z.shiftl_mul_pow2 by lia. lia.
    + lia.
Qed.

Lemma of_spec_wf f : Lane32.wf (Float32.of_spec f).
Proof.
  destruct f; simpl; try apply pack_wf.
  destruct (_ <? _); apply pack_wf.
Qed.

Lemma add_wf x y : Lane32.wf (Float32.add x y).
Proof. apply of_spec_wf. Qed.

Lemma sub_wf x y : Lane32.wf (Float32.sub x y).
Proof. apply of_spec_wf. Qed.

(** OR-ing the all-ones mask into a lane sets every bit. *)
Lemma lor_all_ones r : Lane32.wf r → Z.lor r Lane32.all_ones = Lane32.all_ones.
Proof.
  intros Hr. unfold Lane32.wf, Lane32.modulus in Hr.
  change Lane32.all_ones with (Z.ones 32).
  apply Z.bits_inj'. intros n Hn. rewrite Z.lor_spec.
  destruct (Z.lt_ge_cases n 32).
  - rewrite Z.ones_spec_low by lia. apply orb_true_r.
  - rewrite Z.ones_spec_high by lia.
    rewrite (testbit_above 32 r n) by lia. done.
Qed.

Lemma lor_zero_mask r : Z.lor r (FloatArray.mask_bits false) = r.
Proof. apply Z.lor_0_r. Qed.
End PatternFacts.

(** ** Ordered comparisons *)

Section CompareFacts.
Local Open Scope Z_scope.

Lemma abs_fields x :
  Float32.abs x = Float32.exponent_field x * 2 ^ 23 + Float32.mantissa_field x
  ∧ 0 <= Float32.exponent_field x < 256
  ∧ 0 <= Float32.mantissa_field x < 2 ^ 23.
Proof.
  unfold Float32.abs, Float32.exponent_field, Float32.mantissa_field.
  change 2147483647 with (Z.ones 31). change 255 with (Z.ones 8).
  change 8388607 with (Z.ones 23).
  rewrite !Z.land_ones, Z.shiftr_div_pow2 by lia.
  change (2 ^ 31) with (2 ^ 23 * 2 ^ 8).
  rewrite Z.rem_mul_r by lia.
  pose proof (Z.mod_pos_bound (x / 2 ^ 23) (2 ^ 8)).
  pose proof (Z.mod_pos_bound x (2 ^ 23)).
  change (2 ^ 8) with 256 in *. lia.
Qed.

Ltac compare_leaf :=
  repeat match goal with
         | |- context [Z.ltb ?a ?b] => destruct (Z.ltb_spec a b)
         end;
  simpl orb; cbv iota;
  try (exfalso; lia);
  try reflexivity;
  try (f_equal; symmetry;
       repeat match goal with
              | |- context [PosDef.Pos.compare_cont Eq ?p ?q] =>
                  change (PosDef.Pos.compare_cont Eq p q)
                    with (Z.compare (Zpos p) (Zpos q))
              end;
       repeat match goal with
              | |- context [match Z.compare ?a ?b with _ => _ end] =>
                  destruct (Z.compare_spec a b)
              | |- context [CompOpp (Z.compare ?a ?b)] =>
                  destruct (Z.compare_spec a b)
              | |- _ = Z.compare ?a ?b =>
                  destruct (Z.compare_spec a b)
              end;
       simpl CompOpp;
       first [ apply Z.compare_eq_iff; lia
             | apply Z.compare_lt_iff; lia
             | apply Z.compare_gt_iff; lia ]).

(** The comparison of two patterns is the comparison of their
    sign-magnitude readings, unless one of them is a NaN. *)
Lemma compare_ord_key x y :
  Float32.compare x y =
    if Float32.is_nan x || Float32.is_nan y then None
    else Some (Float32.ord_key x ?= Float32.ord_key y).
Proof.
  unfold Float32.compare, Float32.is_nan, Float32.ord_key, Float32.to_spec,
    Float32.infinity.
  destruct (abs_fields x) as (-> & He1 & Hm1).
  destruct (abs_fields y) as (-> & He2 & Hm2).
  generalize dependent (Float32.exponent_field x). intros e1 He1.
  generalize dependent (Float32.mantissa_field x). intros m1 Hm1.
  generalize dependent (Float32.exponent_field y). intros e2 He2.
  generalize dependent (Float32.mantissa_field y). intros m2 Hm2.
  change (2 ^ 23) with 8388608 in *.
  cbv zeta.
  destruct (Z.eqb_spec e1 0) as [->|]; destruct (Z.eqb_spec e2 0) as [->|];
  try destruct (Z.eqb_spec e1 255) as [->|];
  try destruct (Z.eqb_spec e2 255) as [->|];
  repeat match goal with
         | |- context [match ?m + 8388608 with _ => _ end] =>
             let E := fresh "E" in
             destruct (m + 8388608) eqn:E; [exfalso; lia | | exfalso; lia]
         end;
  destruct m1 as [|p1|p1]; try lia; destruct m2 as [|p2|p2]; try lia;
  destruct (Z.testbit x 31); destruct (Z.testbit y 31);
  unfold SFcompare; cbv beta iota;
  compare_leaf.
Qed.

Lemma lt_ord_key x y :
  Float32.lt x y =
    negb (Float32.is_nan x || Float32.is_nan y)
    && (Float32.ord_key x <? Float32.ord_key y).
Proof.
  unfold Float32.lt, SFltb. fold (Float32.compare x y).
  rewrite compare_ord_key.
  destruct (_ || _); [done|]. unfold Z.ltb. by destruct (_ ?= _).
Qed.

Lemma le_ord_key x y :
  Float32.le x y =
    negb (Float32.is_nan x || Float32.is_nan y)
    && (Float32.ord_key x <=? Float32.ord_key y).
Proof.
  unfold Float32.le, SFleb. fold (Float32.compare x y).
  rewrite compare_ord_key.
  destruct (_ || _); [done|]. unfold Z.leb. by destruct (_ ?= _).
Qed.

Lemma eq_ord_key x y :
  Float32.eq x y =
    negb (Float32.is_nan x || Float32.is_nan y)
    && (Float32.ord_key x =? Float32.ord_key y).
Proof.
  unfold Float32.eq, SFeqb. fold (Float32.compare x y).
  rewrite compare_ord_key.
  destruct (_ || _); [done|].
  destruct (Z.compare_spec (Float32.ord_key x) (Float32.ord_key y));
    simpl; symmetry; [apply Z.eqb_eq | apply Z.eqb_neq | apply Z.eqb_neq]; lia.
Qed.

Ltac compare_keys :=
  unfold Float32.gt, Float32.ge in *;
  rewrite ?lt_ord_key, ?le_ord_key, ?eq_ord_key in *;
  repeat match goal with
         | H : context [Float32.is_nan ?x] |- _ => destruct (Float32.is_nan x)
         | |- context [Float32.is_nan ?x] => destruct (Float32.is_nan x)
         end;
  simpl in *; try discriminate; try reflexivity;
  rewrite ?Z.ltb_lt, ?Z.leb_le, ?Z.eqb_eq, ?Z.ltb_ge, ?Z.leb_gt, ?Z.eqb_neq in *;
  try lia.

Lemma lt_not_ge x y : Float32.lt x y = true → Float32.ge x y = false.
Proof. intros H. compare_keys. Qed.

Lemma lt_not_gt x y : Float32.lt x y = true → Float32.gt x y = false.
Proof. intros H. compare_keys. Qed.

Lemma lt_lt_not_eq x y z :
  Float32.lt x y = true → Float32.lt y z = true → Float32.eq x z = false.
Proof. intros H1 H2. compare_keys. Qed.

Lemma lt_lt_not_gt x y z :
  Float32.lt x y = true → Float32.lt y z = true → Float32.gt x z = false.
Proof. intros H1 H2. compare_keys. Qed.

Lemma lt_trans x y z :
  Float32.lt x y = true → Float32.lt y z = true → Float32.lt x z = true.
Proof. intros H1 H2. compare_keys. Qed.

Lemma eq_infinity : Float32.eq Float32.infinity Float32.infinity = true.
Proof. reflexivity. Qed.

Lemma zero_lt_infinity :
  Float32.lt (Literal.to_float "0") Float32.infinity = true.
Proof. vm_compute. reflexivity. Qed.

Lemma minRange_lt_maxRange :
  Float32.lt (Literal.to_float "-88.3762626647949")
             (Literal.to_float "+88.3762626647949") = true.
Proof. vm_compute. reflexivity. Qed.
End CompareFacts.

(** ** Approximate mode: domain errors and saturation *)

Section ApproximateFacts.
Import FloatArray StaticArrayBaseFloat.
Context {Size : nat}.
Variable L : ScalarMath.
Implicit Types (d : vec Z Size) (i : fin Size).

Lemma asin_invalid_lane d i :
  Float32.gt (Float32.abs (d !!! i)) (Literal.to_float "1") = true →
  asin_ true L d !!! i = Lane32.all_ones.
Proof.
  intros H. unfold asin_. cbv beta iota zeta.
  rewrite lookup_bor, lookup_reinterpret, lookup_fgt, lookup_abs, lookup_F, H.
  apply lor_all_ones. rewrite lookup_select.
  match goal with |- context [if ?c then _ else _] => destruct c end;
    [rewrite lookup_fsub; apply sub_wf | rewrite lookup_fadd; apply add_wf].
Qed.

Lemma acos_invalid_lane d i :
  Float32.gt (Float32.abs (d !!! i)) (Literal.to_float "1") = true →
  acos_ true L d !!! i = Lane32.all_ones.
Proof.
  intros H. unfold acos_. cbv beta iota zeta.
  rewrite lookup_bor, lookup_reinterpret, lookup_fgt, lookup_abs, lookup_F, H.
  apply lor_all_ones. rewrite lookup_fadd. apply add_wf.
Qed.

(** The last statement of [log_], lane by lane. *)
Lemma log_lane d i :
  ∃ z : Z,
    Lane32.wf z
    ∧ log_ true L d !!! i =
        if Float32.eq (d !!! i) Float32.infinity then Float32.infinity
        else Z.lor z
               (mask_bits (negb (Float32.ge (d !!! i) (Literal.to_float "0")))).
Proof.
  unfold log_, frexp_. cbv beta iota zeta.
  rewrite lookup_select, lookup_feq, !lookup_bc.
  rewrite lookup_bor, lookup_reinterpret, lookup_mnot, lookup_fge, lookup_F.
  rewrite lookup_fadd.
  eexists. split; [|reflexivity]. apply add_wf.
Qed.

Lemma log_negative_lane d i :
  Float32.lt (d !!! i) (Literal.to_float "0") = true →
  log_ true L d !!! i = Lane32.all_ones.
Proof.
  intros H. destruct (log_lane d i) as (z & Hz & ->).
  rewrite (lt_lt_not_eq _ _ _ H zero_lt_infinity).
  rewrite (lt_not_ge _ _ H). simpl. by apply lor_all_ones.
Qed.

Lemma log_infinity_lane d i :
  d !!! i = Float32.infinity → log_ true L d !!! i = Float32.infinity.
Proof.
  intros H. destruct (log_lane d i) as (z & Hz & ->).
  by rewrite H, eq_infinity.
Qed.

(** The last statement of [exp_], lane by lane. *)
Lemma exp_lane d i :
  exp_ true L d !!! i =
    if Float32.gt (d !!! i) (Literal.to_float "+88.3762626647949")
    then Float32.infinity
    else if Float32.lt (d !!! i) (Literal.to_float "-88.3762626647949")
         then 0%Z
         else ldexp_ true L (exp_poly d).1 (exp_poly d).2 !!! i.
Proof.
  unfold exp_. destruct (exp_poly d) as [z n] eqn:Hp. cbv beta iota zeta.
  rewrite !lookup_select, lookup_fgt, lookup_flt, !lookup_F.
  unfold zero. rewrite !lookup_bc. reflexivity.
Qed.
End ApproximateFacts.

(** C1. In approximate mode a lane outside the domain does not stop the
    computation: where [|x| > 1], the lane of [asin_] and of [acos_] is the
    all-ones pattern, and where [x < 0], so is the lane of [log_]; the
    pattern results from OR-ing the all-bits-set invalid mask into the
    lane. *)
Theorem out_of_domain_lane_is_tagged_invalid {Size : nat}
    (L : ScalarMath) (d : vec Z Size) (i : fin Size) :
  (Float32.gt (Float32.abs (d !!! i)) (Literal.to_float "1") = true →
     StaticArrayBaseFloat.asin_ true L d !!! i = Lane32.all_ones
     ∧ StaticArrayBaseFloat.acos_ true L d !!! i = Lane32.all_ones)
  ∧ (Float32.lt (d !!! i) (Literal.to_float "0") = true →
     StaticArrayBaseFloat.log_ true L d !!! i = Lane32.all_ones).
Proof.
  split.
  - intros H. split; [by apply asin_invalid_lane | by apply acos_invalid_lane].
  - apply log_negative_lane.
Qed.

Lemma out_of_domain_lane_is_tagged_invalid_witness :
  StaticArrayBaseFloat.asin_ true ScalarLib.unavailable
      [# Literal.to_float "2.0"] !!! 0%fin = Lane32.all_ones
  ∧ StaticArrayBaseFloat.acos_ true ScalarLib.unavailable
      [# Literal.to_float "-2.0"] !!! 0%fin = Lane32.all_ones
  ∧ StaticArrayBaseFloat.log_ true ScalarLib.unavailable
      [# Literal.to_float "-1.0"] !!! 0%fin = Lane32.all_ones.
Proof.
  split; [|split].
  - apply (proj1 (out_of_domain_lane_is_tagged_invalid ScalarLib.unavailable
                    [# Literal.to_float "2.0"] 0%fin)).
    vm_compute. reflexivity.
  - apply (proj1 (out_of_domain_lane_is_tagged_invalid ScalarLib.unavailable
                    [# Literal.to_float "-2.0"] 0%fin)).
    vm_compute. reflexivity.
  - apply (proj2 (out_of_domain_lane_is_tagged_invalid ScalarLib.unavailable
                    [# Literal.to_float "-1.0"] 0%fin)).
    vm_compute. reflexivity.
Defined.

(** C10. In approximate mode [log_] maps a lane holding [+infinity] to
    [+infinity] itself, not to the all-ones pattern of an invalid lane: the
    outer [select] on [eq(derived(), inf)] decides before the OR with the
    invalid mask. *)
Theorem log_of_infinity_is_infinity {Size : nat}
    (L : ScalarMath) (d : vec Z Size) (i : fin Size) :
  d !!! i = Float32.infinity →
  StaticArrayBaseFloat.log_ true L d !!! i = Float32.infinity
  ∧ StaticArrayBaseFloat.log_ true L d !!! i ≠ Lane32.all_ones.
Proof.
  intros H. rewrite (log_infinity_lane L d i H). split; [done|].
  vm_compute. discriminate.
Qed.

Lemma log_of_infinity_is_infinity_witness :
  StaticArrayBaseFloat.log_ true ScalarLib.unavailable
      [# Literal.to_float "1.0"; Float32.infinity] !!! 1%fin = Float32.infinity
  ∧ StaticArrayBaseFloat.log_ true ScalarLib.unavailable
      [# Literal.to_float "1.0"; Float32.infinity] !!! 1%fin ≠ Lane32.all_ones.
Proof.
  apply (log_of_infinity_is_infinity ScalarLib.unavailable
           [# Literal.to_float "1.0"; Float32.infinity] 1%fin).
  reflexivity.
Defined.

(** The sentence of C4 read with the threshold 88.38 fails at the lane
    [x = -88.38f]: the lane is neither above 88.38 nor below -88.38, yet
    [exp_] returns zero there while the [ldexp] reconstruction of the
    polynomial is [-infinity]. *)
Lemma exp_saturation_at_88_38_counterexample :
  let d : vec Z 1 := [# Literal.to_float "-88.38"] in
  let x := d !!! 0%fin in
  let r := StaticArrayBaseFloat.exp_ true ScalarLib.unavailable d !!! 0%fin in
  ¬ ((Float32.gt x (Literal.to_float "88.38") = true → r = Float32.infinity)
     ∧ (Float32.lt x (Literal.to_float "-88.38") = true → r = 0%Z)
     ∧ (Float32.gt x (Literal.to_float "88.38") = false →
        Float32.lt x (Literal.to_float "-88.38") = false →
        r = StaticArrayBaseFloat.ldexp_ true ScalarLib.unavailable
              (StaticArrayBaseFloat.exp_poly d).1
              (StaticArrayBaseFloat.exp_poly d).2 !!! 0%fin)).
Proof.
  intros d x r (_ & _ & H).
  assert (r = 0%Z) as Hr by (vm_compute; reflexivity).
  rewrite Hr in H.
  assert (StaticArrayBaseFloat.ldexp_ true ScalarLib.unavailable
            (StaticArrayBaseFloat.exp_poly d).1
            (StaticArrayBaseFloat.exp_poly d).2 !!! 0%fin = 0xFF800000%Z) as Hl
    by (vm_compute; reflexivity).
  rewrite Hl in H.
  discriminate H; vm_compute; reflexivity.
Qed.

(** C4, amended.  In approximate mode [exp_] saturates outside
    [+/-88.3762626647949], the constants [maxRange] and [minRange] of the
    source: a lane above [maxRange] is [+infinity], a lane below [minRange]
    is zero, and every other lane is [ldexp(z, n)] for the polynomial [z] and
    the exponent [n] of the range reduction. *)
Theorem exp_saturation {Size : nat}
    (L : ScalarMath) (d : vec Z Size) (i : fin Size) :
  let maxRange := Literal.to_float "+88.3762626647949" in
  let minRange := Literal.to_float "-88.3762626647949" in
  (Float32.gt (d !!! i) maxRange = true →
     StaticArrayBaseFloat.exp_ true L d !!! i = Float32.infinity)
  ∧ (Float32.lt (d !!! i) minRange = true →
     StaticArrayBaseFloat.exp_ true L d !!! i = 0%Z)
  ∧ (Float32.gt (d !!! i) maxRange = false →
     Float32.lt (d !!! i) minRange = false →
     StaticArrayBaseFloat.exp_ true L d !!! i =
       StaticArrayBaseFloat.ldexp_ true L
         (StaticArrayBaseFloat.exp_poly d).1
         (StaticArrayBaseFloat.exp_poly d).2 !!! i).
Proof.
  intros maxRange minRange. subst maxRange minRange. rewrite exp_lane.
  split; [|split].
  - by intros ->.
  - intros H.
    rewrite (lt_lt_not_gt _ _ _ H minRange_lt_maxRange). by rewrite H.
  - by intros -> ->.
Qed.

Lemma exp_saturation_witness :
  StaticArrayBaseFloat.exp_ true ScalarLib.unavailable
      [# Literal.to_float "100"; Literal.to_float "-100"; Literal.to_float "1"]
      !!! 0%fin = Float32.infinity
  ∧ StaticArrayBaseFloat.exp_ true ScalarLib.unavailable
      [# Literal.to_float "100"; Literal.to_float "-100"; Literal.to_float "1"]
      !!! 1%fin = 0%Z
  ∧ StaticArrayBaseFloat.exp_ true ScalarLib.unavailable
      [# Literal.to_float "100"; Literal.to_float "-100"; Literal.to_float "1"]
      !!! 2%fin
    = StaticArrayBaseFloat.ldexp_ true ScalarLib.unavailable
        (StaticArrayBaseFloat.exp_poly
           [# Literal.to_float "100"; Literal.to_float "-100"; Literal.to_float "1"]).1
        (StaticArrayBaseFloat.exp_poly
           [# Literal.to_float "100"; Literal.to_float "-100"; Literal.to_float "1"]).2
        !!! 2%fin.
Proof.
  pose proof (exp_saturation ScalarLib.unavailable
    [# Literal.to_float "100"; Literal.to_float "-100"; Literal.to_float "1"]) as H.
  split; [|split].
  - apply (H 0%fin). vm_compute. reflexivity.
  - apply (H 1%fin). vm_compute. reflexivity.
  - apply (H 2%fin); vm_compute; reflexivity.
Defined.

(** The first two parts of the sentence of C4 hold with 88.38 as well, since
    88.38 lies beyond [maxRange]. *)
Lemma exp_saturation_beyond_88_38 {Size : nat}
    (L : ScalarMath) (d : vec Z Size) (i : fin Size) :
  (Float32.gt (d !!! i) (Literal.to_float "88.38") = true →
     StaticArrayBaseFloat.exp_ true L d !!! i = Float32.infinity)
  ∧ (Float32.lt (d !!! i) (Literal.to_float "-88.38") = true →
     StaticArrayBaseFloat.exp_ true L d !!! i = 0%Z).
Proof.
  rewrite exp_lane. split; intros H.
  - assert (Float32.lt (Literal.to_float "+88.3762626647949")
                       (Literal.to_float "88.38") = true) as Hc
      by (vm_compute; reflexivity).
    unfold Float32.gt in *. by rewrite (lt_trans _ _ _ Hc H).
  - assert (Float32.lt (Literal.to_float "-88.38")
                       (Literal.to_float "-88.3762626647949") = true) as Hc
      by (vm_compute; reflexivity).
    pose proof (lt_trans _ _ _ H Hc) as Hlt.
    rewrite (lt_lt_not_gt _ _ _ Hlt minRange_lt_maxRange). by rewrite Hlt.
Qed.

(** ** The scalar fallback paths *)

Section FallbackFacts.
Import FloatArray StaticArrayBaseFloat.
Context {Size : nat}.

Lemma lookup_scalar_loop f (d : vec Z Size) i :
  scalar_loop f d !!! i = f (d !!! i).
Proof. unfold scalar_loop. by rewrite lookup_fun_to_vec. Qed.

Lemma lookup_scalar_loop2 f (d e : vec Z Size) i :
  scalar_loop2 f d e !!! i = f (d !!! i) (e !!! i).
Proof. unfold scalar_loop2. by rewrite lookup_fun_to_vec. Qed.

Lemma scalar_loop_ext f g (d : vec Z Size) :
  (∀ x, f x = g x) → scalar_loop f d = scalar_loop g d.
Proof.
  intros Hfg. apply vec_eq; intros i. by rewrite !lookup_scalar_loop.
Qed.

(** [erfi_] reaches the scalar library through [log] alone. *)
Lemma erfi_depends_on_log_only Approx L L' (d : vec Z Size) :
  (∀ x, s_log L x = s_log L' x) → erfi_ Approx L d = erfi_ Approx L' d.
Proof.
  intros Hlog. unfold erfi_.
  assert (∀ v : vec Z Size, log_ Approx L v = log_ Approx L' v) as ->;
    [|reflexivity].
  intros v. destruct Approx; [reflexivity|].
  unfold log_. by apply scalar_loop_ext.
Qed.
End FallbackFacts.

(** The sentence of C2 fails for [erfi]: were [erfi_] with [Approx = false]
    a lane-wise call of the scalar [erfi], two libraries that differ in
    nothing but [erfi] would give different arrays; they give the same. *)
Lemma erfi_scalar_fallback_counterexample :
  ¬ (∀ (L : ScalarMath) (d : vec Z 1) (i : fin 1),
       StaticArrayBaseFloat.erfi_ false L d !!! i = s_erfi L (d !!! i)).
Proof.
  intros H.
  pose proof (H (ScalarLib.with_erfi (λ _, Literal.to_float "0") ScalarLib.one_lane)
                [# Literal.to_float "0.5"] 0%fin) as H0.
  pose proof (H (ScalarLib.with_erfi (λ _, Literal.to_float "1") ScalarLib.one_lane)
                [# Literal.to_float "0.5"] 0%fin) as H1.
  rewrite (erfi_depends_on_log_only false _
             (ScalarLib.with_erfi (λ _, Literal.to_float "0") ScalarLib.one_lane))
    in H1 by reflexivity.
  rewrite H0 in H1. vm_compute in H1. discriminate H1.
Qed.

(** C2, amended.  Every transcendental function that has an [if (Approx)] of
    its own computes, when [Approx] is false, each lane by a call of the
    scalar function of the same name: [sin], [cos], [sincos], [tan], [asin],
    [acos], [atan2], [atan], [exp], [log], [ldexp], [frexp], [pow], [sinh],
    [cosh], [sincosh], [tanh], [csch], [sech], [coth], [asinh], [acosh],
    [atanh] and [erf].  [csc], [sec] and [cot] have no branch of their own
    and are composed from [sin], [cos] and [sincos], whose branch they
    inherit.  [erfi] has a single body for both values of the flag: it never
    calls a scalar [erfi], and depends on the scalar library through [log]
    only. *)
Theorem scalar_fallback_paths {Size : nat}
    (L : ScalarMath) (d e : vec Z Size) (i : fin Size) :
  let SL := StaticArrayBaseFloat.scalar_loop (Size:=Size) in
  (StaticArrayBaseFloat.sin_ false L d !!! i = s_sin L (d !!! i)
   ∧ StaticArrayBaseFloat.cos_ false L d !!! i = s_cos L (d !!! i)
   ∧ (StaticArrayBaseFloat.sincos_ false L d).1 !!! i = s_sin L (d !!! i)
   ∧ (StaticArrayBaseFloat.sincos_ false L d).2 !!! i = s_cos L (d !!! i)
   ∧ StaticArrayBaseFloat.tan_ false L d !!! i = s_tan L (d !!! i)
   ∧ StaticArrayBaseFloat.asin_ false L d !!! i = s_asin L (d !!! i)
   ∧ StaticArrayBaseFloat.acos_ false L d !!! i = s_acos L (d !!! i)
   ∧ StaticArrayBaseFloat.atan2_ false L d e !!! i = s_atan2 L (d !!! i) (e !!! i)
   ∧ StaticArrayBaseFloat.atan_ false L d !!! i = s_atan L (d !!! i))
  ∧ (StaticArrayBaseFloat.exp_ false L d !!! i = s_exp L (d !!! i)
   ∧ StaticArrayBaseFloat.log_ false L d !!! i = s_log L (d !!! i)
   ∧ StaticArrayBaseFloat.ldexp_ false L d e !!! i = s_ldexp L (d !!! i) (e !!! i)
   ∧ (StaticArrayBaseFloat.frexp_ false L d).1 !!! i = (s_frexp L (d !!! i)).1
   ∧ (StaticArrayBaseFloat.frexp_ false L d).2 !!! i = (s_frexp L (d !!! i)).2
   ∧ StaticArrayBaseFloat.pow_ false L d e !!! i = s_pow L (d !!! i) (e !!! i))
  ∧ (StaticArrayBaseFloat.sinh_ false L d !!! i = s_sinh L (d !!! i)
   ∧ StaticArrayBaseFloat.cosh_ false L d !!! i = s_cosh L (d !!! i)
   ∧ (StaticArrayBaseFloat.sincosh_ false L d).1 !!! i = s_sinh L (d !!! i)
   ∧ (StaticArrayBaseFloat.sincosh_ false L d).2 !!! i = s_cosh L (d !!! i)
   ∧ StaticArrayBaseFloat.tanh_ false L d !!! i = s_tanh L (d !!! i)
   ∧ StaticArrayBaseFloat.csch_ false L d !!! i = s_csch L (d !!! i)
   ∧ StaticArrayBaseFloat.sech_ false L d !!! i = s_sech L (d !!! i)
   ∧ StaticArrayBaseFloat.coth_ false L d !!! i = s_coth L (d !!! i)
   ∧ StaticArrayBaseFloat.asinh_ false L d !!! i = s_asinh L (d !!! i)
   ∧ StaticArrayBaseFloat.acosh_ false L d !!! i = s_acosh L (d !!! i)
   ∧ StaticArrayBaseFloat.atanh_ false L d !!! i = s_atanh L (d !!! i)
   ∧ StaticArrayBaseFloat.erf_ false L d !!! i = s_erf L (d !!! i))
  ∧ (StaticArrayBaseFloat.csc_ false L d
       = StaticArrayBaseFloat.rcp_ (SL (s_sin L) d)
   ∧ StaticArrayBaseFloat.sec_ false L d
       = StaticArrayBaseFloat.rcp_ (SL (s_cos L) d)
   ∧ StaticArrayBaseFloat.cot_ false L d
       = FloatArray.fdiv (SL (s_cos L) d) (SL (s_sin L) d))
  ∧ (∀ Approx L',
       (∀ x, s_log L x = s_log L' x) →
       StaticArrayBaseFloat.erfi_ Approx L d = StaticArrayBaseFloat.erfi_ Approx L' d).
Proof.
  intros SL. subst SL.
  unfold StaticArrayBaseFloat.sin_, StaticArrayBaseFloat.cos_,
    StaticArrayBaseFloat.sincos_, StaticArrayBaseFloat.tan_,
    StaticArrayBaseFloat.asin_, StaticArrayBaseFloat.acos_,
    StaticArrayBaseFloat.atan2_, StaticArrayBaseFloat.atan_,
    StaticArrayBaseFloat.exp_, StaticArrayBaseFloat.log_,
    StaticArrayBaseFloat.ldexp_, StaticArrayBaseFloat.frexp_,
    StaticArrayBaseFloat.pow_, StaticArrayBaseFloat.sinh_,
    StaticArrayBaseFloat.cosh_, StaticArrayBaseFloat.sincosh_,
    StaticArrayBaseFloat.tanh_, StaticArrayBaseFloat.csch_,
    StaticArrayBaseFloat.sech_, StaticArrayBaseFloat.coth_,
    StaticArrayBaseFloat.asinh_, StaticArrayBaseFloat.acosh_,
    StaticArrayBaseFloat.atanh_, StaticArrayBaseFloat.erf_.
  cbv beta iota. cbn [fst snd].
  rewrite ?lookup_scalar_loop, ?lookup_scalar_loop2, ?lookup_fun_to_vec.
  split; [|split; [|split; [|split]]].
  1-3: by repeat split.
  - unfold StaticArrayBaseFloat.csc_, StaticArrayBaseFloat.sec_,
      StaticArrayBaseFloat.cot_. by repeat split.
  - intros Approx L' Hlog. by apply erfi_depends_on_log_only.
Qed.

Lemma scalar_fallback_paths_witness :
  StaticArrayBaseFloat.erfi_ false ScalarLib.one_lane [# Literal.to_float "0.5"]
  = StaticArrayBaseFloat.erfi_ false
      (ScalarLib.with_erfi (λ _, Literal.to_float "0") ScalarLib.one_lane)
      [# Literal.to_float "0.5"].
Proof.
  apply (scalar_fallback_paths ScalarLib.one_lane
           [# Literal.to_float "0.5"] [# Literal.to_float "0.5"] 0%fin).
  reflexivity.
Defined.

(** * Further properties of the fallback operations *)

(** ** Rotation by any count *)

Section RotateFacts.
Local Open Scope Z_scope.

(** The two shift amounts of [rol_(k)] and [ror_(k)], for any [k]. *)
Lemma rotate_amounts ty k :
  Z.land k (8 * IntLane.sizeof ty - 1) = k mod IntLane.bits ty
  ∧ Z.land (SizeT.add (SizeT.not k) 1) (8 * IntLane.sizeof ty - 1)
    = (- k) mod IntLane.bits ty.
Proof.
  unfold SizeT.add, SizeT.not, SizeT.wrap, Z.lnot, Z.pred.
  rewrite Zplus_mod_idemp_l.
  replace (- k + -1 + 1) with (- k) by lia.
  unfold IntLane.bits, IntLane.sizeof.
  destruct ty as [sg []]; simpl.
  - change (8 * 1 - 1) with (Z.ones 3). rewrite !Z.land_ones by lia.
    change (2 ^ 3) with 8. change (8 * 1) with 8.
    change (2 ^ 64) with 18446744073709551616.
    split; [done|]. Z.div_mod_to_equations. lia.
  - change (8 * 2 - 1) with (Z.ones 4). rewrite !Z.land_ones by lia.
    change (2 ^ 4) with 16. change (8 * 2) with 16.
    change (2 ^ 64) with 18446744073709551616.
    split; [done|]. Z.div_mod_to_equations. lia.
  - change (8 * 4 - 1) with (Z.ones 5). rewrite !Z.land_ones by lia.
    change (2 ^ 5) with 32. change (8 * 4) with 32.
    change (2 ^ 64) with 18446744073709551616.
    split; [done|]. Z.div_mod_to_equations. lia.
  - change (8 * 8 - 1) with (Z.ones 6). rewrite !Z.land_ones by lia.
    change (2 ^ 6) with 64. change (8 * 8) with 64.
    change (2 ^ 64) with 18446744073709551616.
    split; [done|]. Z.div_mod_to_equations. lia.
Qed.

Lemma opp_mod_mod k W : 0 < W → (- (k mod W)) mod W = (- k) mod W.
Proof.
  intros HW. replace (- (k mod W)) with (0 - k mod W) by lia.
  rewrite Zminus_mod_idemp_r. f_equal.
Qed.

Lemma opp_opp_mod k W : 0 < W → (- ((- k) mod W)) mod W = k mod W.
Proof. intros HW. rewrite opp_mod_mod by done. f_equal. lia. Qed.

(** Rotating left by [r] and then by the complementary amount. *)
Lemma rot_inverse W x r :
  0 <= x < 2 ^ W → 0 <= r < W →
  IntLane.rot W (IntLane.rot W x r ((- r) mod W)) ((- r) mod W) r = x.
Proof.
  intros Hx Hr. destruct (Z.eq_dec r 0) as [->|Hr0].
  - change (- 0) with 0. rewrite Z.mod_0_l by lia.
    rewrite (rot_zero W x) by done. by apply rot_zero.
  - replace ((- r) mod W) with (W - r).
    2:{ apply Z.mod_unique with (-1); lia. }
    apply rot_rot; lia.
Qed.

Lemma rot_inverse' W x r :
  0 <= x < 2 ^ W → 0 <= r < W →
  IntLane.rot W (IntLane.rot W x ((- r) mod W) r) r ((- r) mod W) = x.
Proof.
  intros Hx Hr.
  assert (0 <= (- r) mod W < W) as Hb by (apply Z.mod_pos_bound; lia).
  pose proof (rot_inverse W x ((- r) mod W) Hx Hb) as H.
  rewrite opp_opp_mod, (Z.mod_small r) in H by lia. exact H.
Qed.
End RotateFacts.

Section RotateLanes.
Context {Size : nat}.
Local Open Scope Z_scope.
Implicit Types (d : vec Z Size) (i : fin Size).

Lemma lookup_rol_unsigned_mod ty d k i :
  StaticArrayBase.rol_unsigned ty d k !!! i =
    IntLane.rot (IntLane.bits ty) (d !!! i)
      (k mod IntLane.bits ty) ((- k) mod IntLane.bits ty).
Proof.
  rewrite lookup_rol_unsigned.
  by destruct (rotate_amounts ty k) as [-> ->].
Qed.

Lemma lookup_ror_unsigned_mod ty d k i :
  StaticArrayBase.ror_unsigned ty d k !!! i =
    IntLane.rot (IntLane.bits ty) (d !!! i)
      ((- k) mod IntLane.bits ty) (k mod IntLane.bits ty).
Proof.
  unfold StaticArrayBase.ror_unsigned.
  rewrite vlookup_zip_with, !vlookup_map.
  destruct (rotate_amounts ty k) as [-> ->].
  unfold IntLane.rot, IntLane.shl, IntLane.shr. apply Z.lor_comm.
Qed.

Lemma rol_unsigned_range ty d k :
  (∀ i, 0 <= d !!! i < 2 ^ IntLane.bits ty) →
  ∀ i, 0 <= StaticArrayBase.rol_unsigned ty d k !!! i < 2 ^ IntLane.bits ty.
Proof.
  intros Hd i. rewrite lookup_rol_unsigned_mod.
  pose proof (bits_pos ty).
  apply rot_range; [done | | done].
  apply Z.mod_pos_bound. done.
Qed.

Lemma ror_unsigned_range ty d k :
  (∀ i, 0 <= d !!! i < 2 ^ IntLane.bits ty) →
  ∀ i, 0 <= StaticArrayBase.ror_unsigned ty d k !!! i < 2 ^ IntLane.bits ty.
Proof.
  intros Hd i. rewrite lookup_ror_unsigned_mod.
  pose proof (bits_pos ty).
  apply rot_range; [done | | done].
  apply Z.mod_pos_bound. done.
Qed.

Lemma ror_rol_unsigned ty d k :
  (∀ i, 0 <= d !!! i < 2 ^ IntLane.bits ty) →
  StaticArrayBase.ror_unsigned ty (StaticArrayBase.rol_unsigned ty d k) k = d.
Proof.
  intros Hd. apply vec_eq; intros i. pose proof (bits_pos ty) as HW.
  rewrite lookup_ror_unsigned_mod, lookup_rol_unsigned_mod.
  rewrite <- (opp_mod_mod k) by done.
  apply rot_inverse; [done|]. by apply Z.mod_pos_bound.
Qed.

Lemma rol_ror_unsigned ty d k :
  (∀ i, 0 <= d !!! i < 2 ^ IntLane.bits ty) →
  StaticArrayBase.rol_unsigned ty (StaticArrayBase.ror_unsigned ty d k) k = d.
Proof.
  intros Hd. apply vec_eq; intros i. pose proof (bits_pos ty) as HW.
  rewrite lookup_rol_unsigned_mod, lookup_ror_unsigned_mod.
  rewrite <- (opp_mod_mod k) by done.
  apply rot_inverse'; [done|]. by apply Z.mod_pos_bound.
Qed.

Lemma rol_rol_unsigned ty d k :
  (∀ i, 0 <= d !!! i < 2 ^ IntLane.bits ty) →
  0 <= k < IntLane.bits ty →
  StaticArrayBase.rol_unsigned ty (StaticArrayBase.rol_unsigned ty d k)
    (IntLane.bits ty - k) = d.
Proof.
  intros Hd Hk. apply vec_eq; intros i. pose proof (bits_pos ty) as HW.
  rewrite !lookup_rol_unsigned_mod.
  replace ((IntLane.bits ty - k) mod IntLane.bits ty)
    with ((- k) mod IntLane.bits ty).
  2:{ replace (IntLane.bits ty - k) with (- k + 1 * IntLane.bits ty) by lia.
      by rewrite Z.mod_add by lia. }
  replace ((- (IntLane.bits ty - k)) mod IntLane.bits ty) with k.
  2:{ replace (- (IntLane.bits ty - k)) with (k + (-1) * IntLane.bits ty) by lia.
      rewrite Z.mod_add by lia. by rewrite Z.mod_small. }
  rewrite (Z.mod_small k) by done.
  by apply rot_inverse.
Qed.
End RotateLanes.

(** X1. On unsigned lanes [ror_] undoes [rol_] and [rol_] undoes [ror_],
    for every count a [size_t] can hold, not only those below the bit
    width. *)
Theorem rol_ror_inverse {Size : nat} (w : int_width) (v : vec Z Size) (k : Z) :
  let ty := {| is_signed := false; int_size := w |} in
  (∀ i, IntLane.in_range ty (v !!! i)) →
  StaticArrayBase.ror_ ty (StaticArrayBase.rol_ ty v k) k = v
  ∧ StaticArrayBase.rol_ ty (StaticArrayBase.ror_ ty v k) k = v.
Proof.
  intros ty Hv. unfold StaticArrayBase.rol_, StaticArrayBase.ror_. simpl.
  split; [by apply ror_rol_unsigned | by apply rol_ror_unsigned].
Qed.

Lemma rol_ror_inverse_witness :
  StaticArrayBase.ror_ {| is_signed := false; int_size := W16 |}
    (StaticArrayBase.rol_ {| is_signed := false; int_size := W16 |}
       [# 0x8001; 0x1234]%Z 21) 21 = [# 0x8001; 0x1234]%Z
  ∧ StaticArrayBase.rol_ {| is_signed := false; int_size := W16 |}
    (StaticArrayBase.ror_ {| is_signed := false; int_size := W16 |}
       [# 0x8001; 0x1234]%Z 21) 21 = [# 0x8001; 0x1234]%Z.
Proof.
  apply (rol_ror_inverse W16 [# 0x8001; 0x1234]%Z 21).
  intros i.
  inv_fin i; [vm_compute; split; [discriminate | reflexivity]|]. intros i.
  inv_fin i; [vm_compute; split; [discriminate | reflexivity]|]. intros i.
  inv_fin i.
Defined.

(** X2. The count of a rotation only matters modulo the bit width of the
    lane, and a right rotation by [k] is the left rotation by the
    complementary count. *)
Theorem rotation_count_modulo {Size : nat} (w : int_width) (v : vec Z Size) (k : Z) :
  let ty := {| is_signed := false; int_size := w |} in
  StaticArrayBase.rol_ ty v k = StaticArrayBase.rol_ ty v (k mod IntLane.bits ty)
  ∧ StaticArrayBase.ror_ ty v k = StaticArrayBase.ror_ ty v (k mod IntLane.bits ty)
  ∧ StaticArrayBase.ror_ ty v k
    = StaticArrayBase.rol_ ty v (IntLane.bits ty - k mod IntLane.bits ty).
Proof.
  intros ty. unfold StaticArrayBase.rol_, StaticArrayBase.ror_. simpl.
  pose proof (bits_pos ty) as HW.
  repeat split; apply vec_eq; intros i;
    rewrite ?lookup_rol_unsigned_mod, ?lookup_ror_unsigned_mod.
  - by rewrite Z.mod_mod, opp_mod_mod by lia.
  - by rewrite Z.mod_mod, opp_mod_mod by lia.
  - f_equal.
    + replace (IntLane.bits ty - k mod IntLane.bits ty)%Z
        with (- (k mod IntLane.bits ty) + 1 * IntLane.bits ty)%Z by lia.
      by rewrite Z.mod_add, opp_mod_mod by lia.
    + replace (- (IntLane.bits ty - k mod IntLane.bits ty))%Z
        with (k mod IntLane.bits ty + (-1) * IntLane.bits ty)%Z by lia.
      by rewrite Z.mod_add, Z.mod_mod by lia.
Qed.


(** ** Signed lanes and by-vector counts *)

Section SignedFacts.
Local Open Scope Z_scope.

Lemma pow2_bits_half ty : 2 ^ IntLane.bits ty = 2 * 2 ^ (IntLane.bits ty - 1).
Proof.
  pose proof (bits_pos ty).
  rewrite <- Z.pow_succ_r by lia. f_equal. lia.
Qed.

Lemma to_unsigned_range ty x :
  0 <= IntLane.to_unsigned ty x < 2 ^ IntLane.bits ty.
Proof.
  apply Z.mod_pos_bound. pose proof (bits_pos ty).
  apply Z.pow_pos_nonneg; lia.
Qed.

Lemma of_to_unsigned ty x :
  IntLane.in_range ty x → IntLane.of_unsigned ty (IntLane.to_unsigned ty x) = x.
Proof.
  unfold IntLane.in_range, IntLane.of_unsigned, IntLane.to_unsigned.
  pose proof (pow2_bits_half ty) as Hh.
  assert (0 < 2 ^ (IntLane.bits ty - 1)) as Hp.
  { pose proof (bits_pos ty). apply Z.pow_pos_nonneg; lia. }
  destruct (is_signed ty); simpl; intros Hx.
  - rewrite Hh. set (P := 2 ^ (IntLane.bits ty - 1)) in *.
    destruct (Z.lt_ge_cases x 0) as [Hneg|Hpos].
    + replace (x mod (2 * P)) with (x + 2 * P)
        by (apply Z.mod_unique with (-1); lia).
      destruct (Z.leb_spec P (x + 2 * P)); lia.
    + rewrite Z.mod_small by lia.
      destruct (Z.leb_spec P x); lia.
  - by apply Z.mod_small.
Qed.

Lemma to_of_unsigned ty u :
  0 <= u < 2 ^ IntLane.bits ty →
  IntLane.to_unsigned ty (IntLane.of_unsigned ty u) = u.
Proof.
  unfold IntLane.of_unsigned, IntLane.to_unsigned. intros Hu.
  destruct (is_signed ty && _); [|by apply Z.mod_small].
  replace (u - 2 ^ IntLane.bits ty) with (u + (-1) * 2 ^ IntLane.bits ty) by lia.
  rewrite Z.mod_add by lia. by apply Z.mod_small.
Qed.

Lemma of_unsigned_range ty u :
  0 <= u < 2 ^ IntLane.bits ty → IntLane.in_range ty (IntLane.of_unsigned ty u).
Proof.
  unfold IntLane.in_range, IntLane.of_unsigned. intros Hu.
  pose proof (pow2_bits_half ty) as Hh.
  destruct (is_signed ty); simpl; [|done].
  destruct (Z.leb_spec (2 ^ (IntLane.bits ty - 1)) u); lia.
Qed.

(** XOR with the all-ones pattern of [W] bits is the complement within
    [W] bits. *)
Lemma lxor_ones_complement W k :
  0 <= W → 0 <= k < 2 ^ W → Z.lxor k (2 ^ W - 1) = 2 ^ W - 1 - k.
Proof.
  intros HW Hk.
  transitivity (Z.lnot k mod 2 ^ W).
  - rewrite <- Z.land_ones by done.
    replace (2 ^ W - 1) with (Z.ones W) by (rewrite Z.ones_equiv; lia).
    apply Z.bits_inj'. intros n Hn.
    rewrite Z.lxor_spec, Z.land_spec, Z.lnot_spec by done.
    destruct (Z.lt_ge_cases n W).
    + rewrite Z.ones_spec_low by lia. by destruct (Z.testbit k n).
    + rewrite Z.ones_spec_high by lia.
      rewrite (testbit_above W k n) by lia. done.
  - unfold Z.lnot, Z.pred. symmetry. apply Z.mod_unique with (-1); lia.
Qed.
End SignedFacts.

(** X3. [rol_] keeps every lane within its type, signed or not, and on
    signed lanes (which rotate through the unsigned type of equal width)
    rotating by [k] and then by [N - k] restores the array. *)
Theorem rol_signed_round_trip {Size : nat} (ty : IntScalar) (v : vec Z Size) (k : Z) :
  (∀ i, IntLane.in_range ty (v !!! i)) →
  (∀ i, IntLane.in_range ty (StaticArrayBase.rol_ ty v k !!! i))
  ∧ ((0 ≤ k < IntLane.bits ty)%Z →
     StaticArrayBase.rol_ ty (StaticArrayBase.rol_ ty v k) (IntLane.bits ty - k) = v).
Proof.
  intros Hv. unfold StaticArrayBase.rol_.
  destruct (is_signed ty) eqn:Hs; simpl.
  - assert (∀ i, (0 ≤ vmap (IntLane.to_unsigned ty) v !!! i
                  < 2 ^ IntLane.bits (IntLane.unsigned_of ty))%Z) as Hu.
    { intros i. rewrite vlookup_map. exact (to_unsigned_range ty _). }
    split.
    + intros i. rewrite vlookup_map. apply of_unsigned_range.
      exact (rol_unsigned_range (IntLane.unsigned_of ty) _ k Hu i).
    + intros Hk.
      assert (vmap (IntLane.to_unsigned ty)
                (vmap (IntLane.of_unsigned ty)
                   (StaticArrayBase.rol_unsigned (IntLane.unsigned_of ty)
                      (vmap (IntLane.to_unsigned ty) v) k))
              = StaticArrayBase.rol_unsigned (IntLane.unsigned_of ty)
                  (vmap (IntLane.to_unsigned ty) v) k) as ->.
      { apply vec_eq; intros i. rewrite !vlookup_map. apply to_of_unsigned.
        exact (rol_unsigned_range (IntLane.unsigned_of ty) _ k Hu i). }
      rewrite (rol_rol_unsigned (IntLane.unsigned_of ty)) by done.
      apply vec_eq; intros i. rewrite !vlookup_map. by apply of_to_unsigned.
  - assert (∀ i, (0 ≤ v !!! i < 2 ^ IntLane.bits ty)%Z) as Hu.
    { intros i. specialize (Hv i). unfold IntLane.in_range in Hv.
      by rewrite Hs in Hv. }
    split.
    + intros i. unfold IntLane.in_range. rewrite Hs.
      by apply rol_unsigned_range.
    + intros Hk. by apply rol_rol_unsigned.
Qed.

Lemma rol_signed_round_trip_witness :
  (∀ i, IntLane.in_range {| is_signed := true; int_size := W8 |}
          (StaticArrayBase.rol_ {| is_signed := true; int_size := W8 |}
             [# -127; 64]%Z 3 !!! i))
  ∧ StaticArrayBase.rol_ {| is_signed := true; int_size := W8 |}
      (StaticArrayBase.rol_ {| is_signed := true; int_size := W8 |}
         [# -127; 64]%Z 3) (8 - 3) = [# -127; 64]%Z.
Proof.
  assert (∀ i, IntLane.in_range {| is_signed := true; int_size := W8 |}
                 ([# -127; 64]%Z !!! i)) as Hv.
  { intros i.
    inv_fin i; [vm_compute; split; [discriminate | reflexivity]|]. intros i.
    inv_fin i; [vm_compute; split; [discriminate | reflexivity]|]. intros i.
    inv_fin i. }
  split.
  - apply (rol_signed_round_trip {| is_signed := true; int_size := W8 |}
             [# -127; 64]%Z 3 Hv).
  - apply (rol_signed_round_trip {| is_signed := true; int_size := W8 |}
             [# -127; 64]%Z 3 Hv).
    vm_compute. split; [discriminate | reflexivity].
Defined.

(** X4. A by-vector rotation whose counts all equal [k] is the by-scalar
    rotation by [k]: the count arithmetic done in the lane type agrees with
    the one done in [size_t]. *)
Theorem rolv_broadcast_is_rol {Size : nat} (w : int_width) (v : vec Z Size) (k : Z) :
  let ty := {| is_signed := false; int_size := w |} in
  (0 ≤ k < 2 ^ IntLane.bits ty)%Z →
  IntegerOps.rolv_ ty v (vreplicate Size k) = StaticArrayBase.rol_ ty v k
  ∧ IntegerOps.rorv_ ty v (vreplicate Size k) = StaticArrayBase.ror_ ty v k.
Proof.
  intros ty Hk.
  assert (Z.land (IntegerOps.wrap ty (Z.lxor k (IntegerOps.all_ones ty) + 1))
                 (8 * IntLane.sizeof ty - 1)
          = Z.land (SizeT.add (SizeT.not k) 1) (8 * IntLane.sizeof ty - 1)) as Hamt.
  { destruct (rotate_amounts ty k) as [_ ->].
    unfold IntegerOps.wrap, IntegerOps.all_ones, IntLane.of_unsigned. simpl.
    pose proof (bits_pos ty).
    rewrite lxor_ones_complement by lia.
    replace (2 ^ IntLane.bits ty - 1 - k + 1)%Z with (2 ^ IntLane.bits ty - k)%Z by lia.
    unfold IntLane.bits, IntLane.sizeof in *. subst ty.
    destruct w; simpl in *.
    - change (8 * 1 - 1)%Z with (Z.ones 3). rewrite Z.land_ones by lia.
      change (8 * 1)%Z with 8%Z in *. change (2 ^ 8)%Z with 256%Z in *.
      change (2 ^ 3)%Z with 8%Z. Z.div_mod_to_equations. lia.
    - change (8 * 2 - 1)%Z with (Z.ones 4). rewrite Z.land_ones by lia.
      change (8 * 2)%Z with 16%Z in *. change (2 ^ 16)%Z with 65536%Z in *.
      change (2 ^ 4)%Z with 16%Z. Z.div_mod_to_equations. lia.
    - change (8 * 4 - 1)%Z with (Z.ones 5). rewrite Z.land_ones by lia.
      change (8 * 4)%Z with 32%Z in *. change (2 ^ 32)%Z with 4294967296%Z in *.
      change (2 ^ 5)%Z with 32%Z. Z.div_mod_to_equations. lia.
    - change (8 * 8 - 1)%Z with (Z.ones 6). rewrite Z.land_ones by lia.
      change (8 * 8)%Z with 64%Z in *.
      change (2 ^ 64)%Z with 18446744073709551616%Z in *.
      change (2 ^ 6)%Z with 64%Z. Z.div_mod_to_equations. lia. }
  unfold IntegerOps.rolv_, IntegerOps.rorv_, StaticArrayBase.rol_,
    StaticArrayBase.ror_. simpl.
  unfold IntegerOps.rolv_unsigned, IntegerOps.rorv_unsigned,
    StaticArrayBase.rol_unsigned, StaticArrayBase.ror_unsigned, IntegerOps.not_.
  split; apply vec_eq; intros i;
    rewrite !vlookup_zip_with, !vlookup_map, !vlookup_replicate;
    by rewrite Hamt.
Qed.

Lemma rolv_broadcast_is_rol_witness :
  IntegerOps.rolv_ {| is_signed := false; int_size := W8 |}
      [# 0x81; 0x40]%Z (vreplicate 2 13%Z)
    = StaticArrayBase.rol_ {| is_signed := false; int_size := W8 |} [# 0x81; 0x40]%Z 13
  ∧ IntegerOps.rorv_ {| is_signed := false; int_size := W8 |}
      [# 0x81; 0x40]%Z (vreplicate 2 13%Z)
    = StaticArrayBase.ror_ {| is_signed := false; int_size := W8 |} [# 0x81; 0x40]%Z 13.
Proof.
  apply (rolv_broadcast_is_rol W8 [# 0x81; 0x40]%Z 13).
  vm_compute. split; [discriminate | reflexivity].
Defined.


(** ** [not_] and [neg_] *)

Section NegationFacts.
Local Open Scope Z_scope.

Lemma wrap_mod ty z :
  IntegerOps.wrap ty z mod 2 ^ IntLane.bits ty = z mod 2 ^ IntLane.bits ty.
Proof.
  unfold IntegerOps.wrap.
  apply (to_of_unsigned ty (z mod 2 ^ IntLane.bits ty)).
  apply Z.mod_pos_bound. pose proof (bits_pos ty). apply Z.pow_pos_nonneg; lia.
Qed.

Lemma wrap_in_range ty x : IntLane.in_range ty x → IntegerOps.wrap ty x = x.
Proof. apply of_to_unsigned. Qed.

Lemma wrap_range ty z : IntLane.in_range ty (IntegerOps.wrap ty z).
Proof.
  apply of_unsigned_range, Z.mod_pos_bound.
  pose proof (bits_pos ty). apply Z.pow_pos_nonneg; lia.
Qed.

Lemma wrap_ext ty a b :
  a mod 2 ^ IntLane.bits ty = b mod 2 ^ IntLane.bits ty →
  IntegerOps.wrap ty a = IntegerOps.wrap ty b.
Proof. unfold IntegerOps.wrap. by intros ->. Qed.

(** One lane of the integer [neg_]. *)
Lemma neg_lane ty x :
  IntLane.in_range ty x →
  IntegerOps.wrap ty (Z.lxor x (IntegerOps.all_ones ty) + 1) = IntegerOps.wrap ty (- x).
Proof.
  unfold IntLane.in_range, IntegerOps.all_ones. intros Hx.
  destruct (is_signed ty).
  - rewrite Z.lxor_m1_r. f_equal. unfold Z.lnot, Z.pred. lia.
  - pose proof (bits_pos ty).
    rewrite lxor_ones_complement by lia. apply wrap_ext.
    replace (2 ^ IntLane.bits ty - 1 - x + 1)
      with (- x + 1 * 2 ^ IntLane.bits ty) by lia.
    by rewrite Z.mod_add by lia.
Qed.

Lemma wrap_opp_wrap_opp ty x :
  IntLane.in_range ty x →
  IntegerOps.wrap ty (- IntegerOps.wrap ty (- x)) = x.
Proof.
  intros Hx. rewrite <- (wrap_in_range ty x Hx) at 2.
  assert (0 < 2 ^ IntLane.bits ty) as HM.
  { pose proof (bits_pos ty). apply Z.pow_pos_nonneg; lia. }
  apply wrap_ext.
  rewrite <- opp_mod_mod, wrap_mod, opp_mod_mod by done.
  f_equal. lia.
Qed.
End NegationFacts.

Section IntegerOpsLanes.
Context {Size : nat}.
Implicit Types (d : vec Z Size) (i : fin Size).

Lemma lookup_int_not ty d i :
  IntegerOps.not_ ty d !!! i = Z.lxor (d !!! i) (IntegerOps.all_ones ty).
Proof.
  unfold IntegerOps.not_. by rewrite vlookup_zip_with, vlookup_replicate.
Qed.

Lemma lookup_int_neg ty d i :
  IntegerOps.neg_ ty d !!! i
    = IntegerOps.wrap ty (Z.lxor (d !!! i) (IntegerOps.all_ones ty) + 1).
Proof.
  unfold IntegerOps.neg_.
  by rewrite vlookup_zip_with, lookup_int_not, vlookup_replicate.
Qed.
End IntegerOpsLanes.

(** X5. On integer lanes [neg_] ([~x + 1]) is the negation of the type with
    wrap-around: a lane plus its negation wraps to zero, negating twice
    gives the array back, and the results stay within the type (so the most
    negative value of a signed type is its own negation). *)
Theorem integer_neg_is_wrapping_negation {Size : nat}
    (ty : IntScalar) (v : vec Z Size) :
  (∀ i, IntLane.in_range ty (v !!! i)) →
  (∀ i, IntegerOps.neg_ ty v !!! i = IntegerOps.wrap ty (- (v !!! i))
        ∧ IntLane.in_range ty (IntegerOps.neg_ ty v !!! i)
        ∧ IntegerOps.wrap ty (v !!! i + IntegerOps.neg_ ty v !!! i) = 0%Z)
  ∧ IntegerOps.neg_ ty (IntegerOps.neg_ ty v) = v.
Proof.
  intros Hv.
  assert (∀ i, IntegerOps.neg_ ty v !!! i = IntegerOps.wrap ty (- (v !!! i))) as Hn.
  { intros i. rewrite lookup_int_neg. by apply neg_lane. }
  assert (0 < 2 ^ IntLane.bits ty)%Z as HM.
  { pose proof (bits_pos ty). apply Z.pow_pos_nonneg; lia. }
  split.
  - intros i. rewrite Hn. split; [done|]. split; [apply wrap_range|].
    transitivity (IntegerOps.wrap ty 0).
    + apply wrap_ext.
      rewrite <- Zplus_mod_idemp_r, wrap_mod, Zplus_mod_idemp_r. f_equal. lia.
    + unfold IntegerOps.wrap, IntLane.of_unsigned.
      rewrite Z.mod_0_l by lia.
      destruct (Z.leb_spec (2 ^ (IntLane.bits ty - 1)) 0) as [H|H].
      * pose proof (bits_pos ty).
        assert (0 < 2 ^ (IntLane.bits ty - 1))%Z by (apply Z.pow_pos_nonneg; lia).
        lia.
      * by rewrite andb_false_r.
  - apply vec_eq; intros i.
    rewrite lookup_int_neg, neg_lane by (rewrite Hn; apply wrap_range).
    rewrite Hn. by apply wrap_opp_wrap_opp.
Qed.

Lemma integer_neg_is_wrapping_negation_witness :
  (∀ i, IntegerOps.neg_ {| is_signed := true; int_size := W8 |} [# -128; 5]%Z !!! i
        = IntegerOps.wrap {| is_signed := true; int_size := W8 |}
            (- ([# -128; 5]%Z !!! i))
        ∧ IntLane.in_range {| is_signed := true; int_size := W8 |}
            (IntegerOps.neg_ {| is_signed := true; int_size := W8 |}
               [# -128; 5]%Z !!! i)
        ∧ IntegerOps.wrap {| is_signed := true; int_size := W8 |}
            ([# -128; 5]%Z !!! i
             + IntegerOps.neg_ {| is_signed := true; int_size := W8 |}
                 [# -128; 5]%Z !!! i) = 0%Z)
  ∧ IntegerOps.neg_ {| is_signed := true; int_size := W8 |}
      (IntegerOps.neg_ {| is_signed := true; int_size := W8 |} [# -128; 5]%Z)
    = [# -128; 5]%Z.
Proof.
  apply (integer_neg_is_wrapping_negation {| is_signed := true; int_size := W8 |}
           [# -128; 5]%Z).
  intros i.
  inv_fin i; [vm_compute; split; [discriminate | reflexivity]|]. intros i.
  inv_fin i; [vm_compute; split; [discriminate | reflexivity]|]. intros i.
  inv_fin i.
Defined.

(** ** The sign bit of a [float] lane *)

Section SignBitFacts.
Local Open Scope Z_scope.

Lemma testbit_sign_bit n : 0 <= n → Z.testbit Float32.sign_bit n = (31 =? n).
Proof. intros Hn. change Float32.sign_bit with (2 ^ 31). by apply Z.pow2_bits_eqb. Qed.

Lemma exponent_field_flip x :
  Float32.exponent_field (Z.lxor x Float32.sign_bit) = Float32.exponent_field x.
Proof.
  unfold Float32.exponent_field. apply Z.bits_inj'. intros n Hn.
  rewrite !Z.land_spec, !Z.shiftr_spec, Z.lxor_spec, testbit_sign_bit by lia.
  change 255 with (Z.ones 8).
  destruct (Z.lt_ge_cases n 8).
  - destruct (Z.eqb_spec 31 (n + 23)); [lia|]. by rewrite xorb_false_r.
  - rewrite Z.ones_spec_high by lia. by rewrite !andb_false_r.
Qed.

Lemma mantissa_field_flip x :
  Float32.mantissa_field (Z.lxor x Float32.sign_bit) = Float32.mantissa_field x.
Proof.
  unfold Float32.mantissa_field. apply Z.bits_inj'. intros n Hn.
  rewrite !Z.land_spec, Z.lxor_spec, testbit_sign_bit by lia.
  change 8388607 with (Z.ones 23).
  destruct (Z.lt_ge_cases n 23).
  - destruct (Z.eqb_spec 31 n); [lia|]. by rewrite xorb_false_r.
  - rewrite Z.ones_spec_high by lia. by rewrite !andb_false_r.
Qed.

Lemma sign_flip x :
  Z.testbit (Z.lxor x Float32.sign_bit) 31 = negb (Z.testbit x 31).
Proof.
  rewrite Z.lxor_spec, testbit_sign_bit by lia. simpl. apply xorb_true_r.
Qed.

Lemma abs_flip x : Float32.abs (Z.lxor x Float32.sign_bit) = Float32.abs x.
Proof.
  unfold Float32.abs. apply Z.bits_inj'. intros n Hn.
  rewrite !Z.land_spec, Z.lxor_spec, testbit_sign_bit by lia.
  change 2147483647 with (Z.ones 31).
  destruct (Z.lt_ge_cases n 31).
  - destruct (Z.eqb_spec 31 n); [lia|]. by rewrite xorb_false_r.
  - rewrite Z.ones_spec_high by lia. by rewrite !andb_false_r.
Qed.

(** Flipping the sign bit of a pattern negates the value it encodes. *)
Lemma to_spec_flip x :
  Float32.to_spec (Z.lxor x Float32.sign_bit) = SFopp (Float32.to_spec x).
Proof.
  unfold Float32.to_spec.
  rewrite exponent_field_flip, mantissa_field_flip, sign_flip. cbv zeta.
  destruct (_ =? 0); [by destruct (Float32.mantissa_field x)|].
  destruct (_ =? 255); [by destruct (Float32.mantissa_field x)|].
  by destruct (_ + _).
Qed.
End SignBitFacts.

(** X6. On [float] lanes [neg_] (XOR with the pattern of [-0.f]) negates the
    value each lane encodes, whatever its class (zero, finite, infinite or
    NaN), and applying [neg_] or [not_] twice gives the array back. *)
Theorem float_neg_negates {Size : nat} (v : vec Z Size) :
  (∀ i, Float32.to_spec (StaticArrayBaseFloat.neg_ v !!! i)
        = SFopp (Float32.to_spec (v !!! i)))
  ∧ StaticArrayBaseFloat.neg_ (StaticArrayBaseFloat.neg_ v) = v
  ∧ StaticArrayBaseFloat.not_ (StaticArrayBaseFloat.not_ v) = v.
Proof.
  unfold StaticArrayBaseFloat.neg_, StaticArrayBaseFloat.not_, FloatArray.bxor,
    FloatArray.bc.
  split; [|split].
  - intros i. rewrite vlookup_zip_with, vlookup_replicate. apply to_spec_flip.
  - apply vec_eq; intros i. rewrite !vlookup_zip_with, !vlookup_replicate.
    by rewrite Z.lxor_assoc, Z.lxor_nilpotent, Z.lxor_0_r.
  - apply vec_eq; intros i. rewrite !vlookup_zip_with, !vlookup_replicate.
    by rewrite Z.lxor_assoc, Z.lxor_nilpotent, Z.lxor_0_r.
Qed.


(** ** [isnan_], [isinf_] and [isfinite_] *)

Section ClassifyFacts.
Local Open Scope Z_scope.

Lemma abs_abs x : Float32.abs (Float32.abs x) = Float32.abs x.
Proof.
  unfold Float32.abs. rewrite <- Z.land_assoc. f_equal.
Qed.

Lemma abs_range x : 0 <= Float32.abs x < 2 ^ 31.
Proof.
  unfold Float32.abs. change 2147483647 with (Z.ones 31).
  rewrite Z.land_ones by lia. apply Z.mod_pos_bound. lia.
Qed.

Lemma testbit_31_abs x : Z.testbit (Float32.abs x) 31 = false.
Proof. apply (testbit_above 31); [apply abs_range | lia]. Qed.

Lemma ord_key_abs x : Float32.ord_key (Float32.abs x) = Float32.abs x.
Proof. unfold Float32.ord_key. by rewrite testbit_31_abs, abs_abs. Qed.

Lemma is_nan_abs x : Float32.is_nan (Float32.abs x) = Float32.is_nan x.
Proof. unfold Float32.is_nan. by rewrite abs_abs. Qed.

(** The pattern test [is_nan] recognises exactly the patterns that decode
    to a NaN. *)
Lemma is_nan_to_spec x :
  Float32.is_nan x = true ↔ Float32.to_spec x = S754_nan.
Proof.
  unfold Float32.is_nan, Float32.to_spec, Float32.infinity.
  destruct (abs_fields x) as (-> & He & Hm).
  change (2 ^ 23) with 8388608 in *. cbv zeta.
  rewrite Z.ltb_lt.
  destruct (Z.eqb_spec (Float32.exponent_field x) 0) as [E0|E0].
  { destruct (Float32.mantissa_field x); (split; [lia | discriminate]). }
  destruct (Z.eqb_spec (Float32.exponent_field x) 255) as [E1|E1].
  { rewrite E1. destruct (Float32.mantissa_field x); (split; [try lia; done | try discriminate; lia]). }
  destruct (Float32.mantissa_field x + 8388608) eqn:E;
    (split; [lia | try discriminate; lia]).
Qed.

Lemma abs_infinity_to_spec x :
  Float32.abs x = Float32.infinity ↔ ∃ s, Float32.to_spec x = S754_infinity s.
Proof.
  unfold Float32.to_spec, Float32.infinity.
  destruct (abs_fields x) as (-> & He & Hm).
  change (2 ^ 23) with 8388608 in *. cbv zeta.
  destruct (Z.eqb_spec (Float32.exponent_field x) 0) as [E0|E0].
  { destruct (Float32.mantissa_field x);
      (split; [lia | intros [s Hs]; discriminate]). }
  destruct (Z.eqb_spec (Float32.exponent_field x) 255) as [E1|E1].
  { rewrite E1. destruct (Float32.mantissa_field x);
      (split; [try lia; eauto | try (intros [s Hs]; discriminate); lia]). }
  destruct (Float32.mantissa_field x + 8388608) eqn:E;
    (split; [lia | intros [s Hs]; discriminate]).
Qed.
End ClassifyFacts.

Section ClassifyLanes.
Import FloatArray.
Context {Size : nat}.
Local Open Scope Z_scope.
Implicit Types (d : vec Z Size) (i : fin Size).

Lemma lookup_isnan d i : FloatTests.isnan_ d !!! i = Float32.is_nan (d !!! i).
Proof.
  unfold FloatTests.isnan_. rewrite lookup_mnot, lookup_feq, eq_ord_key.
  rewrite orb_diag, Z.eqb_refl, andb_true_r. apply negb_involutive.
Qed.

Lemma lookup_isinf d i :
  FloatTests.isinf_ d !!! i = (Float32.abs (d !!! i) =? Float32.infinity).
Proof.
  unfold FloatTests.isinf_.
  rewrite lookup_feq, lookup_abs, lookup_bc, eq_ord_key, is_nan_abs, ord_key_abs.
  change (Float32.is_nan Float32.infinity) with false.
  change (Float32.ord_key Float32.infinity) with Float32.infinity.
  rewrite orb_false_r. unfold Float32.is_nan.
  destruct (Z.ltb_spec Float32.infinity (Float32.abs (d !!! i))); simpl; [|done].
  symmetry. apply Z.eqb_neq. lia.
Qed.

Lemma lookup_isfinite d i :
  FloatTests.isfinite_ d !!! i = (Float32.abs (d !!! i) <? FloatTests.float_max).
Proof.
  unfold FloatTests.isfinite_.
  rewrite lookup_flt, lookup_abs, lookup_bc, lt_ord_key, is_nan_abs, ord_key_abs.
  change (Float32.is_nan FloatTests.float_max) with false.
  change (Float32.ord_key FloatTests.float_max) with FloatTests.float_max.
  rewrite orb_false_r. unfold Float32.is_nan, Float32.infinity, FloatTests.float_max.
  destruct (Z.ltb_spec 2139095040 (Float32.abs (d !!! i))); simpl; [|done].
  symmetry. apply Z.ltb_ge. lia.
Qed.
End ClassifyLanes.

(** X7. [isnan_] marks exactly the lanes whose pattern decodes to a NaN, and
    [isinf_] exactly those that decode to an infinity of either sign. *)
Theorem isnan_isinf_decide_the_class {Size : nat} (v : vec Z Size) (i : fin Size) :
  (FloatTests.isnan_ v !!! i = true ↔ Float32.to_spec (v !!! i) = S754_nan)
  ∧ (FloatTests.isinf_ v !!! i = true
     ↔ ∃ s, Float32.to_spec (v !!! i) = S754_infinity s).
Proof.
  rewrite lookup_isnan, lookup_isinf. split.
  - apply is_nan_to_spec.
  - rewrite Z.eqb_eq. apply abs_infinity_to_spec.
Qed.

(** X8. No lane passes two of the three tests, and the lanes that pass none
    are exactly those holding [+/-numeric_limits<float>::max()]: [isfinite_]
    compares with [<], so the largest finite value is not reported finite. *)
Theorem isfinite_excludes_float_max {Size : nat} (v : vec Z Size) (i : fin Size) :
  let nan := FloatTests.isnan_ v !!! i in
  let inf := FloatTests.isinf_ v !!! i in
  let fin := FloatTests.isfinite_ v !!! i in
  nan && inf = false ∧ nan && fin = false ∧ inf && fin = false
  ∧ (nan || inf || fin = false ↔ Float32.abs (v !!! i) = FloatTests.float_max).
Proof.
  cbv zeta. rewrite lookup_isnan, lookup_isinf, lookup_isfinite.
  unfold Float32.is_nan, Float32.infinity, FloatTests.float_max.
  destruct (Z.ltb_spec 2139095040 (Float32.abs (v !!! i)));
  destruct (Z.eqb_spec (Float32.abs (v !!! i)) 2139095040);
  destruct (Z.ltb_spec (Float32.abs (v !!! i)) 2139095039);
  simpl; repeat split; try done; try lia.
Qed.


(** ** Masked operators, lane by lane *)

(** X9. A masked compound operator whose expression has a value in every
    lane (always, but for [div], which needs every quotient to be defined)
    changes no lane whose mask is false and gives the lanes whose mask is
    true the value of the unmasked operator; applying it under a mask and
    then under the negated mask updates every lane exactly once: the result
    is that of the unmasked operator.  A masked [div] with an undefined
    quotient in some lane has no result under any mask. *)
Theorem masked_operator_frame_and_complement {Value : Type} {Size : nat}
    (add sub mul : Value → Value → Value) (div : Value → Value → option Value)
    (and or xor : Value → Value → Value)
    (op : StaticArrayBase.compound_operator)
    (v e : vec Value Size) (m : vec bool Size) :
  let apply := StaticArrayBase.MaskWrapper_apply add sub mul div and or xor in
  ((op = StaticArrayBase.op_div → ∀ i, is_Some (div (v !!! i) (e !!! i))) →
   ∃ r d1,
     StaticArrayBase.unmasked add sub mul div and or xor op v e = Return r
     ∧ apply op {| StaticArrayBase.d := v; StaticArrayBase.m := m |} e
       = Return d1
     ∧ (∀ i, d1 !!! i = if (m !!! i : bool) then r !!! i else v !!! i)
     ∧ ((op = StaticArrayBase.op_div →
         ∀ i, is_Some (div (d1 !!! i) (e !!! i))) →
        apply op {| StaticArrayBase.d := d1;
                    StaticArrayBase.m := vmap negb m |} e
          = Return r))
  ∧ (op = StaticArrayBase.op_div → (∃ i, div (v !!! i) (e !!! i) = None) →
     apply op {| StaticArrayBase.d := v; StaticArrayBase.m := m |} e
       = Undefined).
Proof.
  intros apply. subst apply. split.
  - intros H.
    destruct (unmasked_defined add sub mul div and or xor op v e H)
      as [r Hr].
    exists r, (select m r v). rewrite masked_apply_unmasked, Hr.
    split; [done|]. split; [done|]. split.
    + intros i. by rewrite lookup_select.
    + intros H2.
      destruct (unmasked_defined add sub mul div and or xor op _ e H2)
        as [r2 Hr2].
      rewrite masked_apply_unmasked, Hr2. f_equal.
      apply vec_eq. intros i. rewrite lookup_select, vlookup_map.
      destruct (m !!! i) eqn:Hm; simpl.
      * by rewrite lookup_select, Hm.
      * symmetry.
        apply (unmasked_lane add sub mul div and or xor op v _ e r r2 i Hr Hr2).
        by rewrite lookup_select, Hm.
  - intros -> [i Hi]. rewrite masked_apply_unmasked.
    by rewrite (unmasked_undefined add sub mul div and or xor v e i Hi).
Qed.

Lemma masked_operator_frame_and_complement_witness :
  (∃ r d1,
     StaticArrayBase.unmasked
         (IntegerOps.add IntegerOps.int32_t) (IntegerOps.sub IntegerOps.int32_t)
         (IntegerOps.mul IntegerOps.int32_t) (IntegerOps.div IntegerOps.int32_t)
         Z.land Z.lor Z.lxor
         StaticArrayBase.op_div [# 7; -7; 9]%Z [# 2; 2; 3]%Z
       = Return r
     ∧ StaticArrayBase.MaskWrapper_apply
         (IntegerOps.add IntegerOps.int32_t) (IntegerOps.sub IntegerOps.int32_t)
         (IntegerOps.mul IntegerOps.int32_t) (IntegerOps.div IntegerOps.int32_t)
         Z.land Z.lor Z.lxor
         StaticArrayBase.op_div
         {| StaticArrayBase.d := [# 7; -7; 9]%Z;
            StaticArrayBase.m := [# true; false; true] |}
         [# 2; 2; 3]%Z
       = Return d1
     ∧ d1 = [# 3; -7; 3]%Z
     ∧ StaticArrayBase.MaskWrapper_apply
         (IntegerOps.add IntegerOps.int32_t) (IntegerOps.sub IntegerOps.int32_t)
         (IntegerOps.mul IntegerOps.int32_t) (IntegerOps.div IntegerOps.int32_t)
         Z.land Z.lor Z.lxor
         StaticArrayBase.op_div
         {| StaticArrayBase.d := d1;
            StaticArrayBase.m := vmap negb [# true; false; true] |}
         [# 2; 2; 3]%Z
       = Return r)
  ∧ StaticArrayBase.MaskWrapper_apply
      (IntegerOps.add IntegerOps.int32_t) (IntegerOps.sub IntegerOps.int32_t)
      (IntegerOps.mul IntegerOps.int32_t) (IntegerOps.div IntegerOps.int32_t)
      Z.land Z.lor Z.lxor
      StaticArrayBase.op_div
      {| StaticArrayBase.d := [# 7; -7; 9]%Z;
         StaticArrayBase.m := [# true; false; true] |}
      [# 2; 0; 3]%Z
    = Undefined.
Proof.
  split.
  - destruct (proj1 (masked_operator_frame_and_complement
                       (IntegerOps.add IntegerOps.int32_t)
                       (IntegerOps.sub IntegerOps.int32_t)
                       (IntegerOps.mul IntegerOps.int32_t)
                       (IntegerOps.div IntegerOps.int32_t)
                       Z.land Z.lor Z.lxor StaticArrayBase.op_div
                       [# 7; -7; 9]%Z [# 2; 2; 3]%Z [# true; false; true]))
      as (r & d1 & Hr & Hd & Hl & Hc).
    + intros _ i. inv_fin i; [vm_compute; by eexists|]. intros i.
      inv_fin i; [vm_compute; by eexists|]. intros i.
      inv_fin i; [vm_compute; by eexists|]. intros i. inv_fin i.
    + assert (d1 = [# 3; -7; 3]%Z) as Hd1
        by (vm_compute in Hd; by injection Hd).
      exists r, d1. split; [exact Hr|]. split; [exact Hd|].
      split; [exact Hd1|]. apply Hc. rewrite Hd1.
      intros _ i. inv_fin i; [vm_compute; by eexists|]. intros i.
      inv_fin i; [vm_compute; by eexists|]. intros i.
      inv_fin i; [vm_compute; by eexists|]. intros i. inv_fin i.
  - apply (proj2 (masked_operator_frame_and_complement
                    (IntegerOps.add IntegerOps.int32_t)
                    (IntegerOps.sub IntegerOps.int32_t)
                    (IntegerOps.mul IntegerOps.int32_t)
                    (IntegerOps.div IntegerOps.int32_t)
                    Z.land Z.lor Z.lxor StaticArrayBase.op_div
                    [# 7; -7; 9]%Z [# 2; 0; 3]%Z [# true; false; true])).
    + reflexivity.
    + exists 1%fin. reflexivity.
Defined.

(** ** Masks as bit patterns *)

Section MaskPatternFacts.
Local Open Scope Z_scope.

Lemma land_all_ones x : Lane32.wf x → Z.land x Lane32.all_ones = x.
Proof.
  intros Hx. change Lane32.all_ones with (Z.ones 32).
  rewrite Z.land_ones by lia. by apply Z.mod_small.
Qed.
End MaskPatternFacts.

(** X10. A mask that enters a bitwise operation through the reinterpreting
    constructor acts as a lane selector: [x & mask] keeps the lanes where
    the mask is true and clears the others, and [x | mask] sets every bit of
    the lanes where the mask is true and keeps the others. *)
Theorem reinterpreted_mask_selects {Size : nat}
    (x : vec Z Size) (m : vec bool Size) :
  (∀ i, Lane32.wf (x !!! i)) →
  FloatArray.band x (FloatArray.reinterpret_array m)
    = select m x FloatArray.zero
  ∧ FloatArray.bor x (FloatArray.reinterpret_array m)
    = select m (FloatArray.bc Lane32.all_ones) x.
Proof.
  intros Hx. unfold FloatArray.band, FloatArray.zero.
  split; apply vec_eq; intros i.
  - rewrite vlookup_zip_with, lookup_reinterpret, lookup_select, lookup_bc.
    destruct (m !!! i); simpl; [by apply land_all_ones | apply Z.land_0_r].
  - rewrite lookup_bor, lookup_reinterpret, lookup_select, lookup_bc.
    destruct (m !!! i); simpl; [by apply lor_all_ones | apply Z.lor_0_r].
Qed.

Lemma reinterpreted_mask_selects_witness :
  FloatArray.band [# 0x40000000; 0x3F800000]%Z
      (FloatArray.reinterpret_array [# true; false])
    = select [# true; false] [# 0x40000000; 0x3F800000]%Z FloatArray.zero
  ∧ FloatArray.bor [# 0x40000000; 0x3F800000]%Z
      (FloatArray.reinterpret_array [# true; false])
    = select [# true; false] (FloatArray.bc Lane32.all_ones)
        [# 0x40000000; 0x3F800000]%Z.
Proof.
  apply (reinterpreted_mask_selects [# 0x40000000; 0x3F800000]%Z [# true; false]).
  intros i.
  inv_fin i; [vm_compute; split; [discriminate | reflexivity]|]. intros i.
  inv_fin i; [vm_compute; split; [discriminate | reflexivity]|]. intros i.
  inv_fin i.
Defined.


(** ** Symmetries of the trigonometric approximations *)

Section SymmetryFacts.
Import FloatArray StaticArrayBaseFloat.
Context {Size : nat}.
Local Open Scope Z_scope.
Implicit Types (d : vec Z Size) (i : fin Size).

Lemma lookup_neg d i : neg_ d !!! i = Z.lxor (d !!! i) Float32.sign_bit.
Proof.
  unfold neg_, bxor, bc. by rewrite vlookup_zip_with, vlookup_replicate.
Qed.

Lemma abs_neg d : abs (neg_ d) = abs d.
Proof.
  apply vec_eq; intros i. rewrite !lookup_abs, lookup_neg. apply abs_flip.
Qed.

Lemma sincos_core_neg d : sincos_core (neg_ d) = sincos_core d.
Proof. unfold sincos_core. by rewrite abs_neg. Qed.

Lemma land_lxor_sign a b :
  Z.land (Z.lxor a (Z.lxor b Float32.sign_bit)) Float32.sign_bit
    = Z.lxor (Z.land (Z.lxor a b) Float32.sign_bit) Float32.sign_bit.
Proof.
  apply Z.bits_inj'. intros n Hn.
  rewrite !Z.land_spec, !Z.lxor_spec, !Z.land_spec, !Z.lxor_spec.
  rewrite testbit_sign_bit by done.
  destruct (31 =? n), (Z.testbit a n), (Z.testbit b n); done.
Qed.

Lemma sign_sin_neg j d : sign_sin j (neg_ d) = neg_ (sign_sin j d).
Proof.
  apply vec_eq; intros i. rewrite lookup_neg.
  unfold sign_sin, sign_mask, band, bxor, sli, bc.
  rewrite !vlookup_zip_with, !vlookup_map, !vlookup_replicate, lookup_neg.
  apply land_lxor_sign.
Qed.

(** The sign-magnitude reading under a flip of the sign bit. *)
Lemma is_nan_flip x : Float32.is_nan (Z.lxor x Float32.sign_bit) = Float32.is_nan x.
Proof. unfold Float32.is_nan. by rewrite abs_flip. Qed.

Lemma ord_key_flip x :
  Float32.ord_key (Z.lxor x Float32.sign_bit) = - Float32.ord_key x.
Proof.
  unfold Float32.ord_key. rewrite sign_flip, abs_flip.
  destruct (Z.testbit x 31); simpl; lia.
Qed.

Lemma lt_zero_flip x :
  Float32.lt x 0 || Float32.gt x 0 = true →
  Float32.lt (Z.lxor x Float32.sign_bit) 0 = negb (Float32.lt x 0).
Proof.
  unfold Float32.gt. rewrite !lt_ord_key, is_nan_flip, ord_key_flip.
  change (Float32.is_nan 0) with false. change (Float32.ord_key 0) with 0.
  rewrite !orb_false_r. simpl.
  destruct (Float32.is_nan x); simpl; [discriminate|].
  destruct (Z.ltb_spec (Float32.ord_key x) 0), (Z.ltb_spec 0 (Float32.ord_key x)),
    (Z.ltb_spec (- Float32.ord_key x) 0); simpl; try done; lia.
Qed.

Lemma lt_zero_flip_zero x :
  Float32.abs x = 0 →
  Float32.lt (Z.lxor x Float32.sign_bit) 0 = Float32.lt x 0.
Proof.
  intros Hx. rewrite !lt_ord_key, is_nan_flip, ord_key_flip.
  unfold Float32.ord_key. rewrite Hx. by destruct (Z.testbit x 31).
Qed.
End SymmetryFacts.

(** X11. In approximate mode the sine is exactly odd and the cosine exactly
    even, bit for bit: negating every lane of the argument negates every
    lane of [sin_] and leaves [cos_] unchanged, since the range reduction and
    the polynomials see [abs(x)] only. *)
Theorem sin_odd_cos_even {Size : nat} (L : ScalarMath) (d : vec Z Size) :
  StaticArrayBaseFloat.sin_ true L (StaticArrayBaseFloat.neg_ d)
    = StaticArrayBaseFloat.neg_ (StaticArrayBaseFloat.sin_ true L d)
  ∧ StaticArrayBaseFloat.cos_ true L (StaticArrayBaseFloat.neg_ d)
    = StaticArrayBaseFloat.cos_ true L d.
Proof.
  unfold StaticArrayBaseFloat.sin_, StaticArrayBaseFloat.cos_.
  rewrite sincos_core_neg.
  destruct (StaticArrayBaseFloat.sincos_core d) as [[j s] c].
  split; [|done].
  rewrite sign_sin_neg. apply vec_eq; intros i.
  rewrite lookup_neg. unfold FloatArray.bxor.
  rewrite !vlookup_zip_with, lookup_neg. symmetry. apply Z.lxor_assoc.
Qed.

(** X12. In approximate mode [atan2_] is exactly odd in its first argument
    on every lane whose [y] is neither zero nor NaN, and it ignores the sign
    of a zero [y]: the result for [-0] is the result for [+0]. *)
Theorem atan2_odd_in_y {Size : nat}
    (L : ScalarMath) (y x : vec Z Size) (i : fin Size) :
  (Float32.lt (y !!! i) 0 || Float32.gt (y !!! i) 0 = true →
   StaticArrayBaseFloat.atan2_ true L (StaticArrayBaseFloat.neg_ y) x !!! i
     = StaticArrayBaseFloat.neg_ (StaticArrayBaseFloat.atan2_ true L y x) !!! i)
  ∧ (Float32.abs (y !!! i) = 0%Z →
     StaticArrayBaseFloat.atan2_ true L (StaticArrayBaseFloat.neg_ y) x !!! i
       = StaticArrayBaseFloat.atan2_ true L y x !!! i).
Proof.
  unfold StaticArrayBaseFloat.atan2_. cbv beta iota zeta.
  rewrite abs_neg.
  match goal with
  | |- context [select (FloatArray.flt y FloatArray.zero)
                  (StaticArrayBaseFloat.neg_ ?t) ?t] => generalize t
  end.
  intros t. rewrite lookup_neg, !lookup_select, !lookup_flt, !lookup_neg.
  unfold FloatArray.zero. rewrite lookup_bc.
  split; intros H.
  - rewrite (lt_zero_flip _ H).
    destruct (Float32.lt (y !!! i) 0); simpl; [|done].
    by rewrite Z.lxor_assoc, Z.lxor_nilpotent, Z.lxor_0_r.
  - by rewrite (lt_zero_flip_zero _ H).
Qed.

Lemma atan2_odd_in_y_witness :
  StaticArrayBaseFloat.atan2_ true ScalarLib.unavailable
      (StaticArrayBaseFloat.neg_ [# Literal.to_float "2"; 0%Z])
      [# Literal.to_float "-1"; Literal.to_float "-1"] !!! 0%fin
    = StaticArrayBaseFloat.neg_
        (StaticArrayBaseFloat.atan2_ true ScalarLib.unavailable
           [# Literal.to_float "2"; 0%Z]
           [# Literal.to_float "-1"; Literal.to_float "-1"]) !!! 0%fin
  ∧ StaticArrayBaseFloat.atan2_ true ScalarLib.unavailable
      (StaticArrayBaseFloat.neg_ [# Literal.to_float "2"; 0%Z])
      [# Literal.to_float "-1"; Literal.to_float "-1"] !!! 1%fin
    = StaticArrayBaseFloat.atan2_ true ScalarLib.unavailable
        [# Literal.to_float "2"; 0%Z]
        [# Literal.to_float "-1"; Literal.to_float "-1"] !!! 1%fin.
Proof.
  split.
  - apply (proj1 (atan2_odd_in_y ScalarLib.unavailable
                    [# Literal.to_float "2"; 0%Z]
                    [# Literal.to_float "-1"; Literal.to_float "-1"] 0%fin)).
    vm_compute. reflexivity.
  - apply (proj2 (atan2_odd_in_y ScalarLib.unavailable
                    [# Literal.to_float "2"; 0%Z]
                    [# Literal.to_float "-1"; Literal.to_float "-1"] 1%fin)).
    vm_compute. reflexivity.
Defined.


(** ** NaN lanes in approximate mode *)

Section NanFacts.
Local Open Scope Z_scope.

Lemma of_spec_nan : Float32.of_spec S754_nan = ScalarLib.quiet_nan.
Proof. reflexivity. Qed.

Lemma to_spec_quiet_nan : Float32.to_spec ScalarLib.quiet_nan = S754_nan.
Proof. reflexivity. Qed.

Lemma sub_nan_l x y :
  Float32.to_spec x = S754_nan → Float32.to_spec (Float32.sub x y) = S754_nan.
Proof. unfold Float32.sub. by intros ->. Qed.

Lemma add_nan_l x y :
  Float32.to_spec x = S754_nan → Float32.to_spec (Float32.add x y) = S754_nan.
Proof. unfold Float32.add. by intros ->. Qed.

Lemma add_nan_r x y :
  Float32.to_spec y = S754_nan → Float32.to_spec (Float32.add x y) = S754_nan.
Proof. unfold Float32.add. intros ->. by destruct (Float32.to_spec x). Qed.

Lemma mul_nan_l x y :
  Float32.to_spec x = S754_nan → Float32.to_spec (Float32.mul x y) = S754_nan.
Proof. unfold Float32.mul. by intros ->. Qed.

Lemma nan_not_lt x y : Float32.is_nan x = true → Float32.lt x y = false.
Proof. intros H. by rewrite lt_ord_key, H. Qed.

Lemma nan_not_gt x y : Float32.is_nan x = true → Float32.gt x y = false.
Proof. intros H. unfold Float32.gt. by rewrite lt_ord_key, H, orb_true_r. Qed.

Lemma nan_not_ge x y : Float32.is_nan x = true → Float32.ge x y = false.
Proof. intros H. unfold Float32.ge. by rewrite le_ord_key, H, orb_true_r. Qed.

Lemma nan_not_eq x y : Float32.is_nan x = true → Float32.eq x y = false.
Proof. intros H. by rewrite eq_ord_key, H. Qed.
End NanFacts.

Section NanLanes.
Import FloatArray StaticArrayBaseFloat.
Context {Size : nat}.
Variable L : ScalarMath.
Implicit Types (d : vec Z Size) (i : fin Size).

Lemma exp_nan_lane d i :
  Float32.is_nan (d !!! i) = true →
  Float32.is_nan (exp_ true L d !!! i) = true.
Proof.
  intros H. rewrite exp_lane, (nan_not_gt _ _ H), (nan_not_lt _ _ H).
  apply is_nan_to_spec. apply is_nan_to_spec in H.
  unfold ldexp_, exp_poly. cbv beta iota zeta. cbn [fst snd].
  rewrite lookup_fmul. apply mul_nan_l.
  rewrite lookup_fadd. apply add_nan_r.
  rewrite lookup_fadd. apply add_nan_l.
  rewrite lookup_fsub. apply sub_nan_l.
  rewrite lookup_fsub. by apply sub_nan_l.
Qed.

Lemma log_nan_lane d i :
  Float32.is_nan (d !!! i) = true → log_ true L d !!! i = Lane32.all_ones.
Proof.
  intros H. destruct (log_lane L d i) as (z & Hz & ->).
  rewrite (nan_not_eq _ _ H), (nan_not_ge _ _ H). simpl.
  by apply lor_all_ones.
Qed.

Lemma pow_negative_base_lane d y i :
  Float32.lt (d !!! i) (Literal.to_float "0") = true →
  Float32.is_nan (pow_ true L d y !!! i) = true.
Proof.
  intros H. unfold pow_. apply exp_nan_lane.
  apply is_nan_to_spec. rewrite lookup_fmul. apply mul_nan_l.
  by rewrite (log_negative_lane L d i H).
Qed.
End NanLanes.

(** X13. In approximate mode a NaN lane stays a NaN: [exp_] returns a NaN
    for it (neither saturation test fires, and the polynomial carries the
    NaN through), and [log_] flags it invalid with the all-ones pattern,
    as it does a negative lane. *)
Theorem nan_lanes_propagate {Size : nat}
    (L : ScalarMath) (d : vec Z Size) (i : fin Size) :
  Float32.is_nan (d !!! i) = true →
  Float32.is_nan (StaticArrayBaseFloat.exp_ true L d !!! i) = true
  ∧ StaticArrayBaseFloat.log_ true L d !!! i = Lane32.all_ones.
Proof.
  intros H. split; [by apply exp_nan_lane | by apply log_nan_lane].
Qed.

Lemma nan_lanes_propagate_witness :
  Float32.is_nan
    (StaticArrayBaseFloat.exp_ true ScalarLib.unavailable
       [# Literal.to_float "1"; ScalarLib.quiet_nan] !!! 1%fin) = true
  ∧ StaticArrayBaseFloat.log_ true ScalarLib.unavailable
      [# Literal.to_float "1"; ScalarLib.quiet_nan] !!! 1%fin = Lane32.all_ones.
Proof.
  apply (nan_lanes_propagate ScalarLib.unavailable
           [# Literal.to_float "1"; ScalarLib.quiet_nan] 1%fin).
  reflexivity.
Defined.

(** X14. In approximate mode [pow_] is [exp(log(x) * y)], so a negative base
    gives a NaN for every exponent, whole numbers included (where the
    scalar [pow] has a value). *)
Theorem pow_of_negative_base_is_nan {Size : nat}
    (L : ScalarMath) (d y : vec Z Size) (i : fin Size) :
  Float32.lt (d !!! i) (Literal.to_float "0") = true →
  Float32.is_nan (StaticArrayBaseFloat.pow_ true L d y !!! i) = true.
Proof. apply pow_negative_base_lane. Qed.

Lemma pow_of_negative_base_is_nan_witness :
  Float32.is_nan
    (StaticArrayBaseFloat.pow_ true ScalarLib.unavailable
       [# Literal.to_float "-2"] [# Literal.to_float "2"] !!! 0%fin) = true.
Proof.
  apply (pow_of_negative_base_is_nan ScalarLib.unavailable
           [# Literal.to_float "-2"] [# Literal.to_float "2"] 0%fin).
  vm_compute. reflexivity.
Defined.


(** ** The lanes of an approximation as scalar expressions *)

Lemma lookup_one {A : Type} (x : A) : [# x] !!! (0%fin : fin 1) = x.
Proof. reflexivity. Qed.

(** Rewrites the lane of an array expression into the scalar expression
    over the lanes of its arguments. *)
Ltac push_lanes :=
  unfold StaticArrayBaseFloat.fmadd_, StaticArrayBaseFloat.fmsub_,
    StaticArrayBaseFloat.rcp_, StaticArrayBaseFloat.neg_,
    StaticArrayBaseFloat.F, select,
    FloatArray.fadd, FloatArray.fsub, FloatArray.fmul, FloatArray.fdiv,
    FloatArray.band, FloatArray.bor, FloatArray.bxor,
    FloatArray.flt, FloatArray.fgt, FloatArray.fge, FloatArray.feq,
    FloatArray.fneq, FloatArray.abs, FloatArray.sqrt, FloatArray.floor,
    FloatArray.max, FloatArray.min, FloatArray.sign_mask,
    FloatArray.to_int, FloatArray.of_int, FloatArray.iadd, FloatArray.isub,
    FloatArray.inot, FloatArray.sli, FloatArray.sri, FloatArray.ieq,
    FloatArray.ineq, FloatArray.mand, FloatArray.mnot,
    FloatArray.reinterpret_array, FloatArray.zero, FloatArray.bc;
  repeat (progress (rewrite ?vlookup_zip_with, ?vlookup_map, ?vlookup_replicate,
                      ?lookup_fun_to_vec, ?lookup_one)).

Section LogClamp.
Import FloatArray StaticArrayBaseFloat.
Context {Size : nat}.
Variable L : ScalarMath.
Local Open Scope Z_scope.

Lemma max_below x c : Float32.lt x c = true → Float32.max x c = c.
Proof. unfold Float32.max. by intros ->. Qed.

Lemma below_min_normal_not_infinity x :
  Float32.lt x 0x00800000 = true → Float32.eq x Float32.infinity = false.
Proof.
  intros H. apply (lt_lt_not_eq x 0x00800000 Float32.infinity H). reflexivity.
Qed.

Lemma log_clamp_lane (d : vec Z Size) (i : fin Size) :
  Float32.ge (d !!! i) (Literal.to_float "0") = true →
  Float32.lt (d !!! i) 0x00800000 = true →
  log_ true L d !!! i = log_ true L [# 0x00800000] !!! 0%fin.
Proof.
  intros Hge Hlt. unfold log_, frexp_. cbv beta iota zeta. push_lanes.
  rewrite (max_below _ _ Hlt), Hge, (below_min_normal_not_infinity _ Hlt).
  change (Float32.max 8388608 8388608) with 8388608.
  change (Float32.ge 8388608 (Literal.to_float "0")) with true.
  change (Float32.eq 8388608 Float32.infinity) with false.
  reflexivity.
Qed.
End LogClamp.

(** X15. In approximate mode [log_] cuts zero and the denormals off at the
    smallest normal value before taking the logarithm: every lane with
    [0 <= x < FLT_MIN], both zeros included, gives [log(FLT_MIN)], the finite
    value [0xC2AEAC50] (about -87.34), and not minus infinity. *)
Theorem log_of_zero_and_denormals {Size : nat}
    (L : ScalarMath) (d : vec Z Size) (i : fin Size) :
  Float32.ge (d !!! i) (Literal.to_float "0") = true →
  Float32.lt (d !!! i) 0x00800000 = true →
  StaticArrayBaseFloat.log_ true L d !!! i = 0xC2AEAC50%Z.
Proof.
  intros Hge Hlt. rewrite (log_clamp_lane L d i Hge Hlt).
  vm_compute. reflexivity.
Qed.

Lemma log_of_zero_and_denormals_witness :
  StaticArrayBaseFloat.log_ true ScalarLib.unavailable
      [# 0; 0x80000000; 0x00000001]%Z !!! 1%fin = 0xC2AEAC50%Z
  ∧ StaticArrayBaseFloat.log_ true ScalarLib.unavailable
      [# 0; 0x80000000; 0x00000001]%Z !!! 2%fin = 0xC2AEAC50%Z.
Proof.
  split.
  - apply (log_of_zero_and_denormals ScalarLib.unavailable
             [# 0; 0x80000000; 0x00000001]%Z 1%fin); vm_compute; reflexivity.
  - apply (log_of_zero_and_denormals ScalarLib.unavailable
             [# 0; 0x80000000; 0x00000001]%Z 2%fin); vm_compute; reflexivity.
Defined.


(** ** The fields of a pattern *)

Section FieldFacts.
Local Open Scope Z_scope.

Ltac cases_on_comparisons :=
  repeat match goal with
         | |- context [Z.ltb ?a ?b] => destruct (Z.ltb_spec a b)
         | |- context [Z.leb ?a ?b] => destruct (Z.leb_spec a b)
         | |- context [Z.eqb ?a ?b] => destruct (Z.eqb_spec a b)
         end;
  simpl; rewrite ?andb_true_r, ?andb_false_r, ?orb_true_r, ?orb_false_r;
  try reflexivity; try lia.

Lemma testbit_ones_range k n :
  0 <= k → Z.testbit (Z.ones k) n = (0 <=? n) && (n <? k).
Proof. intros Hk. by apply Z.testbit_ones. Qed.

Lemma testbit_exponent_mask n :
  Z.testbit 0x7f800000 n = (23 <=? n) && (n <? 31).
Proof.
  change 0x7f800000 with (Z.shiftl (Z.ones 8) 23).
  destruct (Z.lt_ge_cases n 0) as [Hn|Hn].
  { rewrite Z.testbit_neg_r by done. cases_on_comparisons. }
  rewrite Z.shiftl_spec, testbit_ones_range by lia. cases_on_comparisons.
Qed.

Lemma testbit_mantissa_sign_mask n :
  Z.testbit 0x807fffff n = ((0 <=? n) && (n <? 23)) || (n =? 31).
Proof.
  change 0x807fffff with (Z.lor (Z.ones 23) (2 ^ 31)).
  destruct (Z.lt_ge_cases n 0) as [Hn|Hn].
  { rewrite Z.testbit_neg_r by done. cases_on_comparisons. }
  rewrite Z.lor_spec, testbit_ones_range, Z.pow2_bits_eqb by lia.
  cases_on_comparisons.
Qed.

Lemma testbit_half n : Z.testbit 0x3f000000 n = (24 <=? n) && (n <? 30).
Proof.
  change 0x3f000000 with (Z.shiftl (Z.ones 6) 24).
  destruct (Z.lt_ge_cases n 0) as [Hn|Hn].
  { rewrite Z.testbit_neg_r by done. cases_on_comparisons. }
  rewrite Z.shiftl_spec, testbit_ones_range by lia. cases_on_comparisons.
Qed.

Lemma testbit_exponent_field x n :
  0 <= n → Z.testbit (Float32.exponent_field x) n = Z.testbit x (n + 23) && (n <? 8).
Proof.
  intros Hn. unfold Float32.exponent_field. change 255 with (Z.ones 8).
  rewrite Z.land_spec, Z.shiftr_spec, testbit_ones_range by lia.
  cases_on_comparisons.
Qed.

Lemma testbit_mantissa_field x n :
  0 <= n → Z.testbit (Float32.mantissa_field x) n = Z.testbit x n && (n <? 23).
Proof.
  intros Hn. unfold Float32.mantissa_field. change 8388607 with (Z.ones 23).
  rewrite Z.land_spec, testbit_ones_range by lia. cases_on_comparisons.
Qed.

(** The exponent bits in place: [x & 0x7f800000]. *)
Lemma land_exponent_mask x :
  Z.land x 0x7f800000 = Float32.exponent_field x * 2 ^ 23.
Proof.
  apply Z.bits_inj'. intros n Hn.
  rewrite Z.land_spec, testbit_exponent_mask, Z.mul_pow2_bits by lia.
  destruct (Z.lt_ge_cases n 23).
  - rewrite (Z.testbit_neg_r _ (n - 23)) by lia. cases_on_comparisons.
  - rewrite testbit_exponent_field by lia.
    replace (n - 23 + 23) with n by lia. cases_on_comparisons.
Qed.

(** The pattern [frexp_] builds for the fraction: sign and mantissa bits of
    [x] under the exponent bits of one half. *)
Lemma fraction_pattern_fields x :
  let f := Z.lor (Z.land x 0x807fffff) 0x3f000000 in
  Z.testbit f 31 = Z.testbit x 31
  ∧ Float32.exponent_field f = 126
  ∧ Float32.mantissa_field f = Float32.mantissa_field x.
Proof.
  cbv zeta. split; [|split].
  - rewrite Z.lor_spec, Z.land_spec, testbit_mantissa_sign_mask, testbit_half.
    simpl. by rewrite andb_true_r, orb_false_r.
  - apply Z.bits_inj'. intros n Hn.
    rewrite testbit_exponent_field, Z.lor_spec, Z.land_spec,
      testbit_mantissa_sign_mask, testbit_half by done.
    change 126 with (Z.shiftl (Z.ones 6) 1).
    rewrite Z.shiftl_spec, testbit_ones_range by lia.
    destruct (Z.testbit x (n + 23)); cases_on_comparisons.
  - apply Z.bits_inj'. intros n Hn.
    rewrite !testbit_mantissa_field, Z.lor_spec, Z.land_spec,
      testbit_mantissa_sign_mask, testbit_half by done.
    destruct (Z.testbit x n); cases_on_comparisons.
Qed.

(** Decoding a pattern whose exponent field is neither 0 nor 255. *)
Lemma to_spec_normal x :
  1 <= Float32.exponent_field x <= 254 →
  Float32.to_spec x =
    S754_finite (Z.testbit x 31)
      (Z.to_pos (Float32.mantissa_field x + 2 ^ 23))
      (Float32.exponent_field x - 150).
Proof.
  intros He. unfold Float32.to_spec. cbv zeta.
  destruct (abs_fields x) as (_ & _ & Hm).
  destruct (Z.eqb_spec (Float32.exponent_field x) 0); [lia|].
  destruct (Z.eqb_spec (Float32.exponent_field x) 255); [lia|].
  destruct (Float32.mantissa_field x + 2 ^ 23) eqn:E; try lia. done.
Qed.

(** Which lanes [frexp_] treats as normal. *)
Lemma is_normal_lane x :
  Float32.neq x 0 && negb (Z.land x 0x7f800000 =? 0x7f800000)
    = negb (Float32.abs x =? 0) && negb (Float32.exponent_field x =? 255).
Proof.
  unfold Float32.neq. rewrite eq_ord_key, land_exponent_mask.
  change (Float32.is_nan 0) with false. change (Float32.ord_key 0) with 0.
  rewrite orb_false_r. unfold Float32.is_nan, Float32.ord_key, Float32.infinity.
  destruct (abs_fields x) as (Ha & He & Hm). change (2 ^ 23) with 8388608 in *.
  destruct (Z.testbit x 31); cases_on_comparisons.
Qed.
End FieldFacts.

Section FrexpLanes.
Import FloatArray StaticArrayBaseFloat.
Context {Size : nat}.
Variable L : ScalarMath.
Local Open Scope Z_scope.
Implicit Types (d : vec Z Size) (i : fin Size).

Lemma frexp_fraction_lane d i :
  (frexp_ true L d).1 !!! i =
    if negb (Float32.abs (d !!! i) =? 0)
       && negb (Float32.exponent_field (d !!! i) =? 255)
    then Z.lor (Z.land (d !!! i) 0x807fffff) 0x3f000000
    else d !!! i.
Proof.
  unfold frexp_. cbv beta iota zeta. cbn [fst]. push_lanes.
  by rewrite is_normal_lane.
Qed.

Lemma frexp_exponent_lane d i :
  (frexp_ true L d).2 !!! i =
    if negb (Float32.abs (d !!! i) =? 0)
       && negb (Float32.exponent_field (d !!! i) =? 255)
    then Float32.of_int32 (Lane32.wrap (Float32.exponent_field (d !!! i) - 126))
    else 0.
Proof.
  unfold frexp_. cbv beta iota zeta. cbn [snd]. push_lanes.
  rewrite is_normal_lane, land_exponent_mask.
  destruct (abs_fields (d !!! i)) as (_ & He & _).
  assert (Lane32.wrap
            (Z.shiftr (Lane32.signed (Float32.exponent_field (d !!! i) * 2 ^ 23)) 23)
          = Float32.exponent_field (d !!! i)) as ->.
  { unfold Lane32.signed, Lane32.wrap, Lane32.modulus.
    rewrite (testbit_above 31) by lia.
    rewrite (Z.mod_small (_ * _)) by lia.
    rewrite Z.shiftr_div_pow2, Z.div_mul by lia. apply Z.mod_small. lia. }
  destruct (_ && _); simpl.
  - f_equal. apply land_all_ones. unfold Lane32.wf, Lane32.wrap.
    apply Z.mod_pos_bound. unfold Lane32.modulus. lia.
  - by rewrite Z.land_0_r.
Qed.
End FrexpLanes.

(** X16. [frexp_] in approximate mode.  A lane that is a zero, an infinity
    or a NaN comes back unchanged with the exponent [+0].  A normal lane
    [x] (exponent field 1..254) comes back as a fraction with the sign and
    the mantissa of [x] at the binary exponent of [[0.5, 1)], together with
    the exponent that makes up the difference as a [float]. *)
Theorem frexp_splits_normal_lanes {Size : nat}
    (L : ScalarMath) (d : vec Z Size) (i : fin Size) :
  let x := d !!! i in
  let m := (StaticArrayBaseFloat.frexp_ true L d).1 !!! i in
  let e := (StaticArrayBaseFloat.frexp_ true L d).2 !!! i in
  (Float32.abs x = 0%Z ∨ Float32.exponent_field x = 255%Z → m = x ∧ e = 0%Z)
  ∧ ((1 ≤ Float32.exponent_field x ≤ 254)%Z →
     ∃ s p ex,
       Float32.to_spec x = S754_finite s p ex
       ∧ Float32.to_spec m = S754_finite s p (-24)
       ∧ e = Float32.of_int32 (Lane32.wrap (ex + 24))).
Proof.
  cbv zeta. rewrite frexp_fraction_lane, frexp_exponent_lane. split.
  - intros [H|H]; rewrite H; simpl; [done|].
    by rewrite andb_false_r.
  - intros He.
    destruct (abs_fields (d !!! i)) as (Ha & _ & Hm).
    destruct (Z.eqb_spec (Float32.abs (d !!! i)) 0) as [E|_]; [lia|].
    destruct (Z.eqb_spec (Float32.exponent_field (d !!! i)) 255) as [E|_]; [lia|].
    simpl.
    destruct (fraction_pattern_fields (d !!! i)) as (Hs & Hef & Hmf).
    eexists _, _, _. split; [by apply to_spec_normal|]. split.
    + rewrite to_spec_normal by (rewrite Hef; lia).
      by rewrite Hs, Hef, Hmf.
    + do 2 f_equal. lia.
Qed.

Lemma frexp_splits_normal_lanes_witness :
  ((StaticArrayBaseFloat.frexp_ true ScalarLib.unavailable
      [# Float32.infinity; Literal.to_float "-12"]).1 !!! 0%fin = Float32.infinity
   ∧ (StaticArrayBaseFloat.frexp_ true ScalarLib.unavailable
      [# Float32.infinity; Literal.to_float "-12"]).2 !!! 0%fin = 0%Z)
  ∧ ∃ s p ex,
      Float32.to_spec ([# Float32.infinity; Literal.to_float "-12"] !!! 1%fin)
        = S754_finite s p ex
      ∧ Float32.to_spec
          ((StaticArrayBaseFloat.frexp_ true ScalarLib.unavailable
              [# Float32.infinity; Literal.to_float "-12"]).1 !!! 1%fin)
        = S754_finite s p (-24)
      ∧ (StaticArrayBaseFloat.frexp_ true ScalarLib.unavailable
           [# Float32.infinity; Literal.to_float "-12"]).2 !!! 1%fin
        = Float32.of_int32 (Lane32.wrap (ex + 24)).
Proof.
  split.
  - apply (proj1 (frexp_splits_normal_lanes ScalarLib.unavailable
                    [# Float32.infinity; Literal.to_float "-12"] 0%fin)).
    right. reflexivity.
  - apply (proj2 (frexp_splits_normal_lanes ScalarLib.unavailable
                    [# Float32.infinity; Literal.to_float "-12"] 1%fin)).
    vm_compute. split; discriminate.
Defined.


(** ** Scaling by a power of two *)

Section PowerOfTwoFacts.
Local Open Scope Z_scope.

Ltac cases_on_comparisons :=
  repeat match goal with
         | |- context [Z.ltb ?a ?b] => destruct (Z.ltb_spec a b)
         | |- context [Z.leb ?a ?b] => destruct (Z.leb_spec a b)
         | |- context [Z.eqb ?a ?b] => destruct (Z.eqb_spec a b)
         end;
  simpl; rewrite ?andb_true_r, ?andb_false_r, ?orb_true_r, ?orb_false_r;
  try reflexivity; try lia.

(** A pattern is the packing of its three fields. *)
Lemma pack_fields x :
  Lane32.wf x →
  Float32.pack (Z.testbit x 31) (Float32.exponent_field x)
    (Float32.mantissa_field x) = x.
Proof.
  intros Hx. unfold Float32.pack. apply Z.bits_inj'. intros n Hn.
  change 0xFF with (Z.ones 8). change 0x7FFFFF with (Z.ones 23).
  rewrite !Z.lor_spec, Z.land_spec, testbit_ones_range by lia.
  rewrite testbit_mantissa_field by done.
  assert (Z.testbit (if Z.testbit x 31 then Float32.sign_bit else 0) n
          = Z.testbit x 31 && (n =? 31)) as ->.
  { destruct (Z.testbit x 31); simpl; [|apply Z.bits_0].
    change Float32.sign_bit with (2 ^ 31). rewrite Z.pow2_bits_eqb by lia.
    rewrite (Z.eqb_sym 31 n). done. }
  destruct (Z.lt_ge_cases n 23).
  - rewrite Z.shiftl_spec_low by done.
    destruct (Z.testbit x n); cases_on_comparisons.
  - rewrite Z.shiftl_spec, Z.land_spec, testbit_ones_range,
      testbit_exponent_field by lia.
    replace (n - 23 + 23) with n by lia.
    destruct (Z.lt_ge_cases n 32).
    + destruct (Z.eqb_spec n 31) as [->|].
      * destruct (Z.testbit x 31); cases_on_comparisons.
      * destruct (Z.testbit x n), (Z.testbit x 31); cases_on_comparisons.
    + rewrite (testbit_above 32 x n) by (unfold Lane32.wf, Lane32.modulus in Hx; lia).
      destruct (Z.testbit x 31); cases_on_comparisons.
Qed.

Lemma digits2_pos_size p : digits2_pos p = Pos.size p.
Proof. induction p; simpl; by rewrite ?IHp. Qed.

(** A mantissa of a normal number has 24 digits. *)
Lemma digits2_pos_normal p :
  2 ^ 23 <= Zpos p < 2 ^ 24 → digits2_pos p = 24%positive.
Proof.
  intros Hp. rewrite digits2_pos_size.
  pose proof (Pos.size_gt p) as Hgt. pose proof (Pos.size_le p) as Hle.
  apply Pos2Z.pos_lt_pos in Hgt. apply Pos2Z.pos_le_pos in Hle.
  rewrite Pos2Z.inj_pow in Hgt, Hle.
  change (Z.pos p~0) with (2 * Z.pos p) in Hle.
  destruct (Z.lt_trichotomy (Zpos (Pos.size p)) 24) as [H|[H|H]].
  - assert (2 ^ Zpos (Pos.size p) <= 2 ^ 23) by (apply Z.pow_le_mono_r; lia). lia.
  - by injection H.
  - assert (2 ^ 25 <= 2 ^ Zpos (Pos.size p)) by (apply Z.pow_le_mono_r; lia). lia.
Qed.

(** Rounding the product of a 24-digit mantissa with [2^23] is exact while
    the result stays a normal number. *)
Lemma round_scaled_mantissa s p e :
  2 ^ 23 <= Zpos p < 2 ^ 24 → -172 <= e <= 81 →
  binary_round_aux Float32.prec Float32.emax s (Zpos (p * 8388608)) e loc_Exact
    = S754_finite s p (e + 23).
Proof.
  intros Hp He. pose proof (digits2_pos_normal p Hp) as Hd.
  unfold binary_round_aux, shr_fexp.
  rewrite Pos.mul_comm.
  change (8388608 * p)%positive with (p~0~0~0~0~0~0~0~0~0~0~0~0~0~0~0~0~0~0~0~0~0~0~0)%positive.
  unfold Zdigits2. cbn [digits2_pos]. rewrite Hd.
  change (Zpos (Pos.succ _)) with 47.
  assert (fexp Float32.prec Float32.emax (47 + e) - e = 23) as ->.
  { unfold fexp, emin, Float32.prec, Float32.emax. lia. }
  cbn [shr shr_record_of_loc].
  assert (SpecFloat.iter_pos shr_1 23
            {| shr_m := Zpos (p~0~0~0~0~0~0~0~0~0~0~0~0~0~0~0~0~0~0~0~0~0~0~0); shr_r := false; shr_s := false |}
          = {| shr_m := Zpos p; shr_r := false; shr_s := false |}) as ->
    by reflexivity.
  cbn [shr_m loc_of_shr_record round_nearest_even]. rewrite Hd.
  assert (fexp Float32.prec Float32.emax (24 + (e + 23)) - (e + 23) = 0) as ->.
  { unfold fexp, emin, Float32.prec, Float32.emax. lia. }
  cbn [shr shr_m].
  destruct (Z.leb_spec (e + 23) (Float32.emax - Float32.prec)); [done|].
  unfold Float32.emax, Float32.prec in *. lia.
Qed.

(** The pattern with exponent field [k] and nothing else is [2^(k-127)]. *)
Lemma to_spec_power_of_two k :
  1 <= k <= 254 →
  Float32.to_spec (k * 2 ^ 23) = S754_finite false 8388608 (k - 150).
Proof.
  intros Hk.
  assert (Float32.exponent_field (k * 2 ^ 23) = k) as He.
  { unfold Float32.exponent_field. change 0xFF with (Z.ones 8).
    rewrite Z.shiftr_div_pow2, Z.div_mul, Z.land_ones by lia.
    apply Z.mod_small. lia. }
  assert (Float32.mantissa_field (k * 2 ^ 23) = 0) as Hm.
  { unfold Float32.mantissa_field. change 0x7FFFFF with (Z.ones 23).
    rewrite Z.land_ones by lia. apply Z.mod_mul. lia. }
  rewrite to_spec_normal by lia. rewrite He, Hm.
  by rewrite (testbit_above 31) by lia.
Qed.

(** Multiplying a normal number by a power of two is exact while the
    product stays a normal number. *)
Lemma mul_power_of_two x k :
  Lane32.wf x →
  1 <= Float32.exponent_field x <= 254 → 1 <= k <= 254 →
  1 <= Float32.exponent_field x + k - 127 <= 254 →
  Float32.mul x (k * 2 ^ 23)
    = Float32.pack (Z.testbit x 31) (Float32.exponent_field x + k - 127)
        (Float32.mantissa_field x).
Proof.
  intros Hx He Hk Hr. unfold Float32.mul.
  rewrite to_spec_power_of_two, to_spec_normal by done.
  destruct (abs_fields x) as (_ & _ & Hm).
  set (p := Z.to_pos (Float32.mantissa_field x + 2 ^ 23)).
  assert (Zpos p = Float32.mantissa_field x + 2 ^ 23) as Hp
    by (unfold p; rewrite Z2Pos.id; lia).
  unfold SFmul. rewrite xorb_false_r.
  rewrite round_scaled_mantissa by lia.
  unfold Float32.of_spec.
  destruct (Z.ltb_spec (Zpos p) (2 ^ 23)); [lia|].
  f_equal; lia.
Qed.

(** Multiplying a normal number by an infinity gives the infinity of its
    sign. *)
Lemma mul_infinity x :
  1 <= Float32.exponent_field x <= 254 →
  Float32.to_spec (Float32.mul x Float32.infinity)
    = S754_infinity (Z.testbit x 31).
Proof.
  intros He. unfold Float32.mul. rewrite (to_spec_normal x) by done.
  change (Float32.to_spec Float32.infinity) with (S754_infinity false).
  cbn [SFmul]. by destruct (Z.testbit x 31).
Qed.

Lemma range_forallb (P : Z → bool) lo n :
  forallb P (map (λ j, lo + Z.of_nat j) (seq 0 n)) = true →
  ∀ k, lo <= k < lo + Z.of_nat n → P k = true.
Proof.
  intros H k Hk. rewrite forallb_forall in H. apply H.
  apply in_map_iff. exists (Z.to_nat (k - lo)). split; [lia|].
  apply in_seq. lia.
Qed.

(** The exponents [frexp_] produces survive the way through [float] and
    back. *)
Lemma exponent_through_float k :
  -125 <= k <= 128 →
  Float32.to_int32 (Float32.of_int32 (Lane32.wrap k)) = Lane32.wrap k.
Proof.
  intros Hk.
  apply Z.eqb_eq.
  apply (range_forallb
           (λ k, Float32.to_int32 (Float32.of_int32 (Lane32.wrap k))
                 =? Lane32.wrap k) (-125) 254); [|lia].
  by vm_compute.
Qed.
End PowerOfTwoFacts.

Section LdexpLanes.
Import FloatArray StaticArrayBaseFloat.
Context {Size : nat}.
Variable L : ScalarMath.
Local Open Scope Z_scope.
Implicit Types (d n : vec Z Size) (i : fin Size).

Lemma ldexp_lane d n i :
  ldexp_ true L d n !!! i =
    Float32.mul (d !!! i)
      (Lane32.wrap (Z.shiftl (Lane32.wrap (Float32.to_int32 (n !!! i) + 0x7f)) 23)).
Proof. unfold ldexp_. cbv beta iota. by push_lanes. Qed.

(** The scale [ldexp_] builds from the exponent of [frexp_]. *)
Lemma ldexp_scale k :
  1 <= k <= 254 →
  Lane32.wrap (Z.shiftl (Lane32.wrap (Lane32.wrap (k - 126) + 0x7f)) 23)
    = (k + 1) * 2 ^ 23.
Proof.
  intros Hk. unfold Lane32.wrap, Lane32.modulus.
  rewrite Zplus_mod_idemp_l. replace (k - 126 + 0x7f) with (k + 1) by lia.
  rewrite (Z.mod_small (k + 1)) by lia.
  rewrite Z.shiftl_mul_pow2 by lia. apply Z.mod_small. lia.
Qed.

Lemma ldexp_frexp_lane d i :
  1 <= Float32.exponent_field (d !!! i) <= 254 →
  ldexp_ true L (frexp_ true L d).1 (frexp_ true L d).2 !!! i =
    Float32.mul (Z.lor (Z.land (d !!! i) 0x807fffff) 0x3f000000)
      ((Float32.exponent_field (d !!! i) + 1) * 2 ^ 23).
Proof.
  intros He. rewrite ldexp_lane, frexp_fraction_lane, frexp_exponent_lane.
  destruct (abs_fields (d !!! i)) as (Ha & _ & Hm).
  destruct (Z.eqb_spec (Float32.abs (d !!! i)) 0) as [E|_]; [lia|].
  destruct (Z.eqb_spec (Float32.exponent_field (d !!! i)) 255) as [E|_]; [lia|].
  cbn [negb andb].
  rewrite exponent_through_float by lia. by rewrite ldexp_scale.
Qed.
End LdexpLanes.

(** X17. [ldexp_] undoes [frexp_] in approximate mode: on a normal lane
    below the top binade (exponent field 1..253) the fraction scaled by its
    exponent is the lane itself, bit for bit.  In the top binade (exponent
    field 254) the scale [2^128] is not a [float]; its pattern is the one of
    infinity and the product is the infinity of the lane's sign. *)
Theorem ldexp_undoes_frexp {Size : nat}
    (L : ScalarMath) (d : vec Z Size) (i : fin Size) :
  Lane32.wf (d !!! i) →
  let fe := StaticArrayBaseFloat.frexp_ true L d in
  let r := StaticArrayBaseFloat.ldexp_ true L fe.1 fe.2 !!! i in
  ((1 ≤ Float32.exponent_field (d !!! i) ≤ 253)%Z → r = d !!! i)
  ∧ (Float32.exponent_field (d !!! i) = 254%Z →
     Float32.to_spec r = S754_infinity (Z.testbit (d !!! i) 31)).
Proof.
  intros Hx. cbv zeta.
  destruct (fraction_pattern_fields (d !!! i)) as (Hs & Hef & Hmf).
  cbv zeta in Hs, Hef, Hmf. split.
  - intros He. rewrite ldexp_frexp_lane by lia.
    rewrite mul_power_of_two.
    + rewrite Hs, Hef, Hmf.
      replace (126 + (Float32.exponent_field (d !!! i) + 1) - 127)%Z
        with (Float32.exponent_field (d !!! i)) by lia.
      by apply pack_fields.
    + assert (0 ≤ Z.land (d !!! i) 0x807fffff < 2 ^ 32)%Z.
      { change 0x807fffff%Z with (Z.land 0x807fffff (Z.ones 32)).
        rewrite Z.land_assoc, Z.land_ones by lia. apply Z.mod_pos_bound. lia. }
      apply (lor_range 32); lia.
    + rewrite Hef. lia.
    + lia.
    + rewrite Hef. lia.
  - intros He. rewrite ldexp_frexp_lane by lia. rewrite He.
    change ((254 + 1) * 2 ^ 23)%Z with Float32.infinity.
    rewrite mul_infinity by (rewrite Hef; lia). by rewrite Hs.
Qed.

Lemma ldexp_undoes_frexp_witness :
  StaticArrayBaseFloat.ldexp_ true ScalarLib.unavailable
    (StaticArrayBaseFloat.frexp_ true ScalarLib.unavailable
       [# Literal.to_float "-12"; Literal.to_float "3.0e38"]).1
    (StaticArrayBaseFloat.frexp_ true ScalarLib.unavailable
       [# Literal.to_float "-12"; Literal.to_float "3.0e38"]).2 !!! 0%fin
    = Literal.to_float "-12"
  ∧ Float32.to_spec
      (StaticArrayBaseFloat.ldexp_ true ScalarLib.unavailable
         (StaticArrayBaseFloat.frexp_ true ScalarLib.unavailable
            [# Literal.to_float "-12"; Literal.to_float "3.0e38"]).1
         (StaticArrayBaseFloat.frexp_ true ScalarLib.unavailable
            [# Literal.to_float "-12"; Literal.to_float "3.0e38"]).2 !!! 1%fin)
    = S754_infinity false.
Proof.
  split.
  - apply (proj1 (ldexp_undoes_frexp ScalarLib.unavailable
                    [# Literal.to_float "-12"; Literal.to_float "3.0e38"] 0%fin
                    ltac:(vm_compute; split; [discriminate | reflexivity]))).
    vm_compute. split; discriminate.
  - apply (proj2 (ldexp_undoes_frexp ScalarLib.unavailable
                    [# Literal.to_float "-12"; Literal.to_float "3.0e38"] 1%fin
                    ltac:(vm_compute; split; [discriminate | reflexivity]))).
    vm_compute. reflexivity.
Defined.


(** ** The hyperbolic pair *)

Section HyperbolicFacts.
Import FloatArray StaticArrayBaseFloat.
Context {Size : nat}.
Variable L : ScalarMath.
Local Open Scope Z_scope.

Lemma SFmul_comm x y :
  SFmul Float32.prec Float32.emax x y = SFmul Float32.prec Float32.emax y x.
Proof.
  destruct x as [sx|sx| |sx mx ex], y as [sy|sy| |sy my ey]; simpl;
    rewrite ?(xorb_comm sy sx); try reflexivity.
  by rewrite (Pos.mul_comm my mx), (Z.add_comm ey ex).
Qed.

Lemma mul_comm x y : Float32.mul x y = Float32.mul y x.
Proof. unfold Float32.mul. by rewrite SFmul_comm. Qed.
End HyperbolicFacts.

(** X18. [sincosh_] in approximate mode returns, bit for bit, what [sinh_]
    and [cosh_] return: the three bodies spell the reciprocal ([rcp], here
    the fallback [rcp_] of this header, or [Float(1) / exp0]), the constant
    one half ([.5], [0.5], [.5f]) and the order of the last product
    differently, and none of it changes a lane. *)
Theorem sincosh_agrees_with_sinh_and_cosh {Size : nat}
    (L : ScalarMath) (d : vec Z Size) :
  StaticArrayBaseFloat.sincosh_ true L d
    = (StaticArrayBaseFloat.sinh_ true L d, StaticArrayBaseFloat.cosh_ true L d).
Proof.
  unfold StaticArrayBaseFloat.sincosh_, StaticArrayBaseFloat.sinh_,
    StaticArrayBaseFloat.cosh_. cbv beta iota zeta.
  generalize (StaticArrayBaseFloat.exp_ true L d). intros exp0.
  f_equal; apply vec_eq; intros i; push_lanes.
  - change (Literal.to_float ".5") with (Literal.to_float "0.5").
    destruct (Float32.lt _ _); [done|]. apply mul_comm.
  - change (Literal.to_float ".5") with (Literal.to_float ".5f").
    apply mul_comm.
Qed.


(** ** NaN lanes in the trigonometric and hyperbolic approximations *)

Section NanArithmetic.
Local Open Scope Z_scope.

Lemma sub_nan_r x y :
  Float32.to_spec y = S754_nan → Float32.to_spec (Float32.sub x y) = S754_nan.
Proof. unfold Float32.sub. intros ->. by destruct (Float32.to_spec x). Qed.

Lemma mul_nan_r x y :
  Float32.to_spec y = S754_nan → Float32.to_spec (Float32.mul x y) = S754_nan.
Proof. unfold Float32.mul. intros ->. by destruct (Float32.to_spec x). Qed.

Lemma div_nan_l x y :
  Float32.to_spec x = S754_nan → Float32.to_spec (Float32.div x y) = S754_nan.
Proof. unfold Float32.div. by intros ->. Qed.

Lemma div_nan_r x y :
  Float32.to_spec y = S754_nan → Float32.to_spec (Float32.div x y) = S754_nan.
Proof. unfold Float32.div. intros ->. by destruct (Float32.to_spec x). Qed.

Lemma sqrt_nan x :
  Float32.to_spec x = S754_nan → Float32.to_spec (Float32.sqrt x) = S754_nan.
Proof. unfold Float32.sqrt. by intros ->. Qed.

Lemma abs_nan x :
  Float32.to_spec x = S754_nan → Float32.to_spec (Float32.abs x) = S754_nan.
Proof. rewrite <-!is_nan_to_spec. by rewrite is_nan_abs. Qed.

(** Changing the sign bit alone keeps a NaN a NaN. *)
Lemma abs_lxor_sign_bits v w :
  Float32.abs (Z.lxor v (Z.land w Float32.sign_bit)) = Float32.abs v.
Proof.
  unfold Float32.abs. apply Z.bits_inj'. intros n Hn.
  rewrite !Z.land_spec, Z.lxor_spec, Z.land_spec, testbit_sign_bit by lia.
  change 2147483647 with (Z.ones 31).
  destruct (Z.lt_ge_cases n 31).
  - destruct (Z.eqb_spec 31 n); [lia|]. by rewrite andb_false_r, xorb_false_r.
  - by rewrite Z.ones_spec_high, !andb_false_r by lia.
Qed.

Lemma lxor_sign_bits_nan v w :
  Float32.to_spec v = S754_nan →
  Float32.to_spec (Z.lxor v (Z.land w Float32.sign_bit)) = S754_nan.
Proof.
  rewrite <-!is_nan_to_spec. unfold Float32.is_nan.
  by rewrite abs_lxor_sign_bits.
Qed.
End NanArithmetic.

(** Follows a NaN through an arithmetic expression. *)
Ltac nan_through :=
  lazymatch goal with
  | H : ?g |- ?g => exact H
  | |- Float32.to_spec (Float32.abs _) = _ => apply abs_nan; nan_through
  | |- Float32.to_spec (Float32.sqrt _) = _ => apply sqrt_nan; nan_through
  | |- Float32.to_spec (Z.lxor _ (Z.land _ Float32.sign_bit)) = _ =>
      apply lxor_sign_bits_nan; nan_through
  | |- Float32.to_spec (Float32.add _ _) = _ =>
      first [apply add_nan_l; nan_through | apply add_nan_r; nan_through]
  | |- Float32.to_spec (Float32.sub _ _) = _ =>
      first [apply sub_nan_l; nan_through | apply sub_nan_r; nan_through]
  | |- Float32.to_spec (Float32.mul _ _) = _ =>
      first [apply mul_nan_l; nan_through | apply mul_nan_r; nan_through]
  | |- Float32.to_spec (Float32.div _ _) = _ =>
      first [apply div_nan_l; nan_through | apply div_nan_r; nan_through]
  end.

Section NanTrigonometry.
Import FloatArray StaticArrayBaseFloat.
Context {Size : nat}.
Variable L : ScalarMath.
Local Open Scope Z_scope.
Implicit Types (d : vec Z Size) (i : fin Size).

Lemma sincos_nan_lane d i :
  Float32.is_nan (d !!! i) = true →
  Float32.is_nan (sin_ true L d !!! i) = true
  ∧ Float32.is_nan (cos_ true L d !!! i) = true.
Proof.
  intros H. apply is_nan_to_spec in H. rewrite !is_nan_to_spec.
  unfold sin_, cos_, sincos_core, sign_sin, sign_cos, polymask, sign_mask.
  cbv beta iota zeta. push_lanes.
  split; match goal with |- context [if ?c then _ else _] => destruct c end;
    nan_through.
Qed.

Lemma tan_nan_lane d i :
  Float32.is_nan (d !!! i) = true →
  Float32.is_nan (tan_ true L d !!! i) = true.
Proof.
  intros H. destruct (sincos_nan_lane d i H) as [Hs _].
  apply is_nan_to_spec in Hs. rewrite is_nan_to_spec.
  unfold tan_, sincos_. cbv beta iota zeta.
  fold (sin_ true L d). fold (cos_ true L d). cbn [fst snd].
  unfold fdiv. rewrite vlookup_zip_with. by apply div_nan_l.
Qed.

Lemma asin_acos_nan_lane d i :
  Float32.is_nan (d !!! i) = true →
  Float32.is_nan (asin_ true L d !!! i) = true
  ∧ Float32.is_nan (acos_ true L d !!! i) = true.
Proof.
  intros H.
  assert (Float32.is_nan (Float32.abs (d !!! i)) = true) as Ha
    by by rewrite is_nan_abs.
  unfold asin_, acos_, acos_poly. cbv beta iota zeta. push_lanes.
  rewrite !(nan_not_gt _ _ Ha), (nan_not_lt _ _ H).
  cbn [mask_bits]. rewrite !Z.lor_0_r, !Z.land_0_r.
  apply is_nan_to_spec in H. rewrite !is_nan_to_spec. split; nan_through.
Qed.

Lemma hyperbolic_nan_lane d i :
  Float32.is_nan (d !!! i) = true →
  Float32.is_nan (sinh_ true L d !!! i) = true
  ∧ Float32.is_nan (cosh_ true L d !!! i) = true
  ∧ Float32.is_nan (tanh_ true L d !!! i) = true.
Proof.
  intros H.
  assert (Float32.is_nan (Float32.abs (d !!! i)) = true) as Ha
    by by rewrite is_nan_abs.
  pose proof (exp_nan_lane L d i H) as He. apply is_nan_to_spec in He.
  unfold sinh_, cosh_, tanh_. cbv beta iota zeta.
  generalize dependent (exp_ true L d). intros exp0 He.
  push_lanes. rewrite !(nan_not_lt _ _ Ha). rewrite !is_nan_to_spec.
  repeat split; nan_through.
Qed.

Lemma erf_nan_lane d i :
  Float32.is_nan (d !!! i) = true →
  Float32.is_nan (erf_ true L d !!! i) = true.
Proof.
  intros H.
  assert (Float32.is_nan (Float32.abs (d !!! i)) = true) as Ha
    by by rewrite is_nan_abs.
  unfold erf_. cbv beta iota zeta.
  generalize (exp_ true L (neg_ (fmul d d))). intros ev.
  push_lanes. rewrite (nan_not_gt _ _ Ha).
  apply is_nan_to_spec in H. rewrite is_nan_to_spec. nan_through.
Qed.
End NanTrigonometry.

(** X19. In approximate mode a NaN lane stays a NaN through the
    trigonometric and hyperbolic approximations and the error function:
    no range test of theirs fires on a NaN, and every arithmetic step
    carries it on. *)
Theorem nan_lanes_stay_nan {Size : nat}
    (L : ScalarMath) (d : vec Z Size) (i : fin Size) :
  Float32.is_nan (d !!! i) = true →
  Float32.is_nan (StaticArrayBaseFloat.sin_ true L d !!! i) = true
  ∧ Float32.is_nan (StaticArrayBaseFloat.cos_ true L d !!! i) = true
  ∧ Float32.is_nan (StaticArrayBaseFloat.tan_ true L d !!! i) = true
  ∧ Float32.is_nan (StaticArrayBaseFloat.asin_ true L d !!! i) = true
  ∧ Float32.is_nan (StaticArrayBaseFloat.acos_ true L d !!! i) = true
  ∧ Float32.is_nan (StaticArrayBaseFloat.sinh_ true L d !!! i) = true
  ∧ Float32.is_nan (StaticArrayBaseFloat.cosh_ true L d !!! i) = true
  ∧ Float32.is_nan (StaticArrayBaseFloat.tanh_ true L d !!! i) = true
  ∧ Float32.is_nan (StaticArrayBaseFloat.erf_ true L d !!! i) = true.
Proof.
  intros H.
  destruct (sincos_nan_lane L d i H) as [? ?].
  destruct (asin_acos_nan_lane L d i H) as [? ?].
  destruct (hyperbolic_nan_lane L d i H) as (? & ? & ?).
  pose proof (tan_nan_lane L d i H). pose proof (erf_nan_lane L d i H).
  repeat split; assumption.
Qed.

Lemma nan_lanes_stay_nan_witness :
  Float32.is_nan (StaticArrayBaseFloat.sin_ true ScalarLib.unavailable
                    [# Literal.to_float "1"; ScalarLib.quiet_nan] !!! 1%fin) = true
  ∧ Float32.is_nan (StaticArrayBaseFloat.cos_ true ScalarLib.unavailable
                    [# Literal.to_float "1"; ScalarLib.quiet_nan] !!! 1%fin) = true
  ∧ Float32.is_nan (StaticArrayBaseFloat.tan_ true ScalarLib.unavailable
                    [# Literal.to_float "1"; ScalarLib.quiet_nan] !!! 1%fin) = true
  ∧ Float32.is_nan (StaticArrayBaseFloat.asin_ true ScalarLib.unavailable
                    [# Literal.to_float "1"; ScalarLib.quiet_nan] !!! 1%fin) = true
  ∧ Float32.is_nan (StaticArrayBaseFloat.acos_ true ScalarLib.unavailable
                    [# Literal.to_float "1"; ScalarLib.quiet_nan] !!! 1%fin) = true
  ∧ Float32.is_nan (StaticArrayBaseFloat.sinh_ true ScalarLib.unavailable
                    [# Literal.to_float "1"; ScalarLib.quiet_nan] !!! 1%fin) = true
  ∧ Float32.is_nan (StaticArrayBaseFloat.cosh_ true ScalarLib.unavailable
                    [# Literal.to_float "1"; ScalarLib.quiet_nan] !!! 1%fin) = true
  ∧ Float32.is_nan (StaticArrayBaseFloat.tanh_ true ScalarLib.unavailable
                    [# Literal.to_float "1"; ScalarLib.quiet_nan] !!! 1%fin) = true
  ∧ Float32.is_nan (StaticArrayBaseFloat.erf_ true ScalarLib.unavailable
                    [# Literal.to_float "1"; ScalarLib.quiet_nan] !!! 1%fin) = true.
Proof.
  apply (nan_lanes_stay_nan ScalarLib.unavailable
           [# Literal.to_float "1"; ScalarLib.quiet_nan] 1%fin).
  reflexivity.
Defined.


(** * Further properties: shuffling, memory, printing *)

Section ShuffleFacts.
Import Shuffle.
Context {Value : Type}.

Lemma collect_Some {n} (v : vec (option Value) n) (w : vec Value n) :
  collect v = Some w ↔ ∀ j, v !!! j = Some (w !!! j).
Proof.
  induction v as [|o n v IH]; inv_vec w.
  - split; [intros _ j; inv_fin j | done].
  - intros a w. simpl. split.
    + intros H j. destruct o as [b|]; [|done].
      destruct (collect v) as [w'|] eqn:E; [|done].
      injection H as -> Hw. apply Eqdep_dec.inj_pair2_eq_dec in Hw;
        [|apply Nat.eq_dec]. subst w'.
      inv_fin j; [done|]. intros j. simpl. by apply IH.
    + intros H. pose proof (H 0%fin) as H0. simpl in H0. rewrite H0.
      assert (collect v = Some w) as ->; [|done].
      apply IH. intros j. apply (H (FS j)).
Qed.

Lemma collect_None {n} (v : vec (option Value) n) j :
  v !!! j = None → collect v = None.
Proof.
  intros H. destruct (collect v) as [w|] eqn:E; [|done].
  rewrite collect_Some in E. by rewrite E in H.
Qed.

Lemma collect_defined {n} (v : vec (option Value) n) :
  (∀ j, is_Some (v !!! j)) → is_Some (collect v).
Proof.
  induction v as [|o n v IH]; [by eexists|].
  intros H. destruct (H 0%fin) as [a Ha]. simpl in Ha. subst o.
  destruct IH as [w Hw]; [intros j; apply (H (FS j))|].
  simpl. rewrite Hw. by eexists.
Qed.

Context {Size : nat}.
Implicit Types (d : vec Value Size) (I : vec nat Size).

Lemma coeff_lane d (j : fin Size) : coeff d j = Some (d !!! j).
Proof. unfold coeff. by apply vlookup_lookup. Qed.

Lemma coeff_inside d k : k < Size → is_Some (coeff d k).
Proof.
  intros H. unfold coeff. apply lookup_lt_is_Some.
  by rewrite length_vec_to_list.
Qed.

Lemma coeff_outside d k : Size ≤ k → coeff d k = None.
Proof.
  intros H. unfold coeff. apply lookup_ge_None.
  by rewrite length_vec_to_list.
Qed.

Lemma shuffle_Return I d out :
  shuffle_ I d = Return out ↔ ∀ j, coeff d (I !!! j) = Some (out !!! j).
Proof.
  unfold shuffle_. split.
  - destruct (collect _) as [w|] eqn:E; [|done]. intros [= ->].
    rewrite collect_Some in E. intros j. by rewrite <-E, vlookup_map.
  - intros H. assert (collect (vmap (coeff d) I) = Some out) as ->; [|done].
    apply collect_Some. intros j. by rewrite vlookup_map.
Qed.

Lemma shuffle_defined I d :
  (∀ j, I !!! j < Size) → ∃ out, shuffle_ I d = Return out.
Proof.
  intros H. unfold shuffle_.
  destruct (collect_defined (vmap (coeff d) I)) as [w ->]; [|by eexists].
  intros j. rewrite vlookup_map. by apply coeff_inside.
Qed.

Lemma shuffle_undefined I d j : Size ≤ I !!! j → shuffle_ I d = Undefined.
Proof.
  intros H. unfold shuffle_. rewrite (collect_None _ j); [done|].
  rewrite vlookup_map. by apply coeff_outside.
Qed.
End ShuffleFacts.

(** X20. [shuffle_]: the indices [0, 1, ..., Size - 1] give the array back;
    with all indices inside the array, shuffling by [I1] and then by [I2]
    is one shuffle by the indices that [I2] shuffles out of [I1]; and one
    index outside the array makes the whole call undefined (it is not
    reported). *)
Theorem shuffle_composes {Value : Type} {Size : nat}
    (I1 I2 : vec nat Size) (d : vec Value Size) :
  Shuffle.shuffle_ (fun_to_vec (fin_to_nat (n:=Size))) d = Return d
  ∧ ((∀ j, I1 !!! j < Size) → (∀ j, I2 !!! j < Size) →
     ∃ I12 d1 d2,
       Shuffle.shuffle_ I2 I1 = Return I12
       ∧ Shuffle.shuffle_ I1 d = Return d1
       ∧ Shuffle.shuffle_ I2 d1 = Return d2
       ∧ Shuffle.shuffle_ I12 d = Return d2)
  ∧ ((∃ j, Size ≤ I1 !!! j) → Shuffle.shuffle_ I1 d = Undefined).
Proof.
  split; [|split].
  - apply shuffle_Return. intros j. rewrite lookup_fun_to_vec.
    apply coeff_lane.
  - intros H1 H2.
    destruct (shuffle_defined I2 I1 H2) as [I12 HI].
    destruct (shuffle_defined I1 d H1) as [d1 Hd1].
    destruct (shuffle_defined I2 d1 H2) as [d2 Hd2].
    exists I12, d1, d2. repeat split; try done.
    apply shuffle_Return. intros j.
    pose proof (proj1 (shuffle_Return _ _ _) HI j) as HI'.
    pose proof (proj1 (shuffle_Return _ _ _) Hd2 j) as Hd2'.
    pose proof (proj1 (shuffle_Return _ _ _) Hd1) as Hd1'.
    clear HI Hd1 Hd2. rename HI' into HI, Hd1' into Hd1, Hd2' into Hd2.
    unfold Shuffle.coeff in HI, Hd2.
    apply vlookup_lookup' in HI as [Hlt HI].
    apply vlookup_lookup' in Hd2 as [Hlt' Hd2].
    rewrite <-HI, <-Hd2, Hd1.
    by rewrite (proof_irrel Hlt Hlt').
  - intros [j Hj]. by apply (shuffle_undefined I1 d j).
Qed.

Lemma shuffle_composes_witness :
  (∃ I12 d1 d2,
     Shuffle.shuffle_ [# 2; 0; 1] [# 1; 2; 0] = Return I12
     ∧ Shuffle.shuffle_ [# 1; 2; 0] [# 10; 20; 30]%Z = Return d1
     ∧ Shuffle.shuffle_ [# 2; 0; 1] d1 = Return d2
     ∧ Shuffle.shuffle_ I12 [# 10; 20; 30]%Z = Return d2)
  ∧ Shuffle.shuffle_ [# 1; 3; 0] [# 10; 20; 30]%Z = Undefined.
Proof.
  split.
  - apply (proj1 (proj2 (shuffle_composes [# 1; 2; 0] [# 2; 0; 1]
                           [# 10; 20; 30]%Z))).
    + intros j. inv_fin j; [simpl; lia|]. intros j.
      inv_fin j; [simpl; lia|]. intros j.
      inv_fin j; [simpl; lia|]. intros j. inv_fin j.
    + intros j. inv_fin j; [simpl; lia|]. intros j.
      inv_fin j; [simpl; lia|]. intros j.
      inv_fin j; [simpl; lia|]. intros j. inv_fin j.
  - apply (proj2 (proj2 (shuffle_composes [# 1; 3; 0] [# 0; 0; 0]
                           [# 10; 20; 30]%Z))).
    exists 1%fin. simpl. lia.
Defined.


Section MemoryFacts.
Import MemoryOps.
Context {Mem Value : Type}.
Variable load : Mem → Z → Value.
Variable store : Mem → Z → Value → Mem.
Variables Stride width mem : Z.
Hypothesis laws : memory_laws load store width.
Local Open Scope Z_scope.

Local Abbreviation addr := (address Stride mem).

Lemma foldl_ext_all {A B : Type} (f g : A → B → A) (l : list B) (a : A) :
  (∀ a x, f a x = g a x) → foldl f a l = foldl g a l.
Proof.
  intros H. revert a. induction l as [|x l IH]; intros a; [done|].
  simpl. by rewrite H, IH.
Qed.

Lemma foldl_lanes_S {A : Type} {n : nat} (f : A → fin (S n) → A) (a : A) :
  foldl f a (enum (fin (S n)))
    = foldl (λ a i, f a (FS i)) (f a 0%fin) (enum (fin n)).
Proof.
  change (enum (fin (S n))) with (0%fin :: (FS <$> enum (fin n))).
  simpl. by rewrite foldl_fmap.
Qed.

Lemma scatter_masked_cons {n} x (d : vec Value n) a index m mask M :
  scatter_masked_ store Stride (x ::: d) M mem (a ::: index) (m ::: mask)
    = scatter_masked_ store Stride d
        (scatter_masked store Stride M mem x a m) mem index mask.
Proof. unfold scatter_masked_. by rewrite foldl_lanes_S. Qed.

Lemma scatter_cons {n} x (d : vec Value n) a index M :
  scatter_ store Stride (x ::: d) M mem (a ::: index)
    = scatter_ store Stride d (scatter store Stride M mem x a) mem index.
Proof. unfold scatter_. by rewrite foldl_lanes_S. Qed.

Lemma transform_masked_cons {n} a (index : vec Z n) m mask func M :
  transform_masked_ load store Stride M mem (a ::: index) func (m ::: mask)
    = transform_masked_ load store Stride
        (transform_masked load store Stride M mem a func m) mem index func mask.
Proof. unfold transform_masked_. by rewrite foldl_lanes_S. Qed.

(** The unmasked loops are the masked ones under the mask that is true in
    every lane. *)
Lemma scatter_all_lanes {n} (d : vec Value n) index M :
  scatter_ store Stride d M mem index
    = scatter_masked_ store Stride d M mem index (vreplicate n true).
Proof.
  unfold scatter_, scatter_masked_. apply foldl_ext_all.
  intros M' i. by rewrite vlookup_replicate.
Qed.

Lemma transform_all_lanes {n} (index : vec Z n) func M :
  transform_ load store Stride M mem index func
    = transform_masked_ load store Stride M mem index func (vreplicate n true).
Proof.
  unfold transform_, transform_masked_. apply foldl_ext_all.
  intros M' i. by rewrite vlookup_replicate.
Qed.

Lemma lanes_apart_tail {n} a (index : vec Z n) :
  lanes_apart Stride width mem (a ::: index) →
  lanes_apart Stride width mem index
  ∧ ∀ j, width <= Z.abs (addr (index !!! j) - addr a).
Proof.
  intros H. split.
  - intros i j Hij. apply (H (FS i) (FS j)). by intros [= ->%(inj _)].
  - intros j. by apply (H (FS j) 0%fin).
Qed.

(** A store loop leaves alone every value that lies apart from all the
    lanes. *)
Lemma scatter_masked_frame {n} (d : vec Value n) index mask M b :
  (∀ j, width <= Z.abs (addr (index !!! j) - b)) →
  load (scatter_masked_ store Stride d M mem index mask) b = load M b.
Proof.
  revert d index mask M. induction n as [|n IH]; intros d index mask.
  - inv_vec d. inv_vec index. inv_vec mask. done.
  - inv_vec d; intros x d. inv_vec index; intros a index.
    inv_vec mask; intros m mask. intros M H.
    rewrite scatter_masked_cons, IH by (intros j; apply (H (FS j))).
    unfold scatter_masked, scatter. destruct m; [|done].
    apply (proj2 laws). apply (H 0%fin).
Qed.

(** The value at a lane's address after the masked loop. *)
Lemma scatter_masked_gather {n} (d : vec Value n) index mask M i :
  lanes_apart Stride width mem index →
  load (scatter_masked_ store Stride d M mem index mask)
       (addr (index !!! i))
    = if (mask !!! i : bool) then d !!! i else load M (addr (index !!! i)).
Proof.
  revert d index mask M i. induction n as [|n IH]; intros d index mask M i.
  - inv_fin i.
  - inv_vec d; intros x d. inv_vec index; intros a index.
    inv_vec mask; intros m mask. intros H.
    destruct (lanes_apart_tail _ _ H) as [Ht H0].
    rewrite scatter_masked_cons. inv_fin i.
    + simpl. rewrite scatter_masked_frame by done.
      unfold scatter_masked, scatter. destruct m; [|done]. apply (proj1 laws).
    + intros i. simpl. rewrite IH by done. destruct (mask !!! i); [done|].
      unfold scatter_masked, scatter. destruct m; [|done].
      apply (proj2 laws). rewrite <-Z.abs_opp.
      replace (- (addr a - addr (index !!! i)))
        with (addr (index !!! i) - addr a) by lia.
      apply H0.
Qed.

(** Last writer wins: a lane's value is in memory after [scatter_] as soon
    as no later lane touches its bytes. *)
Lemma scatter_last_writer {n} (d : vec Value n) index M (i : fin n) :
  (∀ j : fin n, (i < j)%nat →
     width <= Z.abs (addr (index !!! j) - addr (index !!! i))) →
  load (scatter_ store Stride d M mem index) (addr (index !!! i)) = d !!! i.
Proof.
  revert d index M i. induction n as [|n IH]; intros d index M i.
  - inv_fin i.
  - inv_vec d; intros x d. inv_vec index; intros a index.
    rewrite scatter_cons. inv_fin i.
    + intros H. simpl. rewrite scatter_all_lanes, scatter_masked_frame.
      * apply (proj1 laws).
      * intros j. apply (H (FS j)). simpl. lia.
    + intros i H. simpl. apply IH. intros j Hj.
      apply (H (FS j)). simpl. lia.
Qed.

Lemma transform_masked_as_scatter {n} (index : vec Z n) mask func M :
  lanes_apart Stride width mem index →
  transform_masked_ load store Stride M mem index func mask
    = scatter_masked_ store Stride
        (vmap func (gather_ load Stride M mem index)) M mem index mask.
Proof.
  revert index mask M. induction n as [|n IH]; intros index mask.
  - inv_vec index. inv_vec mask. done.
  - inv_vec index; intros a index. inv_vec mask; intros m mask. intros M H.
    destruct (lanes_apart_tail _ _ H) as [Ht H0].
    unfold gather_. simpl vmap.
    rewrite transform_masked_cons, scatter_masked_cons, IH by done.
    f_equal. f_equal. unfold gather_. apply vec_eq. intros j.
    rewrite !vlookup_map. unfold gather, transform_masked, transform.
    destruct m; [|done]. apply (proj2 laws). rewrite <-Z.abs_opp.
    replace (- (addr a - addr (index !!! j)))
      with (addr (index !!! j) - addr a) by lia.
    apply H0.
Qed.
End MemoryFacts.

Section ByteMemoryFacts.
Local Open Scope Z_scope.

Lemma byte_memory_laws :
  MemoryOps.memory_laws ByteMemory.load ByteMemory.store 1.
Proof.
  split.
  - intros M a v. unfold ByteMemory.load, ByteMemory.store.
    by rewrite Z.eqb_refl.
  - intros M a b v H. unfold ByteMemory.load, ByteMemory.store.
    destruct (Z.eqb_spec b a); [lia|done].
Qed.

Lemma three_bytes_apart :
  MemoryOps.lanes_apart 1 1 100 [# 2; 0; 7].
Proof.
  intros i j Hij. unfold MemoryOps.address.
  inv_fin i; [|intros i; inv_fin i; [|intros i; inv_fin i; [|intros i; inv_fin i]]];
    (inv_fin j; [|intros j; inv_fin j; [|intros j; inv_fin j; [|intros j; inv_fin j]]]);
    simpl; (done || lia).
Qed.
End ByteMemoryFacts.

(** X21. [scatter_] followed by [gather_] with the same indices: a lane's
    value is read back whenever no later lane writes to its bytes (the lanes
    are written in ascending order, so the last writer wins); when no two
    lanes touch the same bytes the whole array is read back; and every value
    that lies apart from all the lanes is as it was. *)
Theorem scatter_gather_round_trip {Mem Value : Type} {Size : nat}
    (load : Mem → Z → Value) (store : Mem → Z → Value → Mem)
    (Stride width mem : Z)
    (d : vec Value Size) (index : vec Z Size) (M : Mem) :
  MemoryOps.memory_laws load store width →
  let M' := MemoryOps.scatter_ store Stride d M mem index in
  (∀ i : fin Size,
     (∀ j : fin Size, i < j →
        (width ≤ Z.abs (MemoryOps.address Stride mem (index !!! j)
                        - MemoryOps.address Stride mem (index !!! i)))%Z) →
     MemoryOps.gather_ load Stride M' mem index !!! i = d !!! i)
  ∧ (MemoryOps.lanes_apart Stride width mem index →
     MemoryOps.gather_ load Stride M' mem index = d)
  ∧ (∀ b : Z,
       (∀ j, (width ≤ Z.abs (MemoryOps.address Stride mem (index !!! j) - b))%Z) →
       load M' b = load M b).
Proof.
  intros laws. cbv zeta. split; [|split].
  - intros i H. unfold MemoryOps.gather_. rewrite vlookup_map.
    by apply scatter_last_writer with (width := width).
  - intros H. apply vec_eq. intros i.
    unfold MemoryOps.gather_. rewrite vlookup_map.
    apply scatter_last_writer with (width := width); [done|].
    intros j Hj. apply H. intros ->. lia.
  - intros b H. rewrite scatter_all_lanes.
    by apply scatter_masked_frame with (width := width).
Qed.

Lemma scatter_gather_round_trip_witness :
  MemoryOps.gather_ ByteMemory.load 1
    (MemoryOps.scatter_ ByteMemory.store 1
       [# 10; 20; 30]%Z ByteMemory.zeros 100 [# 2; 0; 7]%Z)
    100 [# 2; 0; 7]%Z
  = [# 10; 20; 30]%Z
  ∧ MemoryOps.gather_ ByteMemory.load 1
      (MemoryOps.scatter_ ByteMemory.store 1
         [# 10; 20; 30]%Z ByteMemory.zeros 100 [# 2; 2; 7]%Z)
      100 [# 2; 2; 7]%Z !!! 1%fin
    = 20%Z
  ∧ ByteMemory.load
      (MemoryOps.scatter_ ByteMemory.store 1
         [# 10; 20; 30]%Z ByteMemory.zeros 100 [# 2; 0; 7]%Z) 105
    = ByteMemory.load ByteMemory.zeros 105.
Proof.
  split; [|split].
  - apply (proj1 (proj2 (scatter_gather_round_trip
                           ByteMemory.load ByteMemory.store 1 1 100
                           [# 10; 20; 30]%Z [# 2; 0; 7]%Z ByteMemory.zeros
                           byte_memory_laws))).
    exact three_bytes_apart.
  - apply (proj1 (scatter_gather_round_trip
                    ByteMemory.load ByteMemory.store 1 1 100
                    [# 10; 20; 30]%Z [# 2; 2; 7]%Z ByteMemory.zeros
                    byte_memory_laws) 1%fin).
    intros j. inv_fin j; [simpl; lia|]. intros j.
    inv_fin j; [simpl; lia|]. intros j.
    inv_fin j; [vm_compute; discriminate|]. intros j. inv_fin j.
  - apply (proj2 (proj2 (scatter_gather_round_trip
                           ByteMemory.load ByteMemory.store 1 1 100
                           [# 10; 20; 30]%Z [# 2; 0; 7]%Z ByteMemory.zeros
                           byte_memory_laws)) 105%Z).
    intros j. inv_fin j; [vm_compute; discriminate|]. intros j.
    inv_fin j; [vm_compute; discriminate|]. intros j.
    inv_fin j; [vm_compute; discriminate|]. intros j. inv_fin j.
Defined.

(** X22. The masked [scatter_] writes the lanes whose mask is set and no
    other: when no two lanes touch the same bytes, gathering with the same
    indices afterwards gives the array in the lanes that were set and the
    old content of the memory in the others. *)
Theorem masked_scatter_writes_selected_lanes {Mem Value : Type} {Size : nat}
    (load : Mem → Z → Value) (store : Mem → Z → Value → Mem)
    (Stride width mem : Z)
    (d : vec Value Size) (index : vec Z Size) (mask : vec bool Size) (M : Mem) :
  MemoryOps.memory_laws load store width →
  MemoryOps.lanes_apart Stride width mem index →
  MemoryOps.gather_ load Stride
    (MemoryOps.scatter_masked_ store Stride d M mem index mask) mem index
  = select mask d (MemoryOps.gather_ load Stride M mem index).
Proof.
  intros laws H. apply vec_eq. intros i.
  unfold MemoryOps.gather_, select.
  rewrite lookup_fun_to_vec, !vlookup_map.
  by apply scatter_masked_gather with (width := width).
Qed.

Lemma masked_scatter_writes_selected_lanes_witness :
  MemoryOps.gather_ ByteMemory.load 1
    (MemoryOps.scatter_masked_ ByteMemory.store 1
       [# 10; 20; 30]%Z ByteMemory.zeros 100 [# 2; 0; 7]%Z
       [# true; false; true])
    100 [# 2; 0; 7]%Z
  = select [# true; false; true] [# 10; 20; 30]%Z
      (MemoryOps.gather_ ByteMemory.load 1 ByteMemory.zeros 100 [# 2; 0; 7]%Z).
Proof.
  apply (masked_scatter_writes_selected_lanes
           ByteMemory.load ByteMemory.store 1 1 100
           [# 10; 20; 30]%Z [# 2; 0; 7]%Z [# true; false; true]
           ByteMemory.zeros byte_memory_laws).
  exact three_bytes_apart.
Defined.

(** X23. [transform_] is gather, modify, scatter: when no two lanes touch
    the same bytes, the loop of single read-modify-write steps leaves the
    memory that [scatter_] leaves when it is given the update function
    applied to what [gather_] read beforehand, with and without a mask. *)
Theorem transform_is_gather_modify_scatter {Mem Value : Type} {Size : nat}
    (load : Mem → Z → Value) (store : Mem → Z → Value → Mem)
    (Stride width mem : Z)
    (index : vec Z Size) (mask : vec bool Size) (func : Value → Value) (M : Mem) :
  MemoryOps.memory_laws load store width →
  MemoryOps.lanes_apart Stride width mem index →
  MemoryOps.transform_ load store Stride M mem index func
    = MemoryOps.scatter_ store Stride
        (vmap func (MemoryOps.gather_ load Stride M mem index)) M mem index
  ∧ MemoryOps.transform_masked_ load store Stride M mem index func mask
    = MemoryOps.scatter_masked_ store Stride
        (vmap func (MemoryOps.gather_ load Stride M mem index)) M mem index mask.
Proof.
  intros laws H. split.
  - rewrite transform_all_lanes, scatter_all_lanes.
    by apply transform_masked_as_scatter with (width := width).
  - by apply transform_masked_as_scatter with (width := width).
Qed.

Lemma transform_is_gather_modify_scatter_witness :
  MemoryOps.transform_ ByteMemory.load ByteMemory.store 1
    ByteMemory.zeros 100 [# 2; 0; 7]%Z (Z.add 1)
    = MemoryOps.scatter_ ByteMemory.store 1
        (vmap (Z.add 1)
           (MemoryOps.gather_ ByteMemory.load 1 ByteMemory.zeros 100
              [# 2; 0; 7]%Z))
        ByteMemory.zeros 100 [# 2; 0; 7]%Z
  ∧ MemoryOps.transform_masked_ ByteMemory.load ByteMemory.store 1
      ByteMemory.zeros 100 [# 2; 0; 7]%Z (Z.add 1) [# true; false; true]
    = MemoryOps.scatter_masked_ ByteMemory.store 1
        (vmap (Z.add 1)
           (MemoryOps.gather_ ByteMemory.load 1 ByteMemory.zeros 100
              [# 2; 0; 7]%Z))
        ByteMemory.zeros 100 [# 2; 0; 7]%Z [# true; false; true].
Proof.
  apply (transform_is_gather_modify_scatter
           ByteMemory.load ByteMemory.store 1 1 100
           [# 2; 0; 7]%Z [# true; false; true] (Z.add 1)
           ByteMemory.zeros byte_memory_laws).
  exact three_bytes_apart.
Defined.


Section PrintFacts.
Import Printing.
Context {Value : Type}.
Variable show : Value → string.
Variable coeff : list nat → Value.
Variable size : list nat.

Lemma append_cons c (a b : string) :
  (String c a +:+ b = String c (a +:+ b))%string.
Proof. reflexivity. Qed.

Lemma append_nil_r (a : string) : (a +:+ "" = a)%string.
Proof. induction a as [|c a IH]; [done|]. by rewrite append_cons, IH. Qed.

Lemma append_assoc (a b c : string) :
  ((a +:+ b) +:+ c = a +:+ (b +:+ c))%string.
Proof.
  induction a as [|x a IH]; [done|]. by rewrite !append_cons, IH.
Qed.

(** A loop that writes a separator after every element but the last writes
    the elements joined by the separator. *)
Lemma separated_loop (body : nat → string) (sep : string) (n : nat) :
  ∀ m s os, s + m = n →
    foldl (λ os i, if i + 1 <? n then ((os +:+ body i) +:+ sep)%string
                   else (os +:+ body i)%string)
          os (seq s m)
    = (os +:+ String.concat sep (map body (seq s m)))%string.
Proof.
  induction m as [|m IH]; intros s os Hn.
  - simpl. by rewrite append_nil_r.
  - cbn [seq foldl map]. rewrite IH by lia. destruct m as [|m].
    + destruct (Nat.ltb_spec (s + 1) n); [lia|]. simpl.
      by rewrite append_nil_r.
    + destruct (Nat.ltb_spec (s + 1) n); [|lia].
      cbn [seq map String.concat]. by rewrite !append_assoc.
Qed.
End PrintFacts.

(** X24. [detail::print] only appends to the stream, and what it appends
    for the dimensions still to be opened is the bracketed list of the
    texts of the elements, joined by the separator of the dimension: [", "]
    in the innermost one, and a comma, a newline and one space for every
    bracket that is open in the others.  No separator follows the last
    element, and a dimension of size zero gives [[]]. *)
Theorem print_appends_the_text {Value : Type}
    (show : Value → string) (coeff : list nat → Value) (size : list nat)
    (r : nat) (os : string) (indices : list nat) :
  Printing.print show coeff size r os indices
    = (os +:+ Printing.text show coeff size r indices)%string.
Proof.
  revert os indices. induction r as [|k IH]; intros os indices; [done|].
  cbn [Printing.print Printing.text]. cbv zeta.
  rewrite (foldl_ext_all _
             (λ os i, if i + 1 <? nth k size 0
                      then ((os +:+ Printing.text show coeff size k (i :: indices))
                              +:+ Printing.separator k (length indices))%string
                      else (os +:+ Printing.text show coeff size k (i :: indices))%string)).
  - rewrite (separated_loop
               (λ i, Printing.text show coeff size k (i :: indices))) by lia.
    by rewrite !append_assoc.
  - intros os' i. rewrite IH. unfold Printing.separator.
    destruct (i + 1 <? nth k size 0); [|done]. by destruct (k =? 0).
Qed.


(** ** [ldexp_] on the exponent field, [frexp_] on denormals *)

Section LdexpFacts.
Local Open Scope Z_scope.

(** The scale [ldexp_] builds from an exponent [k]: the pattern with the
    exponent field [k + 127]. *)
Lemma ldexp_scale_pattern k :
  0 <= k + 127 <= 255 →
  Lane32.wrap (Z.shiftl (Lane32.wrap (Lane32.wrap k + 0x7f)) 23)
    = (k + 127) * 2 ^ 23.
Proof.
  intros Hk. unfold Lane32.wrap, Lane32.modulus.
  rewrite Zplus_mod_idemp_l. change 0x7f with 127.
  rewrite (Z.mod_small (k + 127)) by lia.
  rewrite Z.shiftl_mul_pow2 by lia. apply Z.mod_small. lia.
Qed.

Lemma mul_zero x :
  1 <= Float32.exponent_field x <= 254 →
  Float32.to_spec (Float32.mul x 0) = S754_zero (Z.testbit x 31).
Proof.
  intros He. unfold Float32.mul. rewrite (to_spec_normal x) by done.
  change (Float32.to_spec 0) with (S754_zero false).
  cbn [SFmul]. by destruct (Z.testbit x 31).
Qed.

(** Decoding a denormal. *)
Lemma to_spec_denormal x :
  Float32.exponent_field x = 0 → Float32.mantissa_field x ≠ 0 →
  Float32.to_spec x =
    S754_finite (Z.testbit x 31) (Z.to_pos (Float32.mantissa_field x)) (-149).
Proof.
  intros He Hm. unfold Float32.to_spec. cbv zeta. rewrite He. simpl.
  destruct (abs_fields x) as (_ & _ & Hr).
  destruct (Float32.mantissa_field x) eqn:E; try lia. done.
Qed.
End LdexpFacts.

(** X25. [ldexp_] in approximate mode multiplies by the pattern whose
    exponent field is [n + 127].  On a normal lane [x] with a whole number
    [n] in [-126, 127] it adds [n] to the exponent field and changes nothing
    else, as long as the result is a normal number.  For [n = 128] the
    pattern is the one of infinity, and for [n = -127] the one of zero: the
    result is an infinity, or a zero, of the sign of [x], whatever the
    magnitude of [x]. *)
Theorem ldexp_shifts_the_exponent_field {Size : nat}
    (L : ScalarMath) (d n : vec Z Size) (i : fin Size) (k : Z) :
  Lane32.wf (d !!! i) →
  (1 ≤ Float32.exponent_field (d !!! i) ≤ 254)%Z →
  Float32.to_int32 (n !!! i) = Lane32.wrap k →
  let r := StaticArrayBaseFloat.ldexp_ true L d n !!! i in
  ((-126 ≤ k ≤ 127)%Z →
   (1 ≤ Float32.exponent_field (d !!! i) + k ≤ 254)%Z →
   r = Float32.pack (Z.testbit (d !!! i) 31)
         (Float32.exponent_field (d !!! i) + k)
         (Float32.mantissa_field (d !!! i)))
  ∧ (k = 128%Z → Float32.to_spec r = S754_infinity (Z.testbit (d !!! i) 31))
  ∧ (k = (-127)%Z → Float32.to_spec r = S754_zero (Z.testbit (d !!! i) 31)).
Proof.
  intros Hx He Hn. cbv zeta. rewrite ldexp_lane, Hn. split; [|split].
  - intros Hk Hr. rewrite ldexp_scale_pattern by lia.
    rewrite mul_power_of_two by (done || lia).
    f_equal. lia.
  - intros ->. rewrite ldexp_scale_pattern by lia.
    change ((128 + 127) * 2 ^ 23)%Z with Float32.infinity.
    by apply mul_infinity.
  - intros ->. rewrite ldexp_scale_pattern by lia.
    change ((-127 + 127) * 2 ^ 23)%Z with 0%Z.
    by apply mul_zero.
Qed.

Lemma ldexp_shifts_the_exponent_field_witness :
  StaticArrayBaseFloat.ldexp_ true ScalarLib.unavailable
    [# Literal.to_float "1.5"] [# Literal.to_float "3"] !!! 0%fin
    = Literal.to_float "12"
  ∧ Float32.to_spec
      (StaticArrayBaseFloat.ldexp_ true ScalarLib.unavailable
         [# Literal.to_float "-1e-30"] [# Literal.to_float "128"] !!! 0%fin)
    = S754_infinity true
  ∧ Float32.to_spec
      (StaticArrayBaseFloat.ldexp_ true ScalarLib.unavailable
         [# Literal.to_float "1e30"] [# Literal.to_float "-127"] !!! 0%fin)
    = S754_zero false.
Proof.
  split; [|split].
  - apply (proj1 (ldexp_shifts_the_exponent_field ScalarLib.unavailable
                    [# Literal.to_float "1.5"] [# Literal.to_float "3"] 0%fin 3
                    ltac:(vm_compute; split; [discriminate | reflexivity])
                    ltac:(vm_compute; split; discriminate)
                    ltac:(vm_compute; reflexivity))).
    + lia.
    + vm_compute. split; discriminate.
  - apply (proj1 (proj2 (ldexp_shifts_the_exponent_field ScalarLib.unavailable
                    [# Literal.to_float "-1e-30"] [# Literal.to_float "128"]
                    0%fin 128
                    ltac:(vm_compute; split; [discriminate | reflexivity])
                    ltac:(vm_compute; split; discriminate)
                    ltac:(vm_compute; reflexivity)))).
    reflexivity.
  - apply (proj2 (proj2 (ldexp_shifts_the_exponent_field ScalarLib.unavailable
                    [# Literal.to_float "1e30"] [# Literal.to_float "-127"]
                    0%fin (-127)
                    ltac:(vm_compute; split; [discriminate | reflexivity])
                    ltac:(vm_compute; split; discriminate)
                    ltac:(vm_compute; reflexivity)))).
    reflexivity.
Defined.

(** X26. The caveat of [frexp_] in approximate mode: a denormal lane
    (exponent field 0, mantissa [p] not 0, value [p * 2^-149]) is taken for
    a normal one.  The fraction gets the mantissa [p + 2^23] at the exponent
    of [[0.5, 1)] and the exponent is [-126], so together they stand for
    [(p + 2^23) * 2^-150], which is never the value of the lane. *)
Theorem frexp_misreads_denormals {Size : nat}
    (L : ScalarMath) (d : vec Z Size) (i : fin Size) :
  Float32.exponent_field (d !!! i) = 0%Z →
  Float32.mantissa_field (d !!! i) ≠ 0%Z →
  let m := (StaticArrayBaseFloat.frexp_ true L d).1 !!! i in
  let e := (StaticArrayBaseFloat.frexp_ true L d).2 !!! i in
  ∃ s p q,
    Float32.to_spec (d !!! i) = S754_finite s p (-149)
    ∧ Float32.to_spec m = S754_finite s q (-24)
    ∧ e = Float32.of_int32 (Lane32.wrap (-126))
    ∧ Zpos q = (Zpos p + 2 ^ 23)%Z
    ∧ (Zpos q * 2 ^ (-24 - 126 + 150) ≠ Zpos p * 2 ^ (-149 + 150))%Z.
Proof.
  intros He Hm. cbv zeta. rewrite frexp_fraction_lane, frexp_exponent_lane.
  destruct (abs_fields (d !!! i)) as (Ha & _ & Hr).
  destruct (Z.eqb_spec (Float32.abs (d !!! i)) 0) as [E|_]; [lia|].
  rewrite He. cbn [Z.eqb negb andb].
  destruct (fraction_pattern_fields (d !!! i)) as (Hs & Hef & Hmf).
  cbv zeta in Hs, Hef, Hmf.
  eexists _, _, _. split; [by apply to_spec_denormal|]. split; [|split; [|split]].
  - rewrite to_spec_normal by (rewrite Hef; lia). by rewrite Hs, Hef, Hmf.
  - done.
  - rewrite !Z2Pos.id by lia. done.
  - rewrite !Z2Pos.id by lia. change (2 ^ (-24 - 126 + 150))%Z with 1%Z.
    change (2 ^ (-149 + 150))%Z with 2%Z. lia.
Qed.

Lemma frexp_misreads_denormals_witness :
  ∃ s p q,
    Float32.to_spec ([# 1%Z] !!! 0%fin) = S754_finite s p (-149)
    ∧ Float32.to_spec
        ((StaticArrayBaseFloat.frexp_ true ScalarLib.unavailable [# 1%Z]).1
           !!! 0%fin)
      = S754_finite s q (-24)
    ∧ (StaticArrayBaseFloat.frexp_ true ScalarLib.unavailable [# 1%Z]).2
        !!! 0%fin
      = Float32.of_int32 (Lane32.wrap (-126))
    ∧ Zpos q = (Zpos p + 2 ^ 23)%Z
    ∧ (Zpos q * 2 ^ (-24 - 126 + 150) ≠ Zpos p * 2 ^ (-149 + 150))%Z.
Proof.
  apply (frexp_misreads_denormals ScalarLib.unavailable [# 1%Z] 0%fin).
  - reflexivity.
  - vm_compute. discriminate.
Defined.


(** ** [tanh_] and [coth_] outside the range of [exp_] *)

Section SaturatedHyperbolic.
Import FloatArray StaticArrayBaseFloat.
Context {Size : nat}.
Variable L : ScalarMath.
Local Open Scope Z_scope.
Implicit Types (d : vec Z Size) (i : fin Size).

(** A lane beyond the range of [exp_] is not a small one. *)
Lemma beyond_exp_range_not_small x :
  Float32.gt x (Literal.to_float "+88.3762626647949") = true
  ∨ Float32.lt x (Literal.to_float "-88.3762626647949") = true →
  Float32.lt (Float32.abs x) (Literal.to_float "1e-2") = false.
Proof.
  assert (Float32.is_nan (Literal.to_float "+88.3762626647949") = false
          ∧ Float32.is_nan (Literal.to_float "-88.3762626647949") = false
          ∧ Float32.is_nan (Literal.to_float "1e-2") = false
          ∧ 0 < Float32.ord_key (Literal.to_float "1e-2")
          ∧ Float32.ord_key (Literal.to_float "1e-2")
            < Float32.ord_key (Literal.to_float "+88.3762626647949")
          ∧ Float32.ord_key (Literal.to_float "-88.3762626647949")
            = - Float32.ord_key (Literal.to_float "+88.3762626647949"))
    as Hfacts by (vm_compute; repeat split; reflexivity).
  revert Hfacts.
  generalize (Literal.to_float "+88.3762626647949")
             (Literal.to_float "-88.3762626647949")
             (Literal.to_float "1e-2").
  intros M m c (HM & Hm & Hc & Hpos & Hlt & Hneg).
  unfold Float32.gt. rewrite !lt_ord_key, ord_key_abs, is_nan_abs.
  rewrite HM, Hm, Hc, Hneg.
  pose proof (abs_range x) as Ha.
  assert (Float32.ord_key x = Float32.abs x
          ∨ Float32.ord_key x = - Float32.abs x) as Hx
    by (unfold Float32.ord_key; destruct (Z.testbit x 31); auto).
  destruct (Float32.is_nan x); [done|]. simpl.
  intros [H|H]; apply Z.ltb_lt in H; apply Z.ltb_ge; lia.
Qed.

Lemma tanh_coth_saturated_lane d i :
  Float32.gt (d !!! i) (Literal.to_float "+88.3762626647949") = true
  ∨ Float32.lt (d !!! i) (Literal.to_float "-88.3762626647949") = true →
  Float32.is_nan (tanh_ true L d !!! i) = true
  ∧ Float32.is_nan (coth_ true L d !!! i) = true.
Proof.
  intros H. pose proof (beyond_exp_range_not_small _ H) as Hs.
  pose proof (exp_lane L d i) as He.
  unfold tanh_, coth_. cbv beta iota zeta.
  generalize dependent (exp_ true L d). intros exp0 He.
  push_lanes. rewrite Hs, He. destruct H as [H|H].
  - rewrite H. vm_compute. split; reflexivity.
  - rewrite (lt_lt_not_gt _ _ _ H minRange_lt_maxRange), H.
    vm_compute. split; reflexivity.
Qed.
End SaturatedHyperbolic.

(** X27. In approximate mode [tanh_] and [coth_] are a NaN on every lane
    beyond the range of [exp_], finite lanes included: there [exp(x)] has
    saturated to infinity (or to zero, and its reciprocal, the fallback
    [rcp_] of this header, to infinity), and the quotient of the sum and
    the difference is infinity over infinity.  The limits [+/-1] are not
    returned. *)
Theorem tanh_is_nan_beyond_the_exp_range {Size : nat}
    (L : ScalarMath) (d : vec Z Size) (i : fin Size) :
  Float32.gt (d !!! i) (Literal.to_float "+88.3762626647949") = true
  ∨ Float32.lt (d !!! i) (Literal.to_float "-88.3762626647949") = true →
  Float32.is_nan (StaticArrayBaseFloat.tanh_ true L d !!! i) = true
  ∧ Float32.is_nan (StaticArrayBaseFloat.coth_ true L d !!! i) = true.
Proof. apply tanh_coth_saturated_lane. Qed.

Lemma tanh_is_nan_beyond_the_exp_range_witness :
  Float32.is_nan
    (StaticArrayBaseFloat.tanh_ true ScalarLib.unavailable
       [# Literal.to_float "1"; Literal.to_float "-100"] !!! 1%fin) = true
  ∧ Float32.is_nan
      (StaticArrayBaseFloat.coth_ true ScalarLib.unavailable
         [# Literal.to_float "1"; Literal.to_float "-100"] !!! 1%fin) = true.
Proof.
  apply (tanh_is_nan_beyond_the_exp_range ScalarLib.unavailable
           [# Literal.to_float "1"; Literal.to_float "-100"] 1%fin).
  right. vm_compute. reflexivity.
Defined.
